(** * Gradient-accumulation rewrite passes of the SPMD partitioner

    A shallow embedding of
    [tensorflow/compiler/xla/service/spmd/grad_acc_rewrite.cc]:
    the chain matcher [GetAllReduce] (lines 13-32), the shape/type bridge
    [MaybeConvert] (34-42), [MaybeReshapeConvert] (44-51) and
    [MaybeReshapeConvertTuple] (53-66), the single-module pass
    [GradAccRewrite::Run] (68-145) and the diagnostic
    [GetGradSyncChannelIds] (147-157); and, from the revision of that file
    that works on a module group, the two-module pass
    [GradAccCommDelay::RunOnModuleGroup] (lines 161-295 there; the
    functions above are the same in both revisions).

    The HLO instruction graph is an arena: an instruction is addressed by
    its position in the computation's instruction list, a removed
    instruction leaves an empty slot, and the user list of an instruction
    is derived from the operand lists.  A computation that aborts (a failed
    CHECK / assert, an access outside a vector, a read of an empty
    optional) is [None]. *)

From stdpp Require Import base option list strings pretty.
From Stdlib Require Import ZArith Lia Ascii.

Open Scope Z_scope.

#[local] Set Warnings "-clear-no-such-hyp".

(** ** Opcodes, element types, shapes *)

(** The opcodes this file names, a few of the ordinary ones, and
    [kOther] for the rest of the enumeration. *)
Inductive HloOpcode : Type :=
  | kAdd | kAllReduce | kBitcast | kConvert | kCopy | kMultiply
  | kReshape | kTranspose
  | kParameter | kTuple | kConstant | kSubtract | kDot
  | kOther (tag : nat).

#[global] Instance HloOpcode_eq_dec : EqDecision HloOpcode.
Proof. solve_decision. Defined.

Inductive PrimitiveType : Type :=
  | PRED | S8 | S32 | S64 | U8 | U32 | F16 | BF16 | F32 | F64
  | TUPLE | OPAQUE_TYPE | TOKEN.

#[global] Instance PrimitiveType_eq_dec : EqDecision PrimitiveType.
Proof. solve_decision. Defined.

(** A shape is an array (element type and dimension sizes) or a tuple of
    shapes.  Layouts are not modelled. *)
#[warnings="-register-all"]
Inductive Shape : Type :=
  | ArrayShape (ty : PrimitiveType) (dims : list Z)
  | TupleShape (subshapes : list Shape).

Definition element_type (s : Shape) : PrimitiveType :=
  match s with
  | ArrayShape ty _ => ty
  | TupleShape _ => TUPLE
  end.

Definition IsTuple (s : Shape) : bool :=
  match s with TupleShape _ => true | ArrayShape _ _ => false end.

Definition IsArrayType (ty : PrimitiveType) : bool :=
  match ty with
  | TUPLE | OPAQUE_TYPE | TOKEN => false
  | _ => true
  end.

Definition IsArray (s : Shape) : bool :=
  match s with
  | ArrayShape ty _ => IsArrayType ty
  | TupleShape _ => false
  end.

Definition tuple_shapes (s : Shape) : list Shape :=
  match s with TupleShape l => l | ArrayShape _ _ => [] end.

(** Modelled from the spec: [ShapeUtil::SameElementType] is declared in
    shape_util.h, which is not part of the sources at hand.  "Type
    compatibility = equal element type". *)
Definition SameElementType (a b : Shape) : bool :=
  bool_decide (element_type a = element_type b).

(** Modelled from the spec: [ShapeUtil::Compatible] is declared in
    shape_util.h, which is not part of the sources at hand.  Two shapes
    are compatible when they are structurally compatible ("equal rank and
    dimension sizes once tuple structure is unwrapped") and type
    compatible ("equal element type"); tuples are compared component by
    component. *)
Fixpoint Compatible (lhs rhs : Shape) : bool :=
  match lhs, rhs with
  | ArrayShape t1 d1, ArrayShape t2 d2 =>
      bool_decide (t1 = t2) && bool_decide (d1 = d2)
  | TupleShape l1, TupleShape l2 =>
      (fix all2 (l1 l2 : list Shape) {struct l1} : bool :=
         match l1, l2 with
         | [], [] => true
         | a :: l1', b :: l2' => Compatible a b && all2 l1' l2'
         | _, _ => false
         end) l1 l2
  | _, _ => false
  end.

(** Modelled from the spec: [ShapeUtil::ChangeElementType] is declared in
    shape_util.h, which is not part of the sources at hand.  The same
    dimensions with another element type; a tuple is changed component
    by component. *)
Fixpoint ChangeElementType (s : Shape) (ty : PrimitiveType) : Shape :=
  match s with
  | ArrayShape _ dims => ArrayShape ty dims
  | TupleShape l => TupleShape (map (λ x, ChangeElementType x ty) l)
  end.

(** Structural compatibility alone, in the specification's words "equal
    rank and dimension sizes once tuple structure is unwrapped": the
    element type is not compared. *)
Fixpoint structurally_compatible (lhs rhs : Shape) : bool :=
  match lhs, rhs with
  | ArrayShape _ d1, ArrayShape _ d2 => bool_decide (d1 = d2)
  | TupleShape l1, TupleShape l2 =>
      (fix all2 (l1 l2 : list Shape) {struct l1} : bool :=
         match l1, l2 with
         | [], [] => true
         | a :: l1', b :: l2' => structurally_compatible a b && all2 l1' l2'
         | _, _ => false
         end) l1 l2
  | _, _ => false
  end.

(** ** Instructions and computations *)

(** An instruction is named by its slot in the arena. *)
Abbreviation InstrId := nat (only parsing).

(** The attributes of [HloInstruction] that the passes read or write.
    [metadata_op_name] stands for the whole [OpMetadata], of which only
    [op_name] is ever inspected. *)
Record HloInstruction : Type := mkInstr {
  opcode : HloOpcode;
  shape : Shape;
  operands : list InstrId;
  metadata_op_name : string;
  channel_id : option Z;
  replica_groups : list (list Z);
  constrain_layout : bool;
  use_global_device_ids : bool;
}.

(** A computation owns its instructions; [None] marks the slot of an
    instruction that was removed. *)
Record HloComputation : Type := mkComp {
  instructions : list (option HloInstruction);
  root_instruction : InstrId;
  param_instructions : list InstrId;
}.

(** The passes only touch the entry computation of a module. *)
Record HloModule : Type := mkModule {
  entry_computation : HloComputation;
}.

(** Modelled from the spec: the metadata markers are declared in
    grad_acc_rewrite.h, which is not part of the sources at hand.  They
    are free-form labels; the passes only write them and compare them
    for equality. *)
Definition kSkippableAllReduce : string := "grad_acc_skippable_all_reduce".
Definition kDelayedAllReduce : string := "grad_acc_delayed_all_reduce".

Definition instr (c : HloComputation) (n : InstrId) : option HloInstruction :=
  match instructions c !! n with
  | Some (Some ins) => Some ins
  | _ => None
  end.

(** [n->mutable_operand(k)]: aborts outside the operand vector. *)
Definition mutable_operand (c : HloComputation) (n : InstrId) (k : nat)
  : option InstrId :=
  ins ← instr c n; operands ins !! k.

(** The same with the index as the C++ integer it is: a negative
    [int64_t], or what it becomes as a [size_t], lies outside every
    operand vector. *)
Definition vector_at {A} (v : list A) (i : Z) : option A :=
  if decide (0 ≤ i < Z.of_nat (length v)) then v !! Z.to_nat i else None.

Definition mutable_operand_Z (c : HloComputation) (n : InstrId) (i : Z)
  : option InstrId :=
  ins ← instr c n; vector_at (operands ins) i.

(** [m] has [n] among its operands. *)
Definition uses (c : HloComputation) (n m : InstrId) : bool :=
  match instr c m with
  | Some ins => bool_decide (n ∈ operands ins)
  | None => false
  end.

(** [n->users()]: the instructions that have [n] as an operand, each
    listed once.  The source only takes the size of this list, its single
    element, or rewires every element of it. *)
Definition users (c : HloComputation) (n : InstrId) : list InstrId :=
  filter (λ m, uses c n m) (seq 0 (length (instructions c))).

(** ** The chain matcher *)

(** [GetAllReduce(src)], lines 13-32.  The outer option is [None] when
    the walk reads an operand that is not there or does not end within
    [fuel] calls; the inner option is the returned pointer, [None] for
    [nullptr]. *)
Fixpoint GetAllReduce_fuel (fuel : nat) (c : HloComputation) (src : InstrId)
  : option (option InstrId) :=
  match fuel with
  | O => None
  | S fuel' =>
      ins ← instr c src;
      match opcode ins with
      | kAllReduce => Some (Some src)
      | kConvert | kReshape | kCopy | kBitcast | kTranspose =>
          o ← operands ins !! 0%nat;
          GetAllReduce_fuel fuel' c o
      | kMultiply =>
          o0 ← operands ins !! 0%nat;
          lhs ← GetAllReduce_fuel fuel' c o0;
          o1 ← operands ins !! 1%nat;
          rhs ← GetAllReduce_fuel fuel' c o1;
          match lhs, rhs with
          | Some l, None => Some (Some l)
          | None, Some r => Some (Some r)
          | _, _ => Some None
          end
      | _ => Some None
      end
  end.

(** In an acyclic computation no chain is longer than the number of
    instructions. *)
Definition GetAllReduce (c : HloComputation) (src : InstrId)
  : option (option InstrId) :=
  GetAllReduce_fuel (S (length (instructions c))) c src.

(** ** Graph surgery *)

Definition with_instructions (c : HloComputation)
    (l : list (option HloInstruction)) : HloComputation :=
  {| instructions := l;
     root_instruction := root_instruction c;
     param_instructions := param_instructions c |}.

Definition with_operands (ops : list InstrId) (ins : HloInstruction)
  : HloInstruction :=
  {| opcode := opcode ins; shape := shape ins; operands := ops;
     metadata_op_name := metadata_op_name ins; channel_id := channel_id ins;
     replica_groups := replica_groups ins;
     constrain_layout := constrain_layout ins;
     use_global_device_ids := use_global_device_ids ins |}.

Definition with_op_name (name : string) (ins : HloInstruction)
  : HloInstruction :=
  {| opcode := opcode ins; shape := shape ins; operands := operands ins;
     metadata_op_name := name; channel_id := channel_id ins;
     replica_groups := replica_groups ins;
     constrain_layout := constrain_layout ins;
     use_global_device_ids := use_global_device_ids ins |}.

(** Apply [f] to the instruction in slot [n]. *)
Definition update_instr (n : InstrId) (f : HloInstruction → HloInstruction)
    (c : HloComputation) : HloComputation :=
  match instr c n with
  | Some ins => with_instructions c (<[n := Some (f ins)]> (instructions c))
  | None => c
  end.

(** [computation->AddInstruction(ins)]: the new instruction takes the
    next slot. *)
Definition push_instruction (ins : HloInstruction) (c : HloComputation)
  : HloComputation :=
  with_instructions c (instructions c ++ [Some ins]).

Definition AddInstruction (ins : HloInstruction) (c : HloComputation)
  : InstrId * HloComputation :=
  (length (instructions c), push_instruction ins c).

(** Modelled from the spec: the instruction constructors are declared in
    hlo_instruction.h, which is not part of the sources at hand.  A
    conversion or reshape node has the given shape and the given single
    operand; a collective has the given shape, operands, replica
    grouping, layout constraint, channel identifier and global-device-id
    policy.  The combiner computation of a collective is not modelled. *)
Definition CreateConvert (sh : Shape) (operand : InstrId) : HloInstruction :=
  mkInstr kConvert sh [operand] "" None [] false false.

Definition CreateReshape (sh : Shape) (operand : InstrId) : HloInstruction :=
  mkInstr kReshape sh [operand] "" None [] false false.

Definition CreateAllReduce (sh : Shape) (ops : list InstrId)
    (groups : list (list Z)) (constrain : bool) (channel : option Z)
    (global_ids : bool) : HloInstruction :=
  mkInstr kAllReduce sh ops "" channel groups constrain global_ids.

(** Modelled from the spec: [HloInstruction::ReplaceOperandWith] is
    defined in hlo_instruction.cc, which is not part of the sources at
    hand.  Operand [k] of [n] becomes [new]; the operand count is kept
    (an index outside the operand list changes nothing).  The passes
    bridge every new operand to the shape its slot expects before they
    call this, and drop the status it returns. *)
Definition ReplaceOperandWith (n : InstrId) (k : nat) (new : InstrId)
    (c : HloComputation) : HloComputation :=
  update_instr n (λ ins, with_operands (<[k := new]> (operands ins)) ins) c.

Definition set_metadata_op_name (n : InstrId) (name : string)
    (c : HloComputation) : HloComputation :=
  update_instr n (with_op_name name) c.

Definition replace_uses (old new : InstrId) (ins : HloInstruction)
  : HloInstruction :=
  with_operands ((λ o, if decide (o = old) then new else o) <$> operands ins)
                ins.

(** Modelled from the spec: [HloInstruction::ReplaceAllUsesWith] is
    defined in hlo_instruction.cc, which is not part of the sources at
    hand.  "All uses of the old collective are redirected to the new
    one": every operand slot that held [old] holds [new]. *)
Definition ReplaceAllUsesWith (old new : InstrId) (c : HloComputation)
  : HloComputation :=
  with_instructions c
    ((λ slot : option HloInstruction, replace_uses old new <$> slot)
       <$> instructions c).

(** Modelled from the spec: [HloComputation::RemoveInstruction] is defined
    in hlo_computation.cc, which is not part of the sources at hand.
    "A node with a user is never removed", nor one that the root
    position points to; the status it returns is dropped by the
    callers. *)
Definition RemoveInstruction (n : InstrId) (c : HloComputation)
  : HloComputation :=
  if decide (n = root_instruction c) then c
  else match users c n with
       | [] => with_instructions c (<[n := None]> (instructions c))
       | _ :: _ => c
       end.

(** ** The shape/type bridge *)

(** [MaybeConvert], lines 34-42. *)
Definition MaybeConvert (src : InstrId) (dst_shape : Shape)
    (c : HloComputation) : option (InstrId * HloComputation) :=
  ins ← instr c src;
  if SameElementType (shape ins) dst_shape then Some (src, c)
  else
    let new_shape := ChangeElementType (shape ins) (element_type dst_shape) in
    Some (AddInstruction (CreateConvert new_shape src) c).

(** [MaybeReshapeConvert], lines 44-51.  The conversion is built first
    (it is an argument of [CreateReshape]), the reshape on top of it. *)
Definition MaybeReshapeConvert (src : InstrId) (dst_shape : Shape)
    (c : HloComputation) : option (InstrId * HloComputation) :=
  ins ← instr c src;
  if Compatible (shape ins) dst_shape then Some (src, c)
  else
    '(converted, c1) ← MaybeConvert src dst_shape c;
    Some (AddInstruction (CreateReshape dst_shape converted) c1).

(** The same function with the compatibility test left open, to tell
    what does not depend on how [ShapeUtil::Compatible] is read. *)
Definition MaybeReshapeConvert_with (compatible : Shape → Shape → bool)
    (src : InstrId) (dst_shape : Shape) (c : HloComputation)
  : option (InstrId * HloComputation) :=
  ins ← instr c src;
  if compatible (shape ins) dst_shape then Some (src, c)
  else
    '(converted, c1) ← MaybeConvert src dst_shape c;
    Some (AddInstruction (CreateReshape dst_shape converted) c1).

(** The loop of the tuple branch: [src[i]] against [tuple_shapes(i)]. *)
Fixpoint bridge_each (src : list InstrId) (shapes : list Shape)
    (c : HloComputation) : option (list InstrId * HloComputation) :=
  match src, shapes with
  | [], _ => Some ([], c)
  | s :: src', sh :: shapes' =>
      '(r, c1) ← MaybeReshapeConvert s sh c;
      '(ret, c2) ← bridge_each src' shapes' c1;
      Some (r :: ret, c2)
  | _ :: _, [] => None
  end.

(** [MaybeReshapeConvertTuple], lines 53-66; a failed CHECK is [None]. *)
Definition MaybeReshapeConvertTuple (src : list InstrId) (dst_shape : Shape)
    (c : HloComputation) : option (list InstrId * HloComputation) :=
  if IsTuple dst_shape then
    if decide (length (tuple_shapes dst_shape) = length src)
    then bridge_each src (tuple_shapes dst_shape) c
    else None
  else
    if IsArray dst_shape && bool_decide (length src = 1%nat) then
      s ← src !! 0%nat;
      '(r, c1) ← MaybeReshapeConvert s dst_shape c;
      Some ([r], c1)
    else None.

(** ** The single-module pass *)

(** The values the passes fetch from [pass_context]. *)
Record PassContext : Type := mkContext {
  rewrite_for_grad_acc : bool;
  rewrite_indices : list Z;
  rewrite_applygrad_indices : list Z;
}.

(** The detach loop, lines 102-108: every operand slot of the
    collective's user that holds the collective gets the collective's own
    operand, bridged to the shape the slot had.  [slots] are the indices
    [0 .. operand_count - 1]; no step changes the operand count. *)
Fixpoint detach_loop (allreduce_ins allreduce_user : InstrId)
    (slots : list nat) (c : HloComputation) : option HloComputation :=
  match slots with
  | [] => Some c
  | i :: rest =>
      o ← mutable_operand c allreduce_user i;
      if decide (o = allreduce_ins) then
        x ← mutable_operand c allreduce_ins 0;
        oi ← instr c o;
        '(b, c1) ← MaybeReshapeConvert x (shape oi) c;
        detach_loop allreduce_ins allreduce_user rest
                    (ReplaceOperandWith allreduce_user i b c1)
      else detach_loop allreduce_ins allreduce_user rest c
  end.

(** Pattern match for one output index, lines 87-100: [Some None] is the
    [continue] of the source,
    [Some (Some (add_ins, allreduce_ins, allreduce_user))] a match, and
    [None] the abort on an operand index outside the operand vector or
    on the failed [CHECK_EQ(allreduce_ins->operand_count(), 1)]. *)
Definition match_index (c : HloComputation) (i : Z)
  : option (option (InstrId * InstrId * InstrId)) :=
  add_ins ← mutable_operand_Z c (root_instruction c) i;
  add ← instr c add_ins;
  if decide (opcode add ≠ kAdd) then Some None
  else
    x ← mutable_operand c add_ins 1;
    found ← GetAllReduce c x;
    match found with
    | None => Some None
    | Some allreduce_ins =>
        if decide (length (users c allreduce_ins) ≠ 1%nat) then Some None
        else
          ar ← instr c allreduce_ins;
          if decide (length (operands ar) ≠ 1%nat) then None
          else
            allreduce_user ← head (users c allreduce_ins);
            Some (Some (add_ins, allreduce_ins, allreduce_user))
    end.

Definition detach (allreduce_ins allreduce_user : InstrId)
    (c : HloComputation) : option HloComputation :=
  u ← instr c allreduce_user;
  detach_loop allreduce_ins allreduce_user
              (seq 0 (length (operands u))) c.

(** Lines 110-133: reinsert the collective after the Add, tag it, and
    rebuild it when its element type is not the Add's. *)
Definition reinsert (i : nat) (add_ins allreduce_ins : InstrId)
    (st : HloComputation * list InstrId)
  : option (HloComputation * list InstrId) :=
  let '(c, to_remove) := st in
  let output_tuple := root_instruction c in
  ar ← instr c allreduce_ins;
  '(b1, c1) ← MaybeReshapeConvert add_ins (shape ar) c;
  let c2 := ReplaceOperandWith allreduce_ins 0 b1 c1 in
  add ← instr c2 add_ins;
  '(b2, c3) ← MaybeReshapeConvert allreduce_ins (shape add) c2;
  let c4 := ReplaceOperandWith output_tuple i b2 c3 in
  let c5 := set_metadata_op_name allreduce_ins kSkippableAllReduce c4 in
  old_allreduce ← instr c5 allreduce_ins;
  add5 ← instr c5 add_ins;
  if negb (SameElementType (shape old_allreduce) (shape add5)) then
    let new_shape := shape add5 in
    '(ops, c6) ← MaybeReshapeConvertTuple (operands old_allreduce) new_shape c5;
    let '(new_allreduce, c7) :=
      AddInstruction
        (CreateAllReduce new_shape ops (replica_groups old_allreduce)
           (constrain_layout old_allreduce) (channel_id old_allreduce)
           (use_global_device_ids old_allreduce)) c6 in
    let c8 :=
      set_metadata_op_name new_allreduce (metadata_op_name old_allreduce) c7 in
    '(b3, c9) ← MaybeReshapeConvert new_allreduce (shape old_allreduce) c8;
    Some (ReplaceAllUsesWith allreduce_ins b3 c9, to_remove ++ [allreduce_ins])
  else Some (c5, to_remove).

(** The body of the loop over the requested indices. *)
Definition rewrite_index (i : Z) (st : HloComputation * list InstrId)
  : option (HloComputation * list InstrId) :=
  m ← match_index st.1 i;
  match m with
  | None => Some st
  | Some (add_ins, allreduce_ins, allreduce_user) =>
      c1 ← detach allreduce_ins allreduce_user st.1;
      reinsert (Z.to_nat i) add_ins allreduce_ins (c1, st.2)
  end.

Fixpoint rewrite_loop (indices : list Z) (st : HloComputation * list InstrId)
  : option (HloComputation * list InstrId) :=
  match indices with
  | [] => Some st
  | i :: rest => st' ← rewrite_index i st; rewrite_loop rest st'
  end.

Definition remove_all (to_remove : list InstrId) (c : HloComputation)
  : HloComputation :=
  fold_left (λ c n, RemoveInstruction n c) to_remove c.

(** [GradAccRewrite::Run], lines 68-145.  The removal list is emptied
    after the loop; the result is [true] on every path past the toggle. *)
Definition Run (ctx : PassContext) (module : HloModule)
  : option (bool * HloModule) :=
  if negb (rewrite_for_grad_acc ctx) then Some (false, module)
  else
    '(entry, to_remove) ←
      rewrite_loop (rewrite_indices ctx) (entry_computation module, []);
    Some (true, mkModule (remove_all to_remove entry)).

(** ** The diagnostic query *)

(** [GetGradSyncChannelIds], lines 147-157: [channel_id().value()] on a
    tagged collective that has no channel identifier aborts. *)
Definition GetGradSyncChannelIds (module : HloModule) : option string :=
  fold_left
    (λ acc slot,
       ret ← acc;
       match slot with
       | Some inst =>
           if bool_decide (opcode inst = kAllReduce)
              && String.eqb (metadata_op_name inst) kSkippableAllReduce
           then id ← channel_id inst; Some (ret +:+ pretty id +:+ ".")
           else Some ret
       | None => Some ret
       end)
    (instructions (entry_computation module)) (Some ".").

(** ** The two-module pass *)

(** Modelled from the spec: [hlo_query::NextChannelId] is defined in
    hlo_query.cc, which is not part of the sources at hand.  "The
    allocator scans the consumer unit once at entry to seed a
    monotonically increasing counter strictly above the current
    maximum"; identifiers start at 1. *)
Definition NextChannelId (module : HloModule) : Z :=
  fold_left
    (λ next slot,
       match slot with
       | Some (mkInstr _ _ _ _ (Some id) _ _ _) => Z.max next (id + 1)
       | _ => next
       end)
    (instructions (entry_computation module)) 1.

(** The loops that rewire the consumers of the parameter, lines 269-277
    of the group revision: every operand slot of [param_user] that holds
    the parameter gets the new collective, bridged to the parameter's
    shape. *)
Fixpoint rewire_operands (param_ins new_allreduce param_user : InstrId)
    (slots : list nat) (c : HloComputation) : option HloComputation :=
  match slots with
  | [] => Some c
  | i :: rest =>
      o ← mutable_operand c param_user i;
      if decide (o = param_ins) then
        p ← instr c param_ins;
        '(b, c1) ← MaybeReshapeConvert new_allreduce (shape p) c;
        rewire_operands param_ins new_allreduce param_user rest
                        (ReplaceOperandWith param_user i b c1)
      else rewire_operands param_ins new_allreduce param_user rest c
  end.

Fixpoint rewire_users (param_ins new_allreduce : InstrId)
    (param_users : list InstrId) (c : HloComputation)
  : option HloComputation :=
  match param_users with
  | [] => Some c
  | param_user :: rest =>
      u ← instr c param_user;
      c1 ← rewire_operands param_ins new_allreduce param_user
             (seq 0 (length (operands u))) c;
      rewire_users param_ins new_allreduce rest c1
  end.

(** The channel counter is an [int64_t] (lines 188 and 259 of the group
    revision): what it holds after the arithmetic result [z], the
    two's-complement wrap-around written out. *)
Definition int64_wrap (z : Z) : Z := (z + 2 ^ 63) mod 2 ^ 64 - 2 ^ 63.

(** The state of the loop over the index pairs: the two entry
    computations, the channel counter and the removal list. *)
Record DelayState : Type := mkDelay {
  backward_entry : HloComputation;
  applygrad_entry : HloComputation;
  next_channel_id : Z;
  to_remove : list InstrId;
}.

(** The consumer side of a relocation, lines 248-277 of the group
    revision: [param_users] is read first; a new collective over the
    parameter at [in_index], with the counter's value as channel
    identifier when the old collective had one ([next_channel_id++]),
    takes the place of the parameter for those users.  A violated [assert] on the element types
    aborts, as the specification has it.  Returns the new collective and
    the counter as well. *)
Definition relocate_into (old_allreduce : HloInstruction) (add_shape : Shape)
    (in_index : Z) (next : Z) (applygrad : HloComputation)
  : option (InstrId * Z * HloComputation) :=
  param_ins ← vector_at (param_instructions applygrad) in_index;
  param ← instr applygrad param_ins;
  let param_users := users applygrad param_ins in
  if negb (SameElementType add_shape (shape param)) then None
  else
    let new_shape := shape param in
    let '(channel, next') :=
      match channel_id old_allreduce with
      | Some _ => (Some next, int64_wrap (next + 1))
      | None => (None, next)
      end in
    '(ops, a1) ← MaybeReshapeConvertTuple [param_ins] new_shape applygrad;
    let '(new_allreduce, a2) :=
      AddInstruction
        (CreateAllReduce new_shape ops (replica_groups old_allreduce)
           (constrain_layout old_allreduce) channel
           (use_global_device_ids old_allreduce)) a1 in
    let a3 :=
      set_metadata_op_name new_allreduce (metadata_op_name old_allreduce) a2 in
    a4 ← rewire_users param_ins new_allreduce param_users a3;
    Some (new_allreduce, next', a4).

(** The [else] branch of the loop body, lines 245-279 of the group
    revision: the old collective is tagged as delayed, relocated and
    scheduled for removal. *)
Definition relocate (in_index : Z) (add_ins allreduce_ins : InstrId)
    (st : DelayState) : option DelayState :=
  let backward :=
    set_metadata_op_name allreduce_ins kDelayedAllReduce (backward_entry st) in
  add ← instr backward add_ins;
  old_allreduce ← instr backward allreduce_ins;
  '(_, next', applygrad) ←
    relocate_into old_allreduce (shape add) in_index
                  (next_channel_id st) (applygrad_entry st);
  Some (mkDelay backward applygrad next' (to_remove st ++ [allreduce_ins])).

(** The body of the loop over the index pairs, lines 194-280 of the
    group revision; matching and detaching are as in [Run], and
    [in_index == -1] takes the path of [Run]. *)
Definition delay_index (out_index in_index : Z) (st : DelayState)
  : option DelayState :=
  m ← match_index (backward_entry st) out_index;
  match m with
  | None => Some st
  | Some (add_ins, allreduce_ins, allreduce_user) =>
      c1 ← detach allreduce_ins allreduce_user (backward_entry st);
      if decide (in_index = -1) then
        '(c2, rm) ←
          reinsert (Z.to_nat out_index) add_ins allreduce_ins
                   (c1, to_remove st);
        Some (mkDelay c2 (applygrad_entry st) (next_channel_id st) rm)
      else
        relocate in_index add_ins allreduce_ins
                 (mkDelay c1 (applygrad_entry st) (next_channel_id st)
                          (to_remove st))
  end.

Fixpoint delay_loop (pairs : list (Z * Z)) (st : DelayState)
  : option DelayState :=
  match pairs with
  | [] => Some st
  | (out_index, in_index) :: rest =>
      st' ← delay_index out_index in_index st; delay_loop rest st'
  end.

(** [GradAccCommDelay::RunOnModuleGroup] on the group
    [{backward_hlo, applygrad_hlo}], lines 161-295 of the group revision.
    The counter, an [int64_t], is seeded before the loop; index lists of
    different lengths fail the CHECK_EQ. *)
Definition RunOnModuleGroup (ctx : PassContext)
    (module_group : HloModule * HloModule)
  : option (bool * (HloModule * HloModule)) :=
  if negb (rewrite_for_grad_acc ctx) then Some (false, module_group)
  else
    let '(backward_hlo, applygrad_hlo) := module_group in
    let output_indices := rewrite_indices ctx in
    let input_indices := rewrite_applygrad_indices ctx in
    let next := int64_wrap (NextChannelId applygrad_hlo) in
    if decide (length output_indices ≠ length input_indices) then None
    else
      st ← delay_loop (zip output_indices input_indices)
              (mkDelay (entry_computation backward_hlo)
                       (entry_computation applygrad_hlo) next []);
      Some (true,
            (mkModule (remove_all (to_remove st) (backward_entry st)),
             mkModule (applygrad_entry st))).

(** ** Notions used to state the properties *)

(** Every operand reference resolves to an instruction that is present. *)
Definition operands_closed (c : HloComputation) : Prop :=
  ∀ n ins o, instr c n = Some ins → o ∈ operands ins → is_Some (instr c o).

(** The operand edges admit a ranking: there is no cycle. *)
Definition acyclic (c : HloComputation) : Prop :=
  ∃ rank : InstrId → nat,
    ∀ n ins o, instr c n = Some ins → o ∈ operands ins →
               (rank o < rank n)%nat.

(** [rank] goes down along every operand edge. *)
Definition ranked (rank : InstrId → nat) (c : HloComputation) : Prop :=
  ∀ n ins o, instr c n = Some ins → o ∈ operands ins → (rank o < rank n)%nat.

(** An operand edge: [o] is an operand of the instruction in slot [n]. *)
Definition edge (c : HloComputation) (o n : InstrId) : Prop :=
  ∃ ins, instr c n = Some ins ∧ o ∈ operands ins.

(** Every operand edge of [c'] is an edge of [c], or starts at one of
    the [sources] or at a new node. *)
Definition feeds_from (sources : list InstrId) (c c' : HloComputation) : Prop :=
  (length (instructions c) ≤ length (instructions c'))%nat ∧
  ∀ o n, edge c' o n →
         edge c o n ∨ o ∈ sources ∨ (length (instructions c) ≤ o)%nat.

(** What a caller sees of an instruction when operands are rewired. *)
Definition same_signature (ins ins' : HloInstruction) : Prop :=
  opcode ins' = opcode ins ∧ shape ins' = shape ins ∧
  length (operands ins') = length (operands ins) ∧
  channel_id ins' = channel_id ins ∧
  replica_groups ins' = replica_groups ins ∧
  constrain_layout ins' = constrain_layout ins ∧
  use_global_device_ids ins' = use_global_device_ids ins.

(** [c'] has every instruction of [c], with the same signature, the same
    root and the same parameters, and no slot of [c] holds an instruction
    in [c'] that it did not hold in [c]. *)
Definition keeps (c c' : HloComputation) : Prop :=
  root_instruction c' = root_instruction c ∧
  param_instructions c' = param_instructions c ∧
  (length (instructions c) ≤ length (instructions c'))%nat ∧
  (∀ n ins, instr c n = Some ins →
            ∃ ins', instr c' n = Some ins' ∧ same_signature ins ins') ∧
  (∀ n ins', (n < length (instructions c))%nat → instr c' n = Some ins' →
             ∃ ins, instr c n = Some ins ∧ same_signature ins ins').

(** [c'] is [c] with instructions added at the end. *)
Definition grows (c c' : HloComputation) : Prop :=
  root_instruction c' = root_instruction c ∧
  param_instructions c' = param_instructions c ∧
  ∃ new, instructions c' = instructions c ++ new.

(** [c'] keeps what [c] has, is closed when [c] is, and holds in its
    new slots conversions, reshapes and all-reduces only, each with one
    operand. *)
Definition extends (c c' : HloComputation) : Prop :=
  keeps c c' ∧
  (operands_closed c → operands_closed c') ∧
  ∀ n ins', (length (instructions c) ≤ n)%nat → instr c' n = Some ins' →
            (opcode ins' = kConvert ∨ opcode ins' = kReshape ∨
             opcode ins' = kAllReduce) ∧
            length (operands ins') = 1%nat.

(** What a pass makes of a computation: root and parameters stay; an
    instruction that was there is still there with the same signature,
    or it is gone and was an all-reduce; an instruction that is there
    was there with the same signature, or it is a conversion, a reshape
    or an all-reduce, with one operand, in a new slot. *)
Definition rewritten (c c' : HloComputation) : Prop :=
  root_instruction c' = root_instruction c ∧
  param_instructions c' = param_instructions c ∧
  (∀ n ins, instr c n = Some ins →
     (∃ ins', instr c' n = Some ins' ∧ same_signature ins ins') ∨
     (instr c' n = None ∧ opcode ins = kAllReduce)) ∧
  (∀ n ins', instr c' n = Some ins' →
     (∃ ins, instr c n = Some ins ∧ same_signature ins ins') ∨
     ((length (instructions c) ≤ n)%nat ∧
      (opcode ins' = kConvert ∨ opcode ins' = kReshape ∨
       opcode ins' = kAllReduce) ∧
      length (operands ins') = 1%nat)).

(** What the caller sees of the root: its shape and its operand count. *)
Definition root_interface (c : HloComputation) : option (Shape * nat) :=
  (λ ins, (shape ins, length (operands ins))) <$> instr c (root_instruction c).

(** [b] is what the bridge makes of [n]: [n] itself, a reshape of [n],
    or a reshape of a conversion of [n]. *)
Definition bridged (c : HloComputation) (b n : InstrId) : Prop :=
  b = n ∨
  (∃ sh, instr c b = Some (CreateReshape sh n)) ∨
  (∃ sh sh' v, instr c b = Some (CreateReshape sh v) ∧
               instr c v = Some (CreateConvert sh' n)).

(** Output position [i] of the root is fed by a bridged form of the
    collective [allreduce_ins], which is tagged as elidable and whose
    single operand is a bridged form of the Add [add_ins]. *)
Definition reinserted (c : HloComputation) (i : Z)
    (add_ins allreduce_ins : InstrId) : Prop :=
  ∃ b1 b2 ar add,
    mutable_operand_Z c (root_instruction c) i = Some b2 ∧
    bridged c b2 allreduce_ins ∧
    instr c allreduce_ins = Some ar ∧ opcode ar = kAllReduce ∧
    operands ar = [b1] ∧ bridged c b1 add_ins ∧
    instr c add_ins = Some add ∧ opcode add = kAdd ∧
    metadata_op_name ar = kSkippableAllReduce.

(** [c'] is [c] with operand slots that held [p] now holding [new], in
    instructions below slot [N] only. *)
Definition rewired (p new : InstrId) (N : nat) (c c' : HloComputation) : Prop :=
  keeps c c' ∧
  length (instructions c') = length (instructions c) ∧
  ∀ n ins ins', instr c n = Some ins → instr c' n = Some ins' →
    ((N ≤ n)%nat → ins' = ins) ∧
    (∀ o, o ∈ operands ins' → o ∈ operands ins ∨ (o = new ∧ p ∈ operands ins)).

(** [top] is [bottom] seen through conversions and reshapes only. *)
Inductive fed_through (c : HloComputation) : InstrId → InstrId → Prop :=
  | fed_here n : fed_through c n n
  | fed_step n ins o m :
      instr c n = Some ins →
      opcode ins = kConvert ∨ opcode ins = kReshape →
      operands ins = [o] →
      fed_through c o m → fed_through c n m.

(** The matched collective [allreduce_ins] (which was [ar]) is gone;
    output position [i] of the root is fed, through conversions and
    reshapes only, by a collective with the shape of the Add and the
    channel, replica groups and flags of [ar], tagged as elidable, whose
    operand is, through conversions and reshapes only, the Add. *)
Definition replaced (c : HloComputation) (i : Z)
    (add_ins allreduce_ins : InstrId) (add ar : HloInstruction) : Prop :=
  instr c allreduce_ins = None ∧
  ∃ b2 new_allreduce new_ins op add',
    mutable_operand_Z c (root_instruction c) i = Some b2 ∧
    fed_through c b2 new_allreduce ∧
    instr c new_allreduce = Some new_ins ∧
    opcode new_ins = kAllReduce ∧ shape new_ins = shape add ∧
    channel_id new_ins = channel_id ar ∧
    replica_groups new_ins = replica_groups ar ∧
    constrain_layout new_ins = constrain_layout ar ∧
    use_global_device_ids new_ins = use_global_device_ids ar ∧
    metadata_op_name new_ins = kSkippableAllReduce ∧
    operands new_ins = [op] ∧ fed_through c op add_ins ∧
    instr c add_ins = Some add' ∧ opcode add' = kAdd.

(** The chain matcher as the specification words it. *)
Definition pass_through (op : HloOpcode) : Prop :=
  op = kConvert ∨ op = kReshape ∨ op = kCopy ∨ op = kBitcast ∨ op = kTranspose.

Definition exactly_one (lhs rhs : option InstrId) : option InstrId :=
  match lhs, rhs with
  | Some l, None => Some l
  | None, Some r => Some r
  | _, _ => None
  end.

Inductive find_collective (c : HloComputation)
  : InstrId → option InstrId → Prop :=
  | fc_collective start ins :
      instr c start = Some ins → opcode ins = kAllReduce →
      find_collective c start (Some start)
  | fc_pass_through start ins o r :
      instr c start = Some ins → pass_through (opcode ins) →
      operands ins !! 0%nat = Some o → find_collective c o r →
      find_collective c start r
  | fc_multiply start ins o0 o1 lhs rhs :
      instr c start = Some ins → opcode ins = kMultiply →
      operands ins !! 0%nat = Some o0 → operands ins !! 1%nat = Some o1 →
      find_collective c o0 lhs → find_collective c o1 rhs →
      find_collective c start (exactly_one lhs rhs)
  | fc_other start ins :
      instr c start = Some ins →
      opcode ins ≠ kAllReduce → ¬ pass_through (opcode ins) →
      opcode ins ≠ kMultiply →
      find_collective c start None.

(** The operand counts the chain matcher relies on. *)
Definition chain_arity (c : HloComputation) : Prop :=
  ∀ n ins, instr c n = Some ins →
    (pass_through (opcode ins) → (1 ≤ length (operands ins))%nat) ∧
    (opcode ins = kMultiply → (2 ≤ length (operands ins))%nat).

(** The graphs the passes are written for: every operand is present,
    there is no cycle, the root is present, the nodes the chain matcher
    walks through have the operands it reads, an Add has two operands
    and an array shape, and an all-reduce reduces one operand. *)
Definition well_formed (c : HloComputation) : Prop :=
  operands_closed c ∧ acyclic c ∧ chain_arity c ∧
  is_Some (instr c (root_instruction c)) ∧
  (∀ n ins, instr c n = Some ins → opcode ins = kAdd →
            (2 ≤ length (operands ins))%nat ∧ IsArray (shape ins) = true) ∧
  (∀ n ins, instr c n = Some ins → opcode ins = kAllReduce →
            length (operands ins) = 1%nat).

(** The requested index names an operand of the root. *)
Definition in_root_range (c : HloComputation) (i : Z) : Prop :=
  ∃ root, instr c (root_instruction c) = Some root ∧
          0 ≤ i < Z.of_nat (length (operands root)).

(** The consumer index of a pair can be served: it is -1, or it names a
    parameter of the consumer computation [a] that is present, has an
    array shape and has the element type of the Adds of the producer
    computation [b]. *)
Definition relocatable (b a : HloComputation) (in_index : Z) : Prop :=
  in_index = -1 ∨
  ∃ p param,
    vector_at (param_instructions a) in_index = Some p ∧
    instr a p = Some param ∧ IsArray (shape param) = true ∧
    ∀ n ins, instr b n = Some ins → opcode ins = kAdd →
             SameElementType (shape ins) (shape param) = true.

(** ** Executable checks and sample modules *)

Definition all_instructions (P : InstrId → HloInstruction → bool)
    (c : HloComputation) : bool :=
  forallb (λ n, match instr c n with Some ins => P n ins | None => true end)
          (seq 0 (length (instructions c))).

(** Every operand was created before its user: the slot number ranks
    the graph. *)
Definition topological (c : HloComputation) : bool :=
  all_instructions (λ n ins, forallb (λ o, o <? n)%nat (operands ins)) c.

Definition closedb (c : HloComputation) : bool :=
  all_instructions
    (λ _ ins, forallb (λ o, bool_decide (is_Some (instr c o))) (operands ins)) c.

Definition chain_arityb (c : HloComputation) : bool :=
  all_instructions
    (λ _ ins,
       match opcode ins with
       | kConvert | kReshape | kCopy | kBitcast | kTranspose =>
           (1 <=? length (operands ins))%nat
       | kMultiply => (2 <=? length (operands ins))%nat
       | _ => true
       end) c.

Definition well_formedb (c : HloComputation) : bool :=
  closedb c && topological c && chain_arityb c &&
  bool_decide (is_Some (instr c (root_instruction c))) &&
  all_instructions
    (λ _ ins,
       match opcode ins with
       | kAdd => (2 <=? length (operands ins))%nat && IsArray (shape ins)
       | kAllReduce => (length (operands ins) =? 1)%nat
       | _ => true
       end) c.

Definition plain (op : HloOpcode) (sh : Shape) (ops : list InstrId)
  : HloInstruction :=
  mkInstr op sh ops "" None [] false false.

Definition collective (sh : Shape) (ops : list InstrId) (channel : option Z)
  : HloInstruction :=
  mkInstr kAllReduce sh ops "" channel [[0; 1]] false true.

Definition f32_4 : Shape := ArrayShape F32 [4].
Definition bf16_4 : Shape := ArrayShape BF16 [4].

(** Scenario A: output 2 of the root is
    [Add(local_grad, AllReduce(local_grad_partial))]. *)
Definition scenario_A : HloModule :=
  mkModule (mkComp
    [Some (plain kParameter f32_4 []);
     Some (plain kParameter f32_4 []);
     Some (collective f32_4 [1%nat] (Some 7));
     Some (plain kAdd f32_4 [0%nat; 2%nat]);
     Some (plain kParameter f32_4 []);
     Some (plain kTuple (TupleShape [f32_4; f32_4; f32_4]) [4%nat; 4%nat; 3%nat])]
    5%nat [0%nat; 1%nat; 4%nat]).

(** Scenario D: a reduced-precision collective feeds a full-precision
    accumulation through a conversion. *)
Definition scenario_D : HloModule :=
  mkModule (mkComp
    [Some (plain kParameter f32_4 []);
     Some (plain kParameter bf16_4 []);
     Some (collective bf16_4 [1%nat] (Some 7));
     Some (plain kConvert f32_4 [2%nat]);
     Some (plain kAdd f32_4 [0%nat; 3%nat]);
     Some (plain kTuple (TupleShape [f32_4]) [4%nat])]
    5%nat [0%nat; 1%nat]).

(** A consumer module: parameter 1 is read twice by a multiply and once
    by the root; a collective on channel 12 is already there. *)
Definition consumer_unit : HloModule :=
  mkModule (mkComp
    [Some (plain kParameter f32_4 []);
     Some (plain kParameter f32_4 []);
     Some (collective f32_4 [0%nat] (Some 12));
     Some (plain kMultiply f32_4 [1%nat; 1%nat]);
     Some (plain kTuple (TupleShape [f32_4; f32_4; f32_4]) [2%nat; 3%nat; 1%nat])]
    4%nat [0%nat; 1%nat]).

(** A chain for the matcher: a multiply of a constant and a transposed,
    converted collective. *)
Definition chain_sample : HloComputation :=
  mkComp
    [Some (plain kParameter bf16_4 []);
     Some (collective bf16_4 [0%nat] None);
     Some (plain kConvert f32_4 [1%nat]);
     Some (plain kTranspose f32_4 [2%nat]);
     Some (plain kConstant f32_4 []);
     Some (plain kMultiply f32_4 [4%nat; 3%nat]);
     Some (plain kMultiply f32_4 [5%nat; 5%nat])]
    6%nat [0%nat].

(** The sample modules after the passes. *)
Definition scenario_A_after : HloModule :=
  Eval vm_compute in
    default scenario_A (snd <$> Run (mkContext true [2] []) scenario_A).

Definition scenario_D_after : HloModule :=
  Eval vm_compute in
    default scenario_D (snd <$> Run (mkContext true [0] []) scenario_D).

Definition group_after : HloModule * HloModule :=
  Eval vm_compute in
    default (scenario_A, consumer_unit)
      (snd <$> RunOnModuleGroup (mkContext true [2] [1])
                 (scenario_A, consumer_unit)).

(** A producer with two matching outputs, for two relocations in one run. *)
Definition producer_two : HloModule :=
  mkModule (mkComp
    [Some (plain kParameter f32_4 []);
     Some (plain kParameter f32_4 []);
     Some (collective f32_4 [1%nat] (Some 7));
     Some (plain kAdd f32_4 [0%nat; 2%nat]);
     Some (plain kParameter f32_4 []);
     Some (collective f32_4 [4%nat] (Some 8));
     Some (plain kAdd f32_4 [0%nat; 5%nat]);
     Some (plain kTuple (TupleShape [f32_4; f32_4]) [3%nat; 6%nat])]
    7%nat [0%nat; 1%nat; 4%nat]).

Definition two_relocations_after : HloModule * HloModule :=
  Eval vm_compute in
    default (producer_two, consumer_unit)
      (snd <$> RunOnModuleGroup (mkContext true [0; 1] [1; 0])
                 (producer_two, consumer_unit)).

(** The consumer computation after one relocation onto parameter 1. *)
Definition consumer_relocated : HloComputation :=
  Eval vm_compute in
    match relocate_into (collective f32_4 [1%nat] (Some 7)) f32_4 1 13
                        (entry_computation consumer_unit) with
    | Some (_, _, a') => a'
    | None => entry_computation consumer_unit
    end.


(** A tagged collective that is local to one process: it has no channel. *)
Definition local_tagged : HloModule :=
  mkModule (mkComp
    [Some (plain kParameter f32_4 []);
     Some (mkInstr kAllReduce f32_4 [0%nat] kSkippableAllReduce None
                   [[0; 1]] false false)]
    1%nat [0%nat]).

(** Three tagged collectives on channels 3, 7 and 12. *)
Definition three_tagged : HloModule :=
  mkModule (mkComp
    [Some (plain kParameter f32_4 []);
     Some (mkInstr kAllReduce f32_4 [0%nat] kSkippableAllReduce (Some 3)
                   [] false false);
     Some (mkInstr kAllReduce f32_4 [0%nat] kSkippableAllReduce (Some 7)
                   [] false false);
     Some (collective f32_4 [0%nat] (Some 9));
     Some (mkInstr kAllReduce f32_4 [0%nat] kSkippableAllReduce (Some 12)
                   [] false false);
     Some (plain kTuple (TupleShape [f32_4; f32_4; f32_4; f32_4])
                 [1%nat; 2%nat; 3%nat; 4%nat])]
    5%nat [0%nat]).

(** A slot that [GetGradSyncChannelIds] can read: if it holds a tagged
    all-reduce, that all-reduce has a channel identifier. *)
Definition needs_channel (slot : option HloInstruction) : Prop :=
  ∀ inst, slot = Some inst → opcode inst = kAllReduce →
          metadata_op_name inst = kSkippableAllReduce →
          is_Some (channel_id inst).

(** The collectives that [GetGradSyncChannelIds] reports, in the order
    of the instruction list. *)
Definition grad_sync_collectives (module : HloModule) : list HloInstruction :=
  filter (λ inst, opcode inst = kAllReduce ∧
                  metadata_op_name inst = kSkippableAllReduce)
         (omap id (instructions (entry_computation module))).

(** The text for a list of identifiers: each one in decimal, followed
    by a dot. *)
Definition channel_list_string (ids : list Z) : string :=
  fold_right (λ id s, pretty id +:+ "." +:+ s) "" ids.

(** A string without a dot. *)
Fixpoint dotless (s : string) : bool :=
  match s with
  | EmptyString => true
  | String a s' => negb (Ascii.eqb a "."%char) && dotless s'
  end.

(** A chain of operand edges through instructions that are present. *)
Inductive operand_chain (c : HloComputation) : list InstrId → Prop :=
  | chain_one n : is_Some (instr c n) → operand_chain c [n]
  | chain_cons n ins m rest :
      instr c n = Some ins → m ∈ operands ins →
      operand_chain c (m :: rest) → operand_chain c (n :: m :: rest).

(** The new collective as [relocate_into] builds it. *)
Definition relocated_collective (old : HloInstruction) (sh : Shape)
    (ops : list InstrId) (next : Z) : HloInstruction :=
  with_op_name (metadata_op_name old)
    (CreateAllReduce sh ops (replica_groups old) (constrain_layout old)
       (match channel_id old with Some _ => Some next | None => None end)
       (use_global_device_ids old)).


(** ** Proof automation *)

(** Split a monadic equation [x ← m; k = Some y] into its steps. *)
Ltac inv_bind H :=
  repeat match type of H with
  | mbind _ _ = Some _ =>
      let x := fresh "x" in let Hx := fresh "Hx" in
      apply bind_Some in H as (x & Hx & H)
  | (let '(_, _) := AddInstruction ?ins ?c in _) = Some _ =>
      unfold AddInstruction in H; cbv iota beta in H
  | (let '(_, _) := ?p in _) = Some _ => destruct p
  | (if negb ?b then _ else _) = Some _ =>
      let E := fresh "E" in destruct b eqn:E; simpl in H
  | (if ?b then _ else _) = Some _ =>
      let E := fresh "E" in destruct b eqn:E
  | None = Some _ => discriminate H
  end.

(** One step of a pass: bind the value just computed and read the
    fields of the instruction at hand. *)
Ltac run_step :=
  cbn [mbind option_bind negb shape operands opcode replica_groups
       constrain_layout channel_id use_global_device_ids metadata_op_name
       with_op_name with_operands].

(** * Properties *)

(** ** Shapes *)

(** Induction over shapes that reaches into the tuple's components. *)
Lemma Shape_nested_ind (P : Shape → Prop) :
  (∀ ty dims, P (ArrayShape ty dims)) →
  (∀ l, Forall P l → P (TupleShape l)) →
  ∀ s, P s.
Proof.
  intros Harr Htup.
  fix IH 1. intros [ty dims | l].
  - apply Harr.
  - apply Htup. induction l as [| s l IHl]; constructor; [apply IH | exact IHl].
Qed.

Lemma Compatible_eq (a b : Shape) : Compatible a b = true ↔ a = b.
Proof.
  revert b. induction a as [ty dims | l IH] using Shape_nested_ind;
    intros [ty' dims' | l']; simpl; try (split; [discriminate | congruence]).
  - rewrite andb_true_iff, !bool_decide_eq_true. split; [intros [-> ->] | intros [= -> ->]]; done.
  - revert l'. induction IH as [| a l Ha _ IHl]; intros [| b l'];
      try (split; [discriminate | congruence]); [done |].
    rewrite andb_true_iff, Ha.
    specialize (IHl l'). split.
    + intros [-> Hl]. apply IHl in Hl. congruence.
    + intros [= -> ->]. split; [done |]. by apply IHl.
Qed.

Lemma Compatible_refl (a : Shape) : Compatible a a = true.
Proof. by apply Compatible_eq. Qed.

Lemma Compatible_SameElementType (a b : Shape) :
  Compatible a b = true → SameElementType a b = true.
Proof. intros ->%Compatible_eq. by apply bool_decide_eq_true. Qed.

(** ** The arena *)

Lemma instr_Some c n ins :
  instr c n = Some ins ↔ instructions c !! n = Some (Some ins).
Proof.
  unfold instr. destruct (instructions c !! n) as [[?|]|]; naive_solver.
Qed.

Lemma instr_lt c n ins :
  instr c n = Some ins → (n < length (instructions c))%nat.
Proof. rewrite instr_Some. apply lookup_lt_Some. Qed.

Lemma instr_ge c n :
  (length (instructions c) ≤ n)%nat → instr c n = None.
Proof. intros H. unfold instr. by rewrite lookup_ge_None_2. Qed.

Lemma instr_push_instruction ins c n :
  instr (push_instruction ins c) n =
  if decide (n = length (instructions c)) then Some ins else instr c n.
Proof.
  unfold instr, push_instruction; simpl. case_decide as Hn.
  - subst. by rewrite lookup_app_r, Nat.sub_diag by lia.
  - destruct (decide (n < length (instructions c))%nat).
    + by rewrite lookup_app_l.
    + rewrite !lookup_ge_None_2; [done | lia |].
      rewrite length_app; simpl; lia.
Qed.

Lemma length_push_instruction ins c :
  length (instructions (push_instruction ins c)) = S (length (instructions c)).
Proof. unfold push_instruction; simpl. rewrite length_app; simpl; lia. Qed.

Lemma instr_update_instr n f c m :
  instr (update_instr n f c) m =
  if decide (m = n) then f <$> instr c n else instr c m.
Proof.
  unfold update_instr. destruct (instr c n) as [ins|] eqn:Hn.
  - unfold instr at 1; simpl. case_decide as Hm.
    + subst. rewrite list_lookup_insert_eq; [done | by eapply instr_lt].
    + by rewrite list_lookup_insert_ne.
  - case_decide; by subst.
Qed.

Lemma length_update_instr n f c :
  length (instructions (update_instr n f c)) = length (instructions c).
Proof.
  unfold update_instr. destruct (instr c n); [| done].
  simpl. by rewrite length_insert.
Qed.

(** Look an instruction up through the instructions added and updated
    on top of a computation. *)
Ltac lookup_through :=
  repeat first
    [ rewrite instr_push_instruction
    | rewrite instr_update_instr
    | rewrite length_push_instruction
    | rewrite length_update_instr ];
  repeat (case_decide; try lia).

Lemma root_update_instr n f c :
  root_instruction (update_instr n f c) = root_instruction c.
Proof. unfold update_instr. by destruct (instr c n). Qed.

Lemma params_update_instr n f c :
  param_instructions (update_instr n f c) = param_instructions c.
Proof. unfold update_instr. by destruct (instr c n). Qed.

Lemma instr_ReplaceAllUsesWith old new c n :
  instr (ReplaceAllUsesWith old new c) n = replace_uses old new <$> instr c n.
Proof.
  unfold instr, ReplaceAllUsesWith; simpl. rewrite list_lookup_fmap.
  by destruct (instructions c !! n) as [[?|]|].
Qed.

Lemma users_lt c n m : m ∈ users c n → (m < length (instructions c))%nat.
Proof.
  unfold users. rewrite list_elem_of_filter, elem_of_seq. lia.
Qed.

Lemma users_spec c n m :
  m ∈ users c n ↔ ∃ ins, instr c m = Some ins ∧ n ∈ operands ins.
Proof.
  unfold users. rewrite list_elem_of_filter, elem_of_seq. unfold uses. split.
  - intros [Hu _]. destruct (instr c m) as [ins|]; [| done].
    exists ins. split; [done |]. by apply bool_decide_unpack in Hu.
  - intros (ins & Hm & Ho). rewrite Hm. split; [by apply bool_decide_pack |].
    apply instr_lt in Hm. lia.
Qed.

(** ** Growing and keeping *)

Lemma grows_refl c : grows c c.
Proof. repeat split. exists []. by rewrite app_nil_r. Qed.

Lemma grows_trans c1 c2 c3 : grows c1 c2 → grows c2 c3 → grows c1 c3.
Proof.
  intros (Hr1 & Hp1 & new1 & H1) (Hr2 & Hp2 & new2 & H2).
  repeat split; [congruence | congruence |].
  exists (new1 ++ new2). by rewrite H2, H1, app_assoc.
Qed.

Lemma grows_instr c c' n :
  grows c c' → (n < length (instructions c))%nat → instr c' n = instr c n.
Proof.
  intros (_ & _ & new & H) Hn. unfold instr. by rewrite H, lookup_app_l.
Qed.

Lemma grows_instr_Some c c' n ins :
  grows c c' → instr c n = Some ins → instr c' n = Some ins.
Proof.
  intros Hg Hn. rewrite (grows_instr c c') by eauto using instr_lt. done.
Qed.

Lemma grows_length c c' :
  grows c c' → (length (instructions c) ≤ length (instructions c'))%nat.
Proof. intros (_ & _ & new & H). rewrite H, length_app. lia. Qed.

Lemma grows_push_instruction ins c : grows c (push_instruction ins c).
Proof. repeat split. by exists [Some ins]. Qed.

Lemma same_signature_refl ins : same_signature ins ins.
Proof. done. Qed.

Lemma same_signature_trans i1 i2 i3 :
  same_signature i1 i2 → same_signature i2 i3 → same_signature i1 i3.
Proof.
  intros (? & ? & ? & ? & ? & ? & ?) (? & ? & ? & ? & ? & ? & ?).
  repeat split; congruence.
Qed.

Lemma keeps_refl c : keeps c c.
Proof.
  repeat split; [lia | |].
  - intros n ins H. by exists ins.
  - intros n ins _ H. by exists ins.
Qed.

Lemma keeps_trans c1 c2 c3 : keeps c1 c2 → keeps c2 c3 → keeps c1 c3.
Proof.
  intros (Hr1 & Hp1 & Hl1 & H1 & B1) (Hr2 & Hp2 & Hl2 & H2 & B2).
  repeat split; [congruence | congruence | lia | |].
  - intros n ins Hn. destruct (H1 _ _ Hn) as (ins2 & Hn2 & Hs2).
    destruct (H2 _ _ Hn2) as (ins3 & Hn3 & Hs3).
    exists ins3. split; [done |]. by eapply same_signature_trans.
  - intros n ins3 Hlt Hn3. destruct (B2 n ins3) as (ins2 & Hn2 & Hs2); [lia | done |].
    destruct (B1 n ins2) as (ins1 & Hn1 & Hs1); [done.. |].
    exists ins1. split; [done |]. by eapply same_signature_trans.
Qed.

Lemma grows_keeps c c' : grows c c' → keeps c c'.
Proof.
  intros Hg. pose proof (grows_length _ _ Hg).
  assert (∀ n, (n < length (instructions c))%nat → instr c' n = instr c n)
    as Hi by (intros n Hn; by apply grows_instr).
  destruct Hg as (Hr & Hp & new & Hn). repeat split; [done.. | |].
  - intros n ins Hn'. exists ins. split; [| done].
    rewrite Hi; [done | by eapply instr_lt].
  - intros n ins' Hlt Hn'. exists ins'. split; [| done]. by rewrite <- Hi.
Qed.

Lemma keeps_update_instr n f c :
  (∀ ins, same_signature ins (f ins)) → keeps c (update_instr n f c).
Proof.
  intros Hf. repeat split.
  - apply root_update_instr.
  - apply params_update_instr.
  - by rewrite length_update_instr.
  - intros m ins Hm. rewrite instr_update_instr. case_decide as E.
    + subst. rewrite Hm. simpl. eauto.
    + eauto using same_signature_refl.
  - intros m ins' _. rewrite instr_update_instr. case_decide as E.
    + subst. destruct (instr c n) as [ins|]; [| done].
      intros [= <-]. eauto.
    + eauto using same_signature_refl.
Qed.

Lemma keeps_ReplaceOperandWith n k new c : keeps c (ReplaceOperandWith n k new c).
Proof.
  apply keeps_update_instr. intros ins. repeat split; simpl.
  by rewrite length_insert.
Qed.

Lemma keeps_set_metadata_op_name n name c :
  keeps c (set_metadata_op_name n name c).
Proof. apply keeps_update_instr. by intros ins. Qed.

Lemma keeps_ReplaceAllUsesWith old new c : keeps c (ReplaceAllUsesWith old new c).
Proof.
  repeat split; simpl; [by rewrite length_fmap | |].
  - intros n ins Hn. rewrite instr_ReplaceAllUsesWith, Hn. simpl.
    eexists; split; [done |]. repeat split; simpl. by rewrite length_fmap.
  - intros n ins' _. rewrite instr_ReplaceAllUsesWith.
    destruct (instr c n) as [ins|]; [| done]. intros [= <-].
    eexists; split; [done |]. repeat split; simpl. by rewrite length_fmap.
Qed.

(** The bridge only adds instructions. *)
Lemma MaybeConvert_grows src dst c r c' :
  MaybeConvert src dst c = Some (r, c') → grows c c'.
Proof.
  unfold MaybeConvert. intros H. inv_bind H.
  - injection H as <- <-. apply grows_refl.
  - unfold AddInstruction in H. injection H as <- <-.
    apply grows_push_instruction.
Qed.

Lemma MaybeReshapeConvert_grows src dst c r c' :
  MaybeReshapeConvert src dst c = Some (r, c') → grows c c'.
Proof.
  unfold MaybeReshapeConvert. intros H. inv_bind H.
  - injection H as <- <-. apply grows_refl.
  - unfold AddInstruction in H. injection H as <- <-.
    eapply grows_trans; [by eapply MaybeConvert_grows |].
    apply grows_push_instruction.
Qed.

Lemma bridge_each_grows src shapes c rs c' :
  bridge_each src shapes c = Some (rs, c') → grows c c'.
Proof.
  revert shapes c rs c'. induction src as [| s src IH]; intros [| sh shapes] c rs c' H;
    simpl in H; try discriminate; try (injection H as <- <-; apply grows_refl).
  inv_bind H. injection H as <- <-.
  eapply grows_trans; [by eapply MaybeReshapeConvert_grows | by eapply IH].
Qed.

Lemma MaybeReshapeConvertTuple_grows src dst c rs c' :
  MaybeReshapeConvertTuple src dst c = Some (rs, c') → grows c c'.
Proof.
  unfold MaybeReshapeConvertTuple. intros H. inv_bind H.
  - by eapply bridge_each_grows.
  - injection H as <- <-. by eapply MaybeReshapeConvert_grows.
Qed.

(** ** The passes keep every instruction's signature *)

Lemma MaybeReshapeConvert_keeps src dst c r c' :
  MaybeReshapeConvert src dst c = Some (r, c') → keeps c c'.
Proof. intros H. by eapply grows_keeps, MaybeReshapeConvert_grows. Qed.

Lemma detach_loop_keeps ar u slots c c' :
  detach_loop ar u slots c = Some c' → keeps c c'.
Proof.
  revert c. induction slots as [| i rest IH]; intros c H; simpl in H.
  - injection H as <-. apply keeps_refl.
  - inv_bind H; [| by eapply IH].
    eapply keeps_trans; [by eapply MaybeReshapeConvert_keeps |].
    eapply keeps_trans; [apply keeps_ReplaceOperandWith | by eapply IH].
Qed.

Lemma detach_keeps ar u c c' : detach ar u c = Some c' → keeps c c'.
Proof.
  unfold detach. intros H. inv_bind H. by eapply detach_loop_keeps.
Qed.

Lemma reinsert_keeps i add_ins ar c rm c' rm' :
  reinsert i add_ins ar (c, rm) = Some (c', rm') → keeps c c'.
Proof.
  unfold reinsert. intros H. inv_bind H.
  - injection H as <- <-.
    eapply keeps_trans; [by eapply MaybeReshapeConvert_keeps |].
    eapply keeps_trans; [apply keeps_ReplaceOperandWith |].
    eapply keeps_trans; [by eapply MaybeReshapeConvert_keeps |].
    eapply keeps_trans; [apply keeps_ReplaceOperandWith |].
    apply keeps_set_metadata_op_name.
  - injection H as <- <-.
    eapply keeps_trans; [by eapply MaybeReshapeConvert_keeps |].
    eapply keeps_trans; [apply keeps_ReplaceOperandWith |].
    eapply keeps_trans; [by eapply MaybeReshapeConvert_keeps |].
    eapply keeps_trans; [apply keeps_ReplaceOperandWith |].
    eapply keeps_trans; [apply keeps_set_metadata_op_name |].
    eapply keeps_trans;
      [by eapply grows_keeps, MaybeReshapeConvertTuple_grows |].
    eapply keeps_trans; [apply grows_keeps, grows_push_instruction |].
    eapply keeps_trans; [apply keeps_set_metadata_op_name |].
    eapply keeps_trans; [by eapply MaybeReshapeConvert_keeps |].
    apply keeps_ReplaceAllUsesWith.
Qed.

Lemma match_index_root_live c i m :
  match_index c i = Some m → is_Some (instr c (root_instruction c)).
Proof.
  unfold match_index, mutable_operand_Z. intros H.
  apply bind_Some in H as (add_ins & H & _).
  apply bind_Some in H as (ins & H & _). eauto.
Qed.

Lemma rewrite_index_keeps i st st' :
  rewrite_index i st = Some st' → keeps st.1 st'.1.
Proof.
  unfold rewrite_index. intros H. apply bind_Some in H as (m & Hm & H).
  destruct m as [[[add_ins ar] u]|].
  - apply bind_Some in H as (c1 & Hc1 & H). destruct st' as [c' rm'].
    eapply keeps_trans; [by eapply detach_keeps | by eapply reinsert_keeps].
  - injection H as <-. apply keeps_refl.
Qed.

Lemma rewrite_loop_keeps indices st st' :
  rewrite_loop indices st = Some st' → keeps st.1 st'.1.
Proof.
  revert st. induction indices as [| i rest IH]; intros st H; simpl in H.
  - injection H as <-. apply keeps_refl.
  - apply bind_Some in H as (st1 & H1 & H).
    eapply keeps_trans; [by eapply rewrite_index_keeps | by eapply IH].
Qed.

Lemma rewrite_loop_root_live i rest st st' :
  rewrite_loop (i :: rest) st = Some st' →
  is_Some (instr st.1 (root_instruction st.1)).
Proof.
  simpl. intros H. apply bind_Some in H as (st1 & H & _).
  unfold rewrite_index in H. apply bind_Some in H as (m & H & _).
  by eapply match_index_root_live.
Qed.

Lemma keeps_root_interface c c' :
  keeps c c' → is_Some (instr c (root_instruction c)) →
  root_instruction c' = root_instruction c ∧
  root_interface c' = root_interface c.
Proof.
  intros (Hr & _ & _ & H & _) [ins Hins]. split; [done |].
  unfold root_interface. rewrite Hr, Hins.
  destruct (H _ _ Hins) as (ins' & -> & _ & Hs & Hl & _). simpl. congruence.
Qed.

Lemma root_RemoveInstruction n c :
  root_instruction (RemoveInstruction n c) = root_instruction c.
Proof.
  unfold RemoveInstruction. case_decide; [done |]. by destruct (users c n).
Qed.

Lemma instr_RemoveInstruction n c m :
  instr (RemoveInstruction n c) m = instr c m ∨
  (m = n ∧ n ≠ root_instruction c ∧ users c n = [] ∧
   instr (RemoveInstruction n c) m = None).
Proof.
  unfold RemoveInstruction. case_decide as Hr; [by left |].
  destruct (users c n) eqn:Hu; [| by left].
  destruct (decide (m = n)) as [-> | Hne].
  - destruct (decide (n < length (instructions c))%nat).
    + right. repeat split; try done. unfold instr; simpl.
      by rewrite list_lookup_insert_eq.
    + left. unfold instr; simpl. by rewrite list_insert_ge by lia.
  - left. unfold instr; simpl. by rewrite list_lookup_insert_ne.
Qed.

Lemma remove_all_root rm c :
  root_instruction (remove_all rm c) = root_instruction c ∧
  root_interface (remove_all rm c) = root_interface c.
Proof.
  unfold remove_all. revert c. induction rm as [| n rm IH]; intros c; [done |].
  simpl. destruct (IH (RemoveInstruction n c)) as [-> ->].
  rewrite root_RemoveInstruction. split; [done |].
  unfold root_interface. rewrite root_RemoveInstruction.
  destruct (instr_RemoveInstruction n c (root_instruction c))
    as [-> | (? & ? & _)]; done.
Qed.

Lemma rewire_operands_keeps p new u slots c c' :
  rewire_operands p new u slots c = Some c' → keeps c c'.
Proof.
  revert c. induction slots as [| i rest IH]; intros c H; simpl in H.
  - injection H as <-. apply keeps_refl.
  - inv_bind H; [| by eapply IH].
    eapply keeps_trans; [by eapply MaybeReshapeConvert_keeps |].
    eapply keeps_trans; [apply keeps_ReplaceOperandWith | by eapply IH].
Qed.

Lemma rewire_users_keeps p new us c c' :
  rewire_users p new us c = Some c' → keeps c c'.
Proof.
  revert c. induction us as [| u rest IH]; intros c H; simpl in H.
  - injection H as <-. apply keeps_refl.
  - inv_bind H.
    eapply keeps_trans; [by eapply rewire_operands_keeps | by eapply IH].
Qed.

Lemma relocate_into_keeps old add_shape in_index next a new next' a' :
  relocate_into old add_shape in_index next a = Some (new, next', a') →
  keeps a a'.
Proof.
  unfold relocate_into. intros H. inv_bind H.
  destruct (channel_id old); inv_bind H; injection H as <- <- <-.
  all: eapply keeps_trans;
         [by eapply grows_keeps, MaybeReshapeConvertTuple_grows |].
  all: eapply keeps_trans; [apply grows_keeps, grows_push_instruction |].
  all: eapply keeps_trans; [apply keeps_set_metadata_op_name |].
  all: by eapply rewire_users_keeps.
Qed.

Lemma delay_index_keeps out_index in_index st st' :
  delay_index out_index in_index st = Some st' →
  keeps (backward_entry st) (backward_entry st') ∧
  keeps (applygrad_entry st) (applygrad_entry st').
Proof.
  unfold delay_index. intros H. apply bind_Some in H as (m & Hm & H).
  destruct m as [[[add_ins ar] u]|].
  - apply bind_Some in H as (c1 & Hc1 & H). case_decide.
    + inv_bind H. injection H as <-. simpl. split; [| apply keeps_refl].
      eapply keeps_trans; [by eapply detach_keeps | by eapply reinsert_keeps].
    + unfold relocate in H. simpl in H. inv_bind H. injection H as <-. simpl.
      split; [| by eapply relocate_into_keeps].
      eapply keeps_trans; [by eapply detach_keeps |].
      apply keeps_set_metadata_op_name.
  - injection H as <-. split; apply keeps_refl.
Qed.

Lemma delay_loop_keeps pairs st st' :
  delay_loop pairs st = Some st' →
  keeps (backward_entry st) (backward_entry st') ∧
  keeps (applygrad_entry st) (applygrad_entry st').
Proof.
  revert st. induction pairs as [| [o i] rest IH]; intros st H; simpl in H.
  - injection H as <-. split; apply keeps_refl.
  - apply bind_Some in H as (st1 & H1 & H).
    destruct (delay_index_keeps _ _ _ _ H1), (IH _ H).
    split; by eapply keeps_trans.
Qed.

Lemma delay_loop_root_live p rest st st' :
  delay_loop (p :: rest) st = Some st' →
  is_Some (instr (backward_entry st) (root_instruction (backward_entry st))).
Proof.
  simpl. destruct p as [o i]. intros H. apply bind_Some in H as (st1 & H & _).
  unfold delay_index in H. apply bind_Some in H as (m & H & _).
  by eapply match_index_root_live.
Qed.

(** ** C7: the root keeps its arity and its shape *)

(** C7.  Whatever the module and the index list, when [GradAccRewrite::Run]
    returns, the entry root is the same instruction as before, with the
    same declared shape and the same number of operands; the same holds
    for the root of the producer module after
    [GradAccCommDelay::RunOnModuleGroup], and for the root of the consumer
    module when it has one. *)
Theorem root_arity_and_shape_preserved :
  (∀ ctx module changed module',
     Run ctx module = Some (changed, module') →
     root_instruction (entry_computation module')
       = root_instruction (entry_computation module) ∧
     root_interface (entry_computation module')
       = root_interface (entry_computation module)) ∧
  (∀ ctx backward applygrad changed backward' applygrad',
     RunOnModuleGroup ctx (backward, applygrad)
       = Some (changed, (backward', applygrad')) →
     root_instruction (entry_computation backward')
       = root_instruction (entry_computation backward) ∧
     root_interface (entry_computation backward')
       = root_interface (entry_computation backward)) ∧
  (∀ ctx backward applygrad changed backward' applygrad',
     is_Some (instr (entry_computation applygrad)
                    (root_instruction (entry_computation applygrad))) →
     RunOnModuleGroup ctx (backward, applygrad)
       = Some (changed, (backward', applygrad')) →
     root_instruction (entry_computation applygrad')
       = root_instruction (entry_computation applygrad) ∧
     root_interface (entry_computation applygrad')
       = root_interface (entry_computation applygrad)).
Proof.
  split; [| split].
  - intros ctx module changed module'. unfold Run.
    destruct (rewrite_for_grad_acc ctx); simpl; [| by intros [= <- <-]].
    intros H. apply bind_Some in H as ([entry rm] & Hloop & H).
    injection H as <- <-. simpl.
    destruct (remove_all_root rm entry) as [-> ->].
    destruct (rewrite_indices ctx) as [| i rest] eqn:Hidx.
    + simpl in Hloop. by injection Hloop as <- <-.
    + apply (keeps_root_interface (entry_computation module) entry).
      * by apply rewrite_loop_keeps in Hloop.
      * by apply rewrite_loop_root_live in Hloop.
  - intros ctx backward applygrad changed backward' applygrad'.
    unfold RunOnModuleGroup.
    destruct (rewrite_for_grad_acc ctx); simpl; [| by intros [= <- <- <-]].
    case_decide as Hlen; [done |].
    intros H. apply bind_Some in H as (st & Hloop & H).
    injection H as <- <- <-. simpl.
    destruct (remove_all_root (to_remove st) (backward_entry st)) as [-> ->].
    destruct (zip _ _) as [| p rest] eqn:Hidx.
    + simpl in Hloop. by injection Hloop as <-.
    + pose proof (delay_loop_root_live _ _ _ _ Hloop) as Hlive.
      apply delay_loop_keeps in Hloop as [Hk _].
      by apply (keeps_root_interface _ _ Hk).
  - intros ctx backward applygrad changed backward' applygrad' Hlive.
    unfold RunOnModuleGroup.
    destruct (rewrite_for_grad_acc ctx); simpl; [| by intros [= <- <- <-]].
    case_decide as Hlen; [done |].
    intros H. apply bind_Some in H as (st & Hloop & H).
    injection H as <- <- <-. simpl.
    apply delay_loop_keeps in Hloop as [_ Hk].
    by apply (keeps_root_interface _ _ Hk).
Qed.

(** ** C2: the chain matcher *)

Lemma pass_through_cases op :
  pass_through op ∨ op = kAllReduce ∨ op = kMultiply ∨
  (op ≠ kAllReduce ∧ ¬ pass_through op ∧ op ≠ kMultiply).
Proof. unfold pass_through. destruct op; naive_solver. Qed.

Lemma GetAllReduce_fuel_sound fuel c src r :
  GetAllReduce_fuel fuel c src = Some r → find_collective c src r.
Proof.
  revert src r. induction fuel as [| fuel IH]; intros src r H; [done |].
  simpl in H. apply bind_Some in H as (ins & Hins & H).
  destruct (opcode ins) eqn:Hop.
  all: try (injection H as <-; eapply fc_other; eauto; rewrite Hop;
            unfold pass_through; naive_solver).
  - injection H as <-. by eapply fc_collective.
  - apply bind_Some in H as (o & Ho & H).
    eapply fc_pass_through; eauto. rewrite Hop. unfold pass_through; eauto.
  - apply bind_Some in H as (o & Ho & H).
    eapply fc_pass_through; eauto. rewrite Hop. unfold pass_through; eauto.
  - apply bind_Some in H as (o & Ho & H).
    eapply fc_pass_through; eauto. rewrite Hop. unfold pass_through; eauto 6.
  - apply bind_Some in H as (o0 & Ho0 & H).
    apply bind_Some in H as (lhs & Hl & H).
    apply bind_Some in H as (o1 & Ho1 & H).
    apply bind_Some in H as (rhs & Hr & H).
    assert (r = exactly_one lhs rhs) as ->.
    { destruct lhs, rhs; simpl; congruence. }
    eapply fc_multiply; eauto.
  - apply bind_Some in H as (o & Ho & H).
    eapply fc_pass_through; eauto. rewrite Hop. unfold pass_through; eauto.
  - apply bind_Some in H as (o & Ho & H).
    eapply fc_pass_through; eauto. rewrite Hop. unfold pass_through; eauto 6.
Qed.

Lemma GetAllReduce_fuel_pass_through fuel c src ins o :
  instr c src = Some ins → pass_through (opcode ins) →
  operands ins !! 0%nat = Some o →
  GetAllReduce_fuel (S fuel) c src = GetAllReduce_fuel fuel c o.
Proof.
  intros Hins Hp Ho. simpl. rewrite Hins. simpl.
  destruct Hp as [Hp | [Hp | [Hp | [Hp | Hp]]]]; rewrite Hp, Ho; done.
Qed.

Lemma GetAllReduce_fuel_complete c src r :
  find_collective c src r →
  ∃ fuel, ∀ fuel', (fuel ≤ fuel')%nat → GetAllReduce_fuel fuel' c src = Some r.
Proof.
  induction 1 as [start ins Hins Hop | start ins o r Hins Hp Ho _ [f IH]
                 | start ins o0 o1 lhs rhs Hins Hop Ho0 Ho1 _ [f0 IH0] _ [f1 IH1]
                 | start ins Hins Hn1 Hn2 Hn3].
  - exists 1%nat. intros [| fuel'] Hle; [lia |]. simpl. by rewrite Hins; simpl; rewrite Hop.
  - exists (S f). intros [| fuel'] Hle; [lia |].
    erewrite GetAllReduce_fuel_pass_through by eauto. apply IH. lia.
  - exists (S (f0 `max` f1)). intros [| fuel'] Hle; [lia |].
    simpl. rewrite Hins; simpl. rewrite Hop, Ho0; simpl.
    rewrite IH0 by lia. simpl. rewrite Ho1; simpl. rewrite IH1 by lia. simpl.
    by destruct lhs, rhs.
  - exists 1%nat. intros [| fuel'] Hle; [lia |]. simpl. rewrite Hins; simpl.
    unfold pass_through in Hn2. destruct (opcode ins); naive_solver.
Qed.

Lemma find_collective_functional c src r r' :
  find_collective c src r → find_collective c src r' → r = r'.
Proof.
  intros [f H]%GetAllReduce_fuel_complete [f' H']%GetAllReduce_fuel_complete.
  specialize (H (f `max` f')%nat). specialize (H' (f `max` f')%nat).
  rewrite H in H' by lia. injection H' as ->; [done | lia].
Qed.

Lemma GetAllReduce_fuel_opcode fuel c src ar :
  GetAllReduce_fuel fuel c src = Some (Some ar) →
  ∃ ins, instr c ar = Some ins ∧ opcode ins = kAllReduce.
Proof.
  intros H%GetAllReduce_fuel_sound. remember (Some ar) as r eqn:Hr.
  induction H as [start ins Hins Hop | | start ins o0 o1 lhs rhs ? ? ? ? ? IH0 ? IH1 |];
    try done.
  - injection Hr as ->. eauto.
  - eauto.
  - destruct lhs, rhs; simpl in Hr; try done; eauto.
Qed.

Lemma GetAllReduce_fuel_None fuel c src :
  operands_closed c → chain_arity c → is_Some (instr c src) →
  GetAllReduce_fuel fuel c src = None →
  ∃ path, operand_chain c (src :: path) ∧ length path = fuel.
Proof.
  intros Hclosed Harity. revert src.
  induction fuel as [| fuel IH]; intros src [ins Hins] H.
  { exists []. split; [constructor; eauto | done]. }
  assert (∀ o, o ∈ operands ins → GetAllReduce_fuel fuel c o = None →
               ∃ path, operand_chain c (src :: path) ∧ length path = S fuel)
    as Hstep.
  { intros o Ho Hnone. destruct (IH o) as (path & Hpath & Hlen); eauto.
    exists (o :: path). split; [by econstructor | simpl; lia]. }
  destruct (Harity _ _ Hins) as [Hone Htwo].
  simpl in H. rewrite Hins in H. simpl in H.
  destruct (pass_through_cases (opcode ins)) as [Hp | [Hop | [Hop | (H1 & H2 & H3)]]].
  - destruct (lookup_lt_is_Some_2 (operands ins) 0%nat) as [o Ho]; [by apply Hone |].
    apply (Hstep o); [by eapply list_elem_of_lookup_2 |].
    destruct Hp as [Hp | [Hp | [Hp | [Hp | Hp]]]]; rewrite Hp, Ho in H; exact H.
  - by rewrite Hop in H.
  - rewrite Hop in H.
    destruct (lookup_lt_is_Some_2 (operands ins) 0%nat) as [o0 Ho0];
      [specialize (Htwo Hop); lia |].
    destruct (lookup_lt_is_Some_2 (operands ins) 1%nat) as [o1 Ho1];
      [specialize (Htwo Hop); lia |].
    rewrite Ho0 in H. simpl in H.
    destruct (GetAllReduce_fuel fuel c o0) as [lhs|] eqn:Hl.
    + simpl in H. rewrite Ho1 in H. simpl in H.
      destruct (GetAllReduce_fuel fuel c o1) as [rhs|] eqn:Hr.
      * by destruct lhs, rhs.
      * apply (Hstep o1); [by eapply list_elem_of_lookup_2 | done].
    + apply (Hstep o0); [by eapply list_elem_of_lookup_2 | done].
  - unfold pass_through in H2. destruct (opcode ins); naive_solver.
Qed.

Lemma operand_chain_ranked c rank path :
  (∀ n ins o, instr c n = Some ins → o ∈ operands ins → (rank o < rank n)%nat) →
  operand_chain c path →
  NoDup path ∧ (∀ n, n ∈ path → (n < length (instructions c))%nat) ∧
  (∀ n m, path !! 0%nat = Some n → m ∈ path → (rank m ≤ rank n)%nat).
Proof.
  intros Hrank. induction 1 as [n [ins Hn] | n ins m rest Hn Hm _ (IH1 & IH2 & IH3)].
  - repeat split.
    + apply NoDup_singleton.
    + intros ? ->%list_elem_of_singleton. by eapply instr_lt.
    + intros ? ? [= ->] ->%list_elem_of_singleton. done.
  - pose proof (Hrank _ _ _ Hn Hm) as Hlt. repeat split.
    + apply NoDup_cons. split; [| done]. intros Hin.
      specialize (IH3 m n eq_refl Hin). lia.
    + intros k [-> | Hk]%elem_of_cons; [by eapply instr_lt | by apply IH2].
    + intros k k' [= ->] [-> | Hk]%elem_of_cons; [done |].
      specialize (IH3 m k' eq_refl Hk). lia.
Qed.

Lemma GetAllReduce_total c src :
  acyclic c → operands_closed c → chain_arity c → is_Some (instr c src) →
  is_Some (GetAllReduce c src).
Proof.
  intros [rank Hrank] Hclosed Harity Hlive. unfold GetAllReduce.
  destruct (GetAllReduce_fuel _ c src) as [r|] eqn:H; [eauto |].
  apply GetAllReduce_fuel_None in H as (path & Hchain & Hlen); try done.
  destruct (operand_chain_ranked _ _ _ Hrank Hchain) as (Hnodup & Hlt & _).
  assert (src :: path ⊆+ seq 0 (length (instructions c))) as Hsub.
  { apply NoDup_submseteq; [done |]. intros n Hn. apply elem_of_seq.
    specialize (Hlt n Hn). lia. }
  apply submseteq_length in Hsub. rewrite length_seq in Hsub. simpl in Hsub. lia.
Qed.

Lemma all_instructions_spec P c n ins :
  all_instructions P c = true → instr c n = Some ins → P n ins = true.
Proof.
  unfold all_instructions. rewrite forallb_forall. intros H Hn.
  specialize (H n). rewrite Hn in H. apply H.
  apply in_seq. apply instr_lt in Hn. lia.
Qed.

Lemma topological_acyclic c : topological c = true → acyclic c.
Proof.
  intros H. exists id. intros n ins o Hn Ho.
  pose proof (all_instructions_spec _ _ _ _ H Hn) as Hall. simpl in Hall.
  rewrite forallb_forall in Hall. apply list_elem_of_In, Hall in Ho.
  by apply Nat.ltb_lt in Ho.
Qed.

Lemma closedb_operands_closed c : closedb c = true → operands_closed c.
Proof.
  intros H n ins o Hn Ho.
  pose proof (all_instructions_spec _ _ _ _ H Hn) as Hall. simpl in Hall.
  rewrite forallb_forall in Hall. apply list_elem_of_In, Hall in Ho.
  by apply bool_decide_eq_true in Ho.
Qed.

Lemma chain_arityb_chain_arity c : chain_arityb c = true → chain_arity c.
Proof.
  intros H n ins Hn.
  pose proof (all_instructions_spec _ _ _ _ H Hn) as Hall. cbv beta in Hall.
  unfold pass_through. split.
  - intros [Hp | [Hp | [Hp | [Hp | Hp]]]]; rewrite Hp in Hall;
      by apply Nat.leb_le in Hall.
  - intros Hp. rewrite Hp in Hall. by apply Nat.leb_le in Hall.
Qed.

(** C2.  The chain matcher computes what the specification describes:
    whatever it returns is derivable by the rules "a collective is
    returned as it is; a conversion, reshape, copy, bitcast or transpose
    passes the search on to operand 0; a multiply returns the side that
    resolves when exactly one does, and nothing otherwise; any other
    opcode yields nothing"; every derivable answer is returned once the
    recursion depth allows it; the rules determine one answer; and on an
    acyclic, closed computation with the expected operand counts the
    matcher returns for every instruction.  It is a function of the
    computation and returns no computation: it changes nothing. *)
Theorem GetAllReduce_refines_find_collective :
  (∀ c src r, GetAllReduce c src = Some r → find_collective c src r) ∧
  (∀ c src r, find_collective c src r →
     ∃ fuel, ∀ fuel', (fuel ≤ fuel')%nat →
                      GetAllReduce_fuel fuel' c src = Some r) ∧
  (∀ c src r r', find_collective c src r → find_collective c src r' → r = r') ∧
  (∀ c src, acyclic c → operands_closed c → chain_arity c →
     is_Some (instr c src) →
     ∃ r, GetAllReduce c src = Some r ∧ find_collective c src r).
Proof.
  split; [| split; [| split]].
  - intros c src r. apply GetAllReduce_fuel_sound.
  - apply GetAllReduce_fuel_complete.
  - apply find_collective_functional.
  - intros c src Ha Hc Hr Hlive.
    destruct (GetAllReduce_total c src Ha Hc Hr Hlive) as [r Hr'].
    exists r. split; [done |]. by eapply GetAllReduce_fuel_sound.
Qed.

Lemma GetAllReduce_refines_find_collective_witness :
  GetAllReduce chain_sample 5 = Some (Some 1%nat) ∧
  find_collective chain_sample 5 (Some 1%nat) ∧
  GetAllReduce chain_sample 6 = Some None ∧
  ∃ r, GetAllReduce chain_sample 3 = Some r ∧ find_collective chain_sample 3 r.
Proof.
  pose proof GetAllReduce_refines_find_collective as (Hsound & _ & _ & Htotal).
  split; [reflexivity |]. split; [apply Hsound; reflexivity |].
  split; [reflexivity |].
  apply Htotal.
  - apply topological_acyclic. reflexivity.
  - apply closedb_operands_closed. reflexivity.
  - apply chain_arityb_chain_arity. reflexivity.
  - vm_compute. eauto.
Defined.

Lemma root_arity_and_shape_preserved_witness :
  (root_instruction (entry_computation scenario_D_after)
     = root_instruction (entry_computation scenario_D) ∧
   root_interface (entry_computation scenario_D_after)
     = root_interface (entry_computation scenario_D)) ∧
  (root_instruction (entry_computation group_after.1)
     = root_instruction (entry_computation scenario_A) ∧
   root_interface (entry_computation group_after.1)
     = root_interface (entry_computation scenario_A)) ∧
  (root_instruction (entry_computation group_after.2)
     = root_instruction (entry_computation consumer_unit) ∧
   root_interface (entry_computation group_after.2)
     = root_interface (entry_computation consumer_unit)).
Proof.
  destruct root_arity_and_shape_preserved as (Hrun & Hproducer & Hconsumer).
  split; [| split].
  - apply (Hrun (mkContext true [0] []) scenario_D true scenario_D_after).
    vm_compute. reflexivity.
  - apply (Hproducer (mkContext true [2] [1]) scenario_A consumer_unit true
                     group_after.1 group_after.2).
    vm_compute. reflexivity.
  - apply (Hconsumer (mkContext true [2] [1]) scenario_A consumer_unit true
                     group_after.1 group_after.2).
    + vm_compute. eauto.
    + vm_compute. reflexivity.
Defined.

(** ** C9: the diagnostic query *)

Lemma GetGradSyncChannelIds_fold slots acc :
  is_Some
    (fold_left
       (λ acc slot,
          ret ← acc;
          match slot with
          | Some inst =>
              if bool_decide (opcode inst = kAllReduce)
                 && String.eqb (metadata_op_name inst) kSkippableAllReduce
              then id ← channel_id inst; Some (ret +:+ pretty id +:+ ".")
              else Some ret
          | None => Some ret
          end) slots acc)
  ↔ is_Some acc ∧ Forall needs_channel slots.
Proof.
  revert acc. induction slots as [| slot slots IH]; intros acc; simpl.
  - split; [intros H; split; [done | constructor] | by intros [H _]].
  - rewrite IH, Forall_cons. destruct acc as [ret|]; simpl.
    2:{ split; [intros [[? [=]] _] | intros [[? [=]] _]]. }
    destruct slot as [inst|].
    2:{ split; [intros [_ H] | intros [_ [_ H]]]; repeat split; eauto.
        intros ? [=]. }
    destruct (bool_decide (opcode inst = kAllReduce)
              && String.eqb (metadata_op_name inst) kSkippableAllReduce)
      eqn:Htag.
    2:{ split; [intros [_ H] | intros [_ [_ H]]]; repeat split; eauto.
        intros ? [= <-] Ho Hn. apply andb_false_iff in Htag as [Ht | Ht].
        - by apply bool_decide_eq_false in Ht.
        - by apply String.eqb_neq in Ht. }
    apply andb_true_iff in Htag as [Hop Hname].
    apply bool_decide_eq_true in Hop. apply String.eqb_eq in Hname.
    destruct (channel_id inst) as [id|] eqn:Hid; simpl.
    + split; [intros [_ H] | intros [_ [_ H]]]; repeat split; eauto.
      intros ? [= <-] _ _. rewrite Hid. eauto.
    + split; [intros [[? [=]] _] |]. intros [_ [Hneed _]].
      destruct (Hneed inst eq_refl Hop Hname) as [? Hc]. congruence.
Qed.

(** C9.  [GetGradSyncChannelIds] has a result exactly when every
    all-reduce tagged with the elidable marker carries a channel
    identifier; a single tagged all-reduce without one leaves the query
    without a result (not with an empty entry). *)
Theorem GetGradSyncChannelIds_needs_channel_ids :
  (∀ module,
     is_Some (GetGradSyncChannelIds module) ↔
     Forall needs_channel (instructions (entry_computation module))) ∧
  (∀ module inst,
     Some inst ∈ instructions (entry_computation module) →
     opcode inst = kAllReduce →
     metadata_op_name inst = kSkippableAllReduce →
     channel_id inst = None →
     GetGradSyncChannelIds module = None).
Proof.
  assert (∀ module,
     is_Some (GetGradSyncChannelIds module) ↔
     Forall needs_channel (instructions (entry_computation module))) as Hiff.
  { intros module. unfold GetGradSyncChannelIds.
    rewrite GetGradSyncChannelIds_fold. naive_solver. }
  split; [exact Hiff |].
  intros module inst Hin Hop Hname Hnone.
  destruct (GetGradSyncChannelIds module) as [s|] eqn:Hs; [| done].
  assert (is_Some (GetGradSyncChannelIds module)) as Hsome by (rewrite Hs; eauto).
  apply Hiff in Hsome. rewrite Forall_forall in Hsome.
  destruct (Hsome _ Hin inst eq_refl Hop Hname) as [? Hc]. congruence.
Qed.

Lemma GetGradSyncChannelIds_needs_channel_ids_witness :
  GetGradSyncChannelIds local_tagged = None ∧
  GetGradSyncChannelIds three_tagged = Some ".3.7.12.".
Proof.
  split.
  - apply (proj2 GetGradSyncChannelIds_needs_channel_ids local_tagged
             (mkInstr kAllReduce f32_4 [0%nat] kSkippableAllReduce None
                      [[0; 1]] false false)).
    + vm_compute. apply list_elem_of_In. simpl. right. left. reflexivity.
    + reflexivity.
    + reflexivity.
    + reflexivity.
  - vm_compute. reflexivity.
Defined.

(** ** C5 and C8: the shape/type bridge *)

Lemma MaybeReshapeConvert_compatible c src ins dst :
  instr c src = Some ins → Compatible (shape ins) dst = true →
  MaybeReshapeConvert src dst c = Some (src, c).
Proof. intros Hins Hc. unfold MaybeReshapeConvert. by rewrite Hins; simpl; rewrite Hc. Qed.

Lemma MaybeReshapeConvert_same_type c src ins dst :
  instr c src = Some ins → Compatible (shape ins) dst = false →
  SameElementType (shape ins) dst = true →
  MaybeReshapeConvert src dst c
  = Some (length (instructions c), push_instruction (CreateReshape dst src) c).
Proof.
  intros Hins Hc Ht. unfold MaybeReshapeConvert, MaybeConvert.
  by rewrite Hins; simpl; rewrite Hc, Ht.
Qed.

Lemma MaybeReshapeConvert_other_type c src ins dst :
  instr c src = Some ins → SameElementType (shape ins) dst = false →
  MaybeReshapeConvert src dst c
  = Some (S (length (instructions c)),
          push_instruction (CreateReshape dst (length (instructions c)))
            (push_instruction
               (CreateConvert
                  (ChangeElementType (shape ins) (element_type dst)) src) c)).
Proof.
  intros Hins Ht. unfold MaybeReshapeConvert, MaybeConvert.
  rewrite Hins; simpl.
  destruct (Compatible (shape ins) dst) eqn:Hc.
  { apply Compatible_SameElementType in Hc. congruence. }
  rewrite Ht. simpl. unfold AddInstruction.
  by rewrite length_push_instruction.
Qed.

(** C5, as the code has it.  When the source already has the target's
    shape and element type the bridge returns the source and leaves the
    computation as it is.  When the dimensions agree and only the element
    type differs, the bridge adds two instructions, not one: a conversion
    of the source to the target's element type and, on top of it, a
    reshape to the target shape; it returns the reshape. *)
Theorem MaybeReshapeConvert_same_dimensions c src ins dst :
  instr c src = Some ins →
  (Compatible (shape ins) dst = true →
   MaybeReshapeConvert src dst c = Some (src, c)) ∧
  (structurally_compatible (shape ins) dst = true →
   SameElementType (shape ins) dst = false →
   let convert := length (instructions c) in
   let reshape := S convert in
   ∃ c',
     MaybeReshapeConvert src dst c = Some (reshape, c') ∧
     instructions c'
     = instructions c ++
       [Some (CreateConvert (ChangeElementType (shape ins) (element_type dst)) src);
        Some (CreateReshape dst convert)] ∧
     instr c' reshape = Some (CreateReshape dst convert) ∧
     instr c' convert
     = Some (CreateConvert (ChangeElementType (shape ins) (element_type dst)) src)).
Proof.
  intros Hins. split; [by apply MaybeReshapeConvert_compatible |].
  intros _ Ht convert reshape. eexists. split; [by apply MaybeReshapeConvert_other_type |].
  split; [simpl; by rewrite <- app_assoc |].
  split.
  - rewrite instr_push_instruction, length_push_instruction. by rewrite decide_True.
  - rewrite !instr_push_instruction, length_push_instruction.
    rewrite decide_False by (unfold convert; lia). by rewrite decide_True.
Qed.

Lemma MaybeReshapeConvert_same_dimensions_witness :
  MaybeReshapeConvert 0 f32_4 (entry_computation scenario_D)
  = Some (0%nat, entry_computation scenario_D) ∧
  ∃ c',
    MaybeReshapeConvert 1 f32_4 (entry_computation scenario_D) = Some (7%nat, c') ∧
    instructions c'
    = instructions (entry_computation scenario_D) ++
      [Some (CreateConvert f32_4 1); Some (CreateReshape f32_4 6)] ∧
    instr c' 7 = Some (CreateReshape f32_4 6) ∧
    instr c' 6 = Some (CreateConvert f32_4 1).
Proof.
  split.
  - apply (proj1 (MaybeReshapeConvert_same_dimensions
             (entry_computation scenario_D) 0 (plain kParameter f32_4 []) f32_4
             eq_refl)).
    reflexivity.
  - apply (proj2 (MaybeReshapeConvert_same_dimensions
             (entry_computation scenario_D) 1 (plain kParameter bf16_4 []) f32_4
             eq_refl)); reflexivity.
Defined.

Lemma MaybeReshapeConvert_with_Compatible src dst c :
  MaybeReshapeConvert_with Compatible src dst c = MaybeReshapeConvert src dst c.
Proof. reflexivity. Qed.

(** C5 as stated fails: the source is bf16[4], the target f32[4] (same
    dimensions, another element type); the bridge does not return a
    conversion with one instruction added, it adds two and returns a
    reshape.  However the compatibility test is read, no reading makes
    the bridge add one conversion and return it. *)
Lemma MaybeReshapeConvert_single_convert_counterexample :
  let c := entry_computation scenario_D in
  (∃ ins, instr c 1 = Some ins ∧
          structurally_compatible (shape ins) f32_4 = true ∧
          SameElementType (shape ins) f32_4 = false) ∧
  ¬ (∃ r c', MaybeReshapeConvert 1 f32_4 c = Some (r, c') ∧
             length (instructions c') = S (length (instructions c)) ∧
             opcode <$> instr c' r = Some kConvert) ∧
  (∃ r c', MaybeReshapeConvert 1 f32_4 c = Some (r, c') ∧
           length (instructions c') = S (S (length (instructions c))) ∧
           opcode <$> instr c' r = Some kReshape) ∧
  (∀ compatible,
     ¬ (∃ r c', MaybeReshapeConvert_with compatible 1 f32_4 c = Some (r, c') ∧
                length (instructions c') = S (length (instructions c)) ∧
                opcode <$> instr c' r = Some kConvert)).
Proof.
  split; [| split; [| split]].
  - eexists. repeat split; reflexivity.
  - intros (r & c' & H & Hlen & _). vm_compute in H. injection H as <- <-.
    vm_compute in Hlen. discriminate.
  - eexists _, _. repeat split; reflexivity.
  - intros compatible (r & c' & H & Hlen & _).
    unfold MaybeReshapeConvert_with in H.
    change (instr (entry_computation scenario_D) 1)
      with (Some (plain kParameter bf16_4 [])) in H.
    simpl in H. destruct (compatible bf16_4 f32_4).
    + injection H as <- <-. vm_compute in Hlen. discriminate.
    + vm_compute in H. injection H as <- <-. vm_compute in Hlen. discriminate.
Qed.

(** C8.  For a source that is present, the bridge returns an instruction
    whose shape is compatible with the target (same dimensions, same
    element type), and bridging that result to the same target again
    returns it and leaves the computation as it is. *)
Theorem MaybeReshapeConvert_idempotent c src ins dst :
  instr c src = Some ins →
  ∃ r c' ins',
    MaybeReshapeConvert src dst c = Some (r, c') ∧
    instr c' r = Some ins' ∧
    Compatible (shape ins') dst = true ∧
    MaybeReshapeConvert r dst c' = Some (r, c').
Proof.
  intros Hins. destruct (Compatible (shape ins) dst) eqn:Hc.
  - exists src, c, ins. rewrite (MaybeReshapeConvert_compatible _ _ _ _ Hins Hc).
    done.
  - destruct (SameElementType (shape ins) dst) eqn:Ht.
    + rewrite (MaybeReshapeConvert_same_type _ _ _ _ Hins Hc Ht).
      eexists _, _, (CreateReshape dst src).
      assert (instr (push_instruction (CreateReshape dst src) c)
                    (length (instructions c)) = Some (CreateReshape dst src)) as Hr.
      { rewrite instr_push_instruction. by rewrite decide_True. }
      repeat split; [done | apply Compatible_refl |].
      eapply MaybeReshapeConvert_compatible; [done | apply Compatible_refl].
    + rewrite (MaybeReshapeConvert_other_type _ _ _ _ Hins Ht).
      eexists _, _, (CreateReshape dst (length (instructions c))).
      match goal with |- context [instr ?c' ?r = Some ?i] =>
        assert (instr c' r = Some i) as Hr end.
      { rewrite instr_push_instruction, length_push_instruction.
        by rewrite decide_True. }
      repeat split; [done | apply Compatible_refl |].
      eapply MaybeReshapeConvert_compatible; [done | apply Compatible_refl].
Qed.

Lemma MaybeReshapeConvert_idempotent_witness :
  ∃ r c' ins',
    MaybeReshapeConvert 1 f32_4 (entry_computation scenario_D) = Some (r, c') ∧
    instr c' r = Some ins' ∧
    Compatible (shape ins') f32_4 = true ∧
    MaybeReshapeConvert r f32_4 c' = Some (r, c').
Proof.
  apply (MaybeReshapeConvert_idempotent (entry_computation scenario_D) 1
           (plain kParameter bf16_4 []) f32_4).
  reflexivity.
Defined.

(** ** C3 and C6: the result of the run and the skipped indices *)

Lemma rewrite_loop_all_skipped indices c rm :
  (∀ i, i ∈ indices → match_index c i = Some None) →
  rewrite_loop indices (c, rm) = Some (c, rm).
Proof.
  induction indices as [| i rest IH]; intros Hskip; [done |].
  simpl. unfold rewrite_index at 1. simpl.
  rewrite (Hskip i) by (by left). simpl. apply IH.
  intros j Hj. apply Hskip. by right.
Qed.

(** C3, as the code has it.  With the toggle off the run returns false
    and the module as it was.  With the toggle on, every run that
    completes returns true, whether or not an index was rewritten: when
    every requested index is skipped (in particular when none is
    requested) the result is still true, with the module unchanged. *)
Theorem Run_result :
  (∀ ctx module,
     rewrite_for_grad_acc ctx = false → Run ctx module = Some (false, module)) ∧
  (∀ ctx module changed module',
     rewrite_for_grad_acc ctx = true →
     Run ctx module = Some (changed, module') → changed = true) ∧
  (∀ ctx module,
     rewrite_for_grad_acc ctx = true →
     (∀ i, i ∈ rewrite_indices ctx →
           match_index (entry_computation module) i = Some None) →
     Run ctx module = Some (true, module)).
Proof.
  split; [| split].
  - intros ctx module Hoff. unfold Run. by rewrite Hoff.
  - intros ctx module changed module' Hon. unfold Run. rewrite Hon. simpl.
    intros H. apply bind_Some in H as ([entry rm] & _ & H). congruence.
  - intros ctx module Hon Hskip. unfold Run. rewrite Hon. simpl.
    rewrite rewrite_loop_all_skipped by done. simpl. by destruct module.
Qed.

Lemma Run_result_witness :
  Run (mkContext false [2] []) scenario_A = Some (false, scenario_A) ∧
  true = true ∧
  Run (mkContext true [0; 1] []) scenario_A = Some (true, scenario_A).
Proof.
  destruct Run_result as (Hoff & Hon & Hskip). split; [| split].
  - apply Hoff. reflexivity.
  - apply (Hon (mkContext true [2] []) scenario_A true scenario_A_after).
    + reflexivity.
    + vm_compute. reflexivity.
  - apply Hskip; [reflexivity |].
    intros i Hi. simpl in Hi.
    apply elem_of_cons in Hi as [-> | Hi]; [reflexivity |].
    apply elem_of_cons in Hi as [-> | Hi]; [reflexivity |].
    by apply elem_of_nil in Hi.
Defined.

(** C3 as stated fails: the toggle is on and no index is requested, so
    nothing is rewritten and the module is unchanged, yet the result is
    true. *)
Lemma Run_result_counterexample :
  let ctx := mkContext true [] [] in
  ∃ changed,
    Run ctx scenario_A = Some (changed, scenario_A) ∧
    ¬ (changed = true ↔
       ∃ i m, i ∈ rewrite_indices ctx ∧
              match_index (entry_computation scenario_A) i = Some (Some m)).
Proof.
  exists true. split; [reflexivity |].
  intros [H _]. destruct (H eq_refl) as (i & m & Hi & _).
  simpl in Hi. by apply elem_of_nil in Hi.
Qed.

(** C6, as the code has it.  For a requested index inside the output
    tuple whose operand is not an Add, or whose chain holds no
    collective, or whose collective does not have exactly one user, the
    loop body returns the state as it got it, the loop goes on with the
    next index, and the run gives what it gives without that index. *)
Theorem soft_mismatch_skipped c i add_ins add :
  mutable_operand_Z c (root_instruction c) i = Some add_ins →
  instr c add_ins = Some add →
  opcode add ≠ kAdd ∨
  (∃ x, mutable_operand c add_ins 1 = Some x ∧
        GetAllReduce c x = Some None) ∨
  (∃ x ar, mutable_operand c add_ins 1 = Some x ∧
           GetAllReduce c x = Some (Some ar) ∧
           length (users c ar) ≠ 1%nat) →
  (∀ rm, rewrite_index i (c, rm) = Some (c, rm)) ∧
  (∀ rm rest, rewrite_loop (i :: rest) (c, rm) = rewrite_loop rest (c, rm)) ∧
  (∀ rest other,
     Run (mkContext true (i :: rest) other) (mkModule c)
     = Run (mkContext true rest other) (mkModule c)).
Proof.
  intros Hop Hadd Hcase.
  assert (match_index c i = Some None) as Hm.
  { unfold match_index. rewrite Hop. simpl. rewrite Hadd. simpl.
    destruct Hcase as [Hne | [(x & Hx & Hnone) | (x & ar & Hx & Hsome & Hu)]].
    - by rewrite decide_True.
    - case_decide; [done |]. by rewrite Hx; simpl; rewrite Hnone.
    - case_decide; [done |]. rewrite Hx; simpl. rewrite Hsome; simpl.
      by rewrite decide_True. }
  assert (∀ rm, rewrite_index i (c, rm) = Some (c, rm)) as Hstep.
  { intros rm. unfold rewrite_index. simpl. by rewrite Hm. }
  split; [done |]. split.
  - intros rm rest. simpl. by rewrite Hstep.
  - intros rest other. unfold Run. simpl. by rewrite Hstep.
Qed.

Lemma soft_mismatch_skipped_witness :
  rewrite_index 0 (entry_computation scenario_A, [])
  = Some (entry_computation scenario_A, []) ∧
  rewrite_loop [0; 2] (entry_computation scenario_A, [])
  = rewrite_loop [2] (entry_computation scenario_A, []) ∧
  Run (mkContext true [0; 2] []) scenario_A
  = Run (mkContext true [2] []) scenario_A.
Proof.
  destruct (soft_mismatch_skipped (entry_computation scenario_A) 0 4
              (plain kParameter f32_4 [])) as (Hstep & Hloop & Hrun).
  - reflexivity.
  - reflexivity.
  - left. discriminate.
  - split; [apply Hstep |]. split; [apply Hloop | apply Hrun].
Defined.

(** C6 as stated fails for an index outside the output tuple: the root
    of scenario A has three operands, index 5 is requested, and the run
    aborts on the operand access instead of skipping the index; the
    index that follows is not processed. *)
Lemma out_of_range_index_counterexample :
  (∃ root, instr (entry_computation scenario_A)
             (root_instruction (entry_computation scenario_A)) = Some root ∧
           length (operands root) = 3%nat) ∧
  Run (mkContext true [5] []) scenario_A = None ∧
  Run (mkContext true [5; 2] []) scenario_A = None ∧
  ¬ (∃ changed, Run (mkContext true [5] []) scenario_A
                = Some (changed, scenario_A)).
Proof.
  split; [eexists; split; reflexivity |].
  split; [reflexivity |]. split; [reflexivity |].
  intros (changed & H). vm_compute in H. discriminate.
Qed.

(** ** Closed computations stay closed *)

Lemma elem_of_insert_inv {A} (l : list A) i x y :
  y ∈ <[i:=x]> l → y = x ∨ y ∈ l.
Proof.
  intros [j Hj]%list_elem_of_lookup.
  apply list_lookup_insert_Some in Hj as [(_ & -> & _) | (_ & Hj)];
    [by left | right; by eapply list_elem_of_lookup_2].
Qed.

Lemma keeps_live c c' n : keeps c c' → is_Some (instr c n) → is_Some (instr c' n).
Proof.
  intros (_ & _ & _ & H & _) [ins Hn]. destruct (H _ _ Hn) as (? & -> & _). eauto.
Qed.

Lemma closed_push_instruction ins c :
  operands_closed c → (∀ o, o ∈ operands ins → is_Some (instr c o)) →
  operands_closed (push_instruction ins c).
Proof.
  intros Hc Hins n ins' o Hn Ho.
  eapply keeps_live; [apply grows_keeps, grows_push_instruction |].
  rewrite instr_push_instruction in Hn. case_decide.
  - injection Hn as <-. by apply Hins.
  - by eapply Hc.
Qed.

Lemma live_update_instr n f c m :
  is_Some (instr (update_instr n f c) m) ↔ is_Some (instr c m).
Proof.
  rewrite instr_update_instr. case_decide; [subst; by rewrite fmap_is_Some | done].
Qed.

Lemma closed_ReplaceOperandWith n k new c :
  operands_closed c → is_Some (instr c new) →
  operands_closed (ReplaceOperandWith n k new c).
Proof.
  intros Hc Hnew m ins' o Hm Ho. apply live_update_instr.
  unfold ReplaceOperandWith in Hm. rewrite instr_update_instr in Hm.
  case_decide; [subst | by eapply Hc].
  destruct (instr c n) as [ins|] eqn:E; [| done].
  injection Hm as <-. simpl in Ho.
  apply elem_of_insert_inv in Ho as [-> | Ho]; [done | by eapply Hc].
Qed.

Lemma closed_set_metadata_op_name n name c :
  operands_closed c → operands_closed (set_metadata_op_name n name c).
Proof.
  intros Hc m ins' o Hm Ho. apply live_update_instr.
  unfold set_metadata_op_name in Hm. rewrite instr_update_instr in Hm.
  case_decide; [subst | by eapply Hc].
  destruct (instr c n) as [ins|] eqn:E; [| done].
  injection Hm as <-. simpl in Ho. by eapply Hc.
Qed.

Lemma MaybeConvert_closed src dst c r c' :
  operands_closed c → MaybeConvert src dst c = Some (r, c') →
  operands_closed c' ∧ is_Some (instr c' r).
Proof.
  intros Hc H. unfold MaybeConvert in H. inv_bind H.
  - injection H as <- <-. eauto.
  - unfold AddInstruction in H. injection H as <- <-. split.
    + apply closed_push_instruction; [done |].
      intros o ->%list_elem_of_singleton. eauto.
    + rewrite instr_push_instruction. rewrite decide_True by done. eauto.
Qed.

Lemma MaybeReshapeConvert_closed src dst c r c' :
  operands_closed c → MaybeReshapeConvert src dst c = Some (r, c') →
  operands_closed c' ∧ is_Some (instr c' r).
Proof.
  intros Hc H. unfold MaybeReshapeConvert in H. inv_bind H.
  - injection H as <- <-. eauto.
  - unfold AddInstruction in H. injection H as <- <-.
    destruct (MaybeConvert_closed _ _ _ _ _ Hc Hx0) as [Hc1 Hlive]. split.
    + apply closed_push_instruction; [done |].
      by intros o ->%list_elem_of_singleton.
    + rewrite instr_push_instruction. rewrite decide_True by done. eauto.
Qed.

Lemma MaybeReshapeConvert_succeeds src dst c :
  is_Some (instr c src) → is_Some (MaybeReshapeConvert src dst c).
Proof.
  intros [ins Hins]. unfold MaybeReshapeConvert, MaybeConvert.
  rewrite Hins; simpl.
  destruct (Compatible _ _); [eauto |].
  destruct (SameElementType _ _); simpl; eauto.
Qed.

(** The bridge between shapes of one element type: the source itself
    or one reshape of it. *)
Lemma MaybeReshapeConvert_one_type c src ins dst :
  instr c src = Some ins → SameElementType (shape ins) dst = true →
  ∃ b c',
    MaybeReshapeConvert src dst c = Some (b, c') ∧ grows c c' ∧
    (b = src ∨ (b = length (instructions c) ∧
                instr c' b = Some (CreateReshape dst src))).
Proof.
  intros Hins Ht. destruct (Compatible (shape ins) dst) eqn:Hc.
  - exists src, c. rewrite (MaybeReshapeConvert_compatible _ _ _ _ Hins Hc).
    split; [done |]. split; [apply grows_refl | by left].
  - eexists _, _. rewrite (MaybeReshapeConvert_same_type _ _ _ _ Hins Hc Ht).
    split; [done |]. split; [apply grows_push_instruction |]. right.
    split; [done |]. rewrite instr_push_instruction. by rewrite decide_True.
Qed.

Lemma mutable_operand_eq c n ins k :
  instr c n = Some ins → mutable_operand c n k = operands ins !! k.
Proof. intros H. unfold mutable_operand. by rewrite H. Qed.

Lemma detach_loop_succeeds ar u slots c :
  operands_closed c →
  (∃ ui, instr c u = Some ui ∧ ∀ i, i ∈ slots → (i < length (operands ui))%nat) →
  (∃ ai, instr c ar = Some ai ∧ length (operands ai) = 1%nat) →
  ∃ c', detach_loop ar u slots c = Some c' ∧ operands_closed c'.
Proof.
  revert c. induction slots as [| i rest IH]; intros c Hc (ui & Hu & Hlen) (ai & Ha & Hone).
  { exists c. done. }
  simpl. rewrite (mutable_operand_eq c u ui i Hu).
  destruct (lookup_lt_is_Some_2 (operands ui) i) as [o Ho]; [apply Hlen; by left |].
  rewrite Ho. simpl.
  assert (∀ c1, keeps c c1 → operands_closed c1 →
                ∃ c', detach_loop ar u rest c1 = Some c' ∧ operands_closed c')
    as Hnext.
  { intros c1 (_ & _ & _ & Hk & _) Hc1. apply IH; [done | |].
    - destruct (Hk _ _ Hu) as (ui' & Hu' & _ & _ & Hl & _).
      exists ui'. split; [done |]. intros j Hj. rewrite Hl. apply Hlen. by right.
    - destruct (Hk _ _ Ha) as (ai' & Ha' & _ & _ & Hl & _).
      exists ai'. split; [done | congruence]. }
  case_decide as Heq; [| apply Hnext; [apply keeps_refl | done]].
  subst o. rewrite (mutable_operand_eq c ar ai 0 Ha).
  destruct (lookup_lt_is_Some_2 (operands ai) 0%nat) as [x Hx]; [lia |].
  rewrite Hx. simpl. rewrite Ha. simpl.
  assert (is_Some (instr c x)) as Hlive.
  { eapply Hc; [exact Ha |]. by eapply list_elem_of_lookup_2. }
  destruct (MaybeReshapeConvert_succeeds x (shape ai) c Hlive) as [[b c1] Hb].
  rewrite Hb. simpl.
  destruct (MaybeReshapeConvert_closed _ _ _ _ _ Hc Hb) as [Hc1 Hblive].
  apply Hnext.
  - eapply keeps_trans; [by eapply MaybeReshapeConvert_keeps |].
    apply keeps_ReplaceOperandWith.
  - by apply closed_ReplaceOperandWith.
Qed.

Lemma detach_succeeds ar u c ui ai :
  operands_closed c → instr c u = Some ui → instr c ar = Some ai →
  length (operands ai) = 1%nat →
  ∃ c', detach ar u c = Some c' ∧ operands_closed c' ∧ keeps c c'.
Proof.
  intros Hc Hu Ha Hone. unfold detach. rewrite Hu. simpl.
  destruct (detach_loop_succeeds ar u (seq 0 (length (operands ui))) c Hc)
    as (c' & H & Hc'); [| eauto |].
  - exists ui. split; [done |]. intros i Hi%elem_of_seq. lia.
  - exists c'. split; [done |]. split; [done |]. by eapply detach_loop_keeps.
Qed.

(** ** C1: the accumulation moves before the reduction *)

Lemma vector_at_Some {A} (v : list A) i x :
  vector_at v i = Some x →
  0 ≤ i ∧ (Z.to_nat i < length v)%nat ∧ v !! Z.to_nat i = Some x.
Proof.
  unfold vector_at. case_decide; [| done]. intros Hx.
  repeat split; [lia.. | done].
Qed.

Lemma vector_at_lookup {A} (v : list A) i x :
  0 ≤ i → v !! Z.to_nat i = Some x → vector_at v i = Some x.
Proof.
  intros Hi H. unfold vector_at. rewrite decide_True; [done |].
  apply lookup_lt_Some in H. lia.
Qed.

Lemma reinsert_one_type c rm i add_ins allreduce_ins add ar root :
  instr c add_ins = Some add → opcode add = kAdd →
  instr c allreduce_ins = Some ar → opcode ar = kAllReduce →
  length (operands ar) = 1%nat →
  instr c (root_instruction c) = Some root → opcode root = kTuple →
  (i < length (operands root))%nat →
  SameElementType (shape ar) (shape add) = true →
  ∃ c' b1 b2 root',
    reinsert i add_ins allreduce_ins (c, rm) = Some (c', rm) ∧
    root_instruction c' = root_instruction c ∧
    instr c' (root_instruction c) = Some root' ∧
    operands root' !! i = Some b2 ∧
    bridged c' b2 allreduce_ins ∧
    instr c' allreduce_ins
    = Some (with_op_name kSkippableAllReduce (with_operands [b1] ar)) ∧
    bridged c' b1 add_ins ∧
    instr c' add_ins = Some add.
Proof.
  intros Hadd Hopadd Har Hopar Hone Hroot Hoproot Hi Ht.
  assert (add_ins ≠ allreduce_ins) as Hne1 by (intros ->; congruence).
  assert (root_instruction c ≠ allreduce_ins) as Hne2
    by (intros E; rewrite E in Hroot; congruence).
  assert (root_instruction c ≠ add_ins) as Hne3
    by (intros E; rewrite E in Hroot; congruence).
  assert (SameElementType (shape add) (shape ar) = true) as Ht'.
  { unfold SameElementType in *. apply bool_decide_eq_true.
    by apply bool_decide_eq_true in Ht. }
  destruct (MaybeReshapeConvert_one_type c add_ins add (shape ar) Hadd Ht')
    as (b1 & cA & HA & HgA & Hb1).
  set (c2 := ReplaceOperandWith allreduce_ins 0 b1 cA).
  assert (instr c2 add_ins = Some add) as Hadd2.
  { unfold c2, ReplaceOperandWith. rewrite instr_update_instr, decide_False by done.
    by eapply grows_instr_Some. }
  assert (instr c2 allreduce_ins = Some (with_operands [b1] ar)) as Har2.
  { unfold c2, ReplaceOperandWith. rewrite instr_update_instr, decide_True by done.
    rewrite (grows_instr_Some c cA _ _ HgA Har). simpl.
    by destruct (operands ar) as [| x0 [| ? ?]]. }
  destruct (MaybeReshapeConvert_one_type c2 allreduce_ins _ (shape add) Har2 Ht)
    as (b2 & cD & HD & HgD & Hb2).
  set (c4 := ReplaceOperandWith (root_instruction c) i b2 cD).
  set (c5 := set_metadata_op_name allreduce_ins kSkippableAllReduce c4).
  assert (∀ n, n ≠ allreduce_ins → n ≠ root_instruction c →
               instr c5 n = instr cD n) as H5.
  { intros n Hn1 Hn2. unfold c5, c4, set_metadata_op_name, ReplaceOperandWith.
    by rewrite !instr_update_instr, !decide_False. }
  assert (∀ n, n ≠ allreduce_ins → is_Some (instr cA n) →
               instr cD n = instr cA n) as HDA.
  { intros n Hn1 [ins Hn].
    rewrite (grows_instr c2 cD) by
      (done || unfold c2, ReplaceOperandWith; rewrite length_update_instr;
       by eapply instr_lt).
    unfold c2, ReplaceOperandWith. by rewrite instr_update_instr, decide_False. }
  assert (instr c5 allreduce_ins
          = Some (with_op_name kSkippableAllReduce (with_operands [b1] ar)))
    as Har5.
  { unfold c5, c4, set_metadata_op_name, ReplaceOperandWith.
    rewrite instr_update_instr, decide_True by done.
    rewrite instr_update_instr, decide_False by done.
    by rewrite (grows_instr_Some c2 cD _ _ HgD Har2). }
  assert (instr c5 add_ins = Some add) as Hadd5.
  { rewrite H5, HDA by (done || eauto using grows_instr_Some).
    by eapply grows_instr_Some. }
  assert (instr cD (root_instruction c) = Some root) as HrootD.
  { rewrite HDA by (done || eauto using grows_instr_Some).
    by eapply grows_instr_Some. }
  assert (length (instructions c) ≤ length (instructions c2))%nat as Hlen2.
  { unfold c2, ReplaceOperandWith. rewrite length_update_instr.
    by apply grows_length. }
  exists c5, b1, b2, (with_operands (<[i := b2]> (operands root)) root).
  split.
  { unfold reinsert. rewrite Har. simpl. rewrite HA. simpl.
    fold c2. rewrite Hadd2. simpl. rewrite HD. simpl.
    fold c4. fold c5. rewrite Har5, Hadd5. simpl. by rewrite Ht. }
  split.
  { unfold c5, c4, set_metadata_op_name, ReplaceOperandWith.
    rewrite !root_update_instr. destruct HgD as (-> & _).
    unfold c2, ReplaceOperandWith. rewrite root_update_instr. by destruct HgA as (-> & _). }
  split.
  { unfold c5, c4, set_metadata_op_name, ReplaceOperandWith.
    rewrite instr_update_instr, decide_False by done.
    rewrite instr_update_instr, decide_True by done. by rewrite HrootD. }
  split; [simpl; by apply list_lookup_insert_eq |].
  split.
  { destruct Hb2 as [-> | [-> Hb2]]; [by left |]. right; left.
    exists (shape add). rewrite H5; [done | |].
    - apply instr_lt in Har. lia.
    - apply instr_lt in Hroot. lia. }
  split; [done |]. split; [| done].
  destruct Hb1 as [-> | [-> Hb1]]; [by left |]. right; left.
  exists (shape ar).
  assert (length (instructions c) ≠ allreduce_ins) by (apply instr_lt in Har; lia).
  assert (length (instructions c) ≠ root_instruction c)
    by (apply instr_lt in Hroot; lia).
  rewrite H5, HDA; eauto.
Qed.

#[local] Arguments reinsert : simpl never.
#[local] Arguments detach : simpl never.
#[local] Arguments match_index : simpl never.
#[local] Arguments MaybeReshapeConvert : simpl never.
#[local] Arguments MaybeReshapeConvertTuple : simpl never.
#[local] Arguments ReplaceOperandWith : simpl never.
#[local] Arguments set_metadata_op_name : simpl never.
#[local] Arguments push_instruction : simpl never.
#[local] Arguments ReplaceAllUsesWith : simpl never.
#[local] Arguments RemoveInstruction : simpl never.
#[local] Arguments users : simpl never.
#[local] Arguments instr : simpl never.

Lemma users_ReplaceAllUsesWith old new c :
  new ≠ old → users (ReplaceAllUsesWith old new c) old = [].
Proof.
  intros Hne. destruct (users _ old) as [| u l] eqn:E; [done |].
  assert (u ∈ users (ReplaceAllUsesWith old new c) old) as Hu
    by (rewrite E; by left).
  apply users_spec in Hu as (ins & Hins & Hin).
  rewrite instr_ReplaceAllUsesWith in Hins.
  destruct (instr c u) as [ins0|]; [| done]. injection Hins as <-.
  simpl in Hin. apply list_elem_of_fmap in Hin as (y & Hy & _).
  case_decide; congruence.
Qed.

Lemma SameElementType_sym a b : SameElementType a b = SameElementType b a.
Proof.
  unfold SameElementType. apply bool_decide_ext. split; congruence.
Qed.

Lemma reinsert_other_type c rm i add_ins allreduce_ins add ar root :
  instr c add_ins = Some add → opcode add = kAdd →
  instr c allreduce_ins = Some ar → opcode ar = kAllReduce →
  length (operands ar) = 1%nat →
  instr c (root_instruction c) = Some root → opcode root = kTuple →
  (i < length (operands root))%nat →
  SameElementType (shape ar) (shape add) = false →
  IsArray (shape add) = true →
  let L := length (instructions c) in
  ∃ c',
    reinsert i add_ins allreduce_ins (c, rm) = Some (c', rm ++ [allreduce_ins]) ∧
    root_instruction c' = root_instruction c ∧
    users c' allreduce_ins = [] ∧
    (∃ root', instr c' (root_instruction c) = Some root' ∧
              operands root' !! i = Some (3 + L)%nat) ∧
    instr c' (3 + L)%nat = Some (CreateReshape (shape add) (2 + L)%nat) ∧
    (∃ sh, instr c' (2 + L)%nat = Some (CreateConvert sh (8 + L)%nat)) ∧
    instr c' (8 + L)%nat = Some (CreateReshape (shape ar) (7 + L)%nat) ∧
    (∃ sh, instr c' (7 + L)%nat = Some (CreateConvert sh (6 + L)%nat)) ∧
    instr c' (6 + L)%nat
    = Some (with_op_name kSkippableAllReduce
              (CreateAllReduce (shape add) [(5 + L)%nat] (replica_groups ar)
                 (constrain_layout ar) (channel_id ar)
                 (use_global_device_ids ar))) ∧
    instr c' (5 + L)%nat = Some (CreateReshape (shape add) (4 + L)%nat) ∧
    (∃ sh, instr c' (4 + L)%nat = Some (CreateConvert sh (1 + L)%nat)) ∧
    instr c' (1 + L)%nat = Some (CreateReshape (shape ar) L) ∧
    (∃ sh, instr c' L = Some (CreateConvert sh add_ins)) ∧
    (∃ add', instr c' add_ins = Some add' ∧ opcode add' = kAdd) ∧
    (∃ ar', instr c' allreduce_ins = Some ar' ∧ opcode ar' = kAllReduce).
Proof.
  intros Hadd Hopadd Har Hopar Hone Hroot Hoproot Hi Ht Harr L. simpl.
  assert (add_ins ≠ allreduce_ins) as Hne1 by (intros ->; congruence).
  assert (root_instruction c ≠ allreduce_ins) as Hne2
    by (intros E; rewrite E in Hroot; congruence).
  assert (root_instruction c ≠ add_ins) as Hne3
    by (intros E; rewrite E in Hroot; congruence).
  pose proof (instr_lt _ _ _ Hadd) as HaddL.
  pose proof (instr_lt _ _ _ Har) as HarL.
  pose proof (instr_lt _ _ _ Hroot) as HrootL. fold L in HaddL, HarL, HrootL.
  assert (SameElementType (shape add) (shape ar) = false) as Ht'
    by (by rewrite SameElementType_sym).
  assert (operands ar = [default 0%nat (head (operands ar))]) as Hops
    by (by destruct (operands ar) as [| ? [| ? ?]]).
  (* bridge the Add to the collective's shape *)
  pose proof (MaybeReshapeConvert_other_type c add_ins add (shape ar) Hadd Ht')
    as HA.
  fold L in HA.
  set (cA := push_instruction _ _) in HA.
  set (c2 := ReplaceOperandWith allreduce_ins 0 (S L) cA).
  assert (length (instructions c2) = S (S (L)))%nat as Hlen2
    by (unfold c2, cA, ReplaceOperandWith; lookup_through; lia).
  assert (instr c2 add_ins = Some add) as Hadd2
    by (unfold c2, cA, ReplaceOperandWith; lookup_through; done).
  assert (instr c2 allreduce_ins = Some (with_operands [S L] ar)) as Har2.
  { unfold c2, cA, ReplaceOperandWith. lookup_through. rewrite Har. simpl.
    rewrite Hops. done. }
  (* bridge the collective to the Add's shape *)
  pose proof (MaybeReshapeConvert_other_type c2 allreduce_ins _ (shape add)
                Har2 Ht) as HD.
  rewrite Hlen2 in HD. simpl shape in HD.
  set (cD := push_instruction _ _) in HD.
  set (c4 := ReplaceOperandWith (root_instruction c) i (S (S (S (L)))) cD).
  set (c5 := set_metadata_op_name allreduce_ins kSkippableAllReduce c4).
  assert (length (instructions c5) = S (S (S (S (L)))))%nat as Hlen5.
  { unfold c5, c4, cD, set_metadata_op_name, ReplaceOperandWith.
    lookup_through. rewrite Hlen2. lia. }
  assert (instr c5 allreduce_ins
          = Some (with_op_name kSkippableAllReduce (with_operands [S L] ar)))
    as Har5.
  { unfold c5, c4, cD, set_metadata_op_name, ReplaceOperandWith.
    lookup_through; rewrite ?Hlen2 in *; try lia. by rewrite Har2. }
  assert (instr c5 add_ins = Some add) as Hadd5.
  { unfold c5, c4, cD, set_metadata_op_name, ReplaceOperandWith.
    lookup_through; rewrite ?Hlen2 in *; try lia. done. }
  assert (instr c5 (S L) = Some (CreateReshape (shape ar) L)) as Hb1.
  { unfold c5, c4, cD, set_metadata_op_name, ReplaceOperandWith.
    lookup_through; rewrite ?Hlen2 in *; try lia.
    unfold c2, cA, ReplaceOperandWith. lookup_through. done. }
  (* the replacement collective *)
  pose proof (MaybeReshapeConvert_other_type c5 (S L) _ (shape add) Hb1 Ht)
    as H6.
  rewrite Hlen5 in H6. simpl shape in H6.
  set (c6 := push_instruction _ _) in H6.
  assert (MaybeReshapeConvertTuple [S L] (shape add) c5
          = Some ([S (S (S (S (S (L)))))], c6)) as H6'.
  { unfold MaybeReshapeConvertTuple.
    assert (IsTuple (shape add) = false) as -> by (by destruct (shape add)).
    rewrite Harr. simpl. rewrite H6. done. }
  set (new_ar := CreateAllReduce (shape add) [S (S (S (S (S (L)))))] (replica_groups ar)
                   (constrain_layout ar) (channel_id ar)
                   (use_global_device_ids ar)).
  set (c7 := push_instruction new_ar c6).
  assert (length (instructions c6) = S (S (S (S (S (S (L)))))))%nat as Hlen6
    by (unfold c6; lookup_through; rewrite Hlen5; lia).
  set (c8 := set_metadata_op_name (S (S (S (S (S (S (L))))))) kSkippableAllReduce c7).
  assert (length (instructions c8) = S (S (S (S (S (S (S (L))))))))%nat as Hlen8
    by (unfold c8, c7, set_metadata_op_name; lookup_through; rewrite Hlen6; lia).
  assert (instr c8 (S (S (S (S (S (S (L))))))) = Some (with_op_name kSkippableAllReduce new_ar))
    as Hnew8.
  { unfold c8, c7, set_metadata_op_name. lookup_through; rewrite ?Hlen6 in *; try lia.
    done. }
  pose proof (MaybeReshapeConvert_other_type c8 (S (S (S (S (S (S (L))))))) _ (shape ar)
                Hnew8 Ht') as H9.
  rewrite Hlen8 in H9. simpl shape in H9.
  set (c9 := push_instruction _ _) in H9.
  exists (ReplaceAllUsesWith allreduce_ins (S (S (S (S (S (S (S (S (L))))))))) c9).
  split.
  { unfold reinsert. rewrite Har. run_step.
    rewrite HA. run_step. fold c2.
    rewrite Hadd2. run_step.
    rewrite HD. run_step. fold c4. fold c5.
    rewrite Har5, Hadd5. run_step. rewrite Ht. run_step.
    rewrite H6'. run_step. unfold AddInstruction.
    rewrite Hlen6. fold new_ar. fold c7. fold c8.
    rewrite H9. done. }
  assert (∀ n, instr (ReplaceAllUsesWith allreduce_ins (S (S (S (S (S (S (S (S L)))))))) c9) n
               = replace_uses allreduce_ins (S (S (S (S (S (S (S (S L))))))))
                   <$> instr c9 n) as Hfinal
    by (intros n; apply instr_ReplaceAllUsesWith).
  assert (∀ sh o, o ≠ allreduce_ins →
            replace_uses allreduce_ins (S (S (S (S (S (S (S (S L))))))))
              (CreateReshape sh o) = CreateReshape sh o) as Hreshape.
  { intros sh o Ho. unfold replace_uses, CreateReshape, with_operands. simpl.
    by rewrite decide_False. }
  assert (∀ sh o, o ≠ allreduce_ins →
            replace_uses allreduce_ins (S (S (S (S (S (S (S (S L))))))))
              (CreateConvert sh o) = CreateConvert sh o) as Hconvert.
  { intros sh o Ho. unfold replace_uses, CreateConvert, with_operands. simpl.
    by rewrite decide_False. }
  assert (∀ n, instr c9 n
               = if decide (n = S (S (S (S (S (S (S (S L)))))))) then
                   Some (CreateReshape (shape ar) (S (S (S (S (S (S (S L))))))))
                 else if decide (n = S (S (S (S (S (S (S L))))))) then
                   Some (CreateConvert
                           (ChangeElementType (shape add) (element_type (shape ar)))
                           (S (S (S (S (S (S L)))))))
                 else instr c8 n) as H9n.
  { intros n. unfold c9. rewrite !instr_push_instruction, length_push_instruction.
    rewrite Hlen8. done. }
  assert (∀ n, instr c8 n
               = if decide (n = S (S (S (S (S (S L)))))) then
                   Some (with_op_name kSkippableAllReduce new_ar)
                 else if decide (n = S (S (S (S (S L))))) then
                   Some (CreateReshape (shape add) (S (S (S (S L)))))
                 else if decide (n = S (S (S (S L)))) then
                   Some (CreateConvert
                           (ChangeElementType (shape ar) (element_type (shape add)))
                           (S L))
                 else instr c5 n) as H8n.
  { intros n. destruct (decide (n = S (S (S (S (S (S L))))))) as [-> | E1];
      [exact Hnew8 |].
    unfold c8, c7, set_metadata_op_name.
    rewrite instr_update_instr, decide_False by done.
    rewrite instr_push_instruction, Hlen6, decide_False by done.
    unfold c6. rewrite !instr_push_instruction, length_push_instruction, Hlen5.
    done. }
  assert (∀ n, instr c5 n
               = if decide (n = allreduce_ins) then
                   Some (with_op_name kSkippableAllReduce (with_operands [S L] ar))
                 else if decide (n = root_instruction c) then
                   Some (with_operands (<[i := S (S (S L))]> (operands root)) root)
                 else if decide (n = S (S (S L))) then
                   Some (CreateReshape (shape add) (S (S L)))
                 else if decide (n = S (S L)) then
                   Some (CreateConvert
                           (ChangeElementType (shape ar) (element_type (shape add)))
                           allreduce_ins)
                 else if decide (n = S L) then
                   Some (CreateReshape (shape ar) L)
                 else if decide (n = L) then
                   Some (CreateConvert
                           (ChangeElementType (shape add) (element_type (shape ar)))
                           add_ins)
                 else instr c n) as H5n.
  { intros n. destruct (decide (n = allreduce_ins)) as [-> | E1]; [exact Har5 |].
    unfold c5, c4, set_metadata_op_name, ReplaceOperandWith.
    rewrite instr_update_instr, decide_False by done.
    rewrite instr_update_instr.
    assert (∀ m, m ≠ allreduce_ins →
              instr cD m
              = if decide (m = S (S (S L))) then
                  Some (CreateReshape (shape add) (S (S L)))
                else if decide (m = S (S L)) then
                  Some (CreateConvert
                          (ChangeElementType (shape ar) (element_type (shape add)))
                          allreduce_ins)
                else if decide (m = S L) then
                  Some (CreateReshape (shape ar) L)
                else if decide (m = L) then
                  Some (CreateConvert
                          (ChangeElementType (shape add) (element_type (shape ar)))
                          add_ins)
                else instr c m) as HDm.
    { intros m Hm. unfold cD.
      rewrite !instr_push_instruction, length_push_instruction, Hlen2.
      unfold c2, ReplaceOperandWith.
      rewrite instr_update_instr.
      rewrite (decide_False (P := m = allreduce_ins)) by done.
      unfold cA. rewrite !instr_push_instruction, length_push_instruction.
      done. }
    destruct (decide (n = root_instruction c)) as [-> | E2].
    - rewrite HDm by done. rewrite !decide_False by lia. by rewrite Hroot.
    - by apply HDm. }
  repeat split.
  - unfold c9, c8, c7, c6, c5, c4, cD, c2, cA, set_metadata_op_name,
      ReplaceOperandWith, ReplaceAllUsesWith, push_instruction.
    simpl. by repeat (rewrite root_update_instr; simpl).
  - by apply users_ReplaceAllUsesWith; lia.
  - exists (replace_uses allreduce_ins (S (S (S (S (S (S (S (S L))))))))
              (with_operands (<[i := S (S (S L))]> (operands root)) root)).
    split.
    + rewrite Hfinal, H9n, !decide_False by lia.
      rewrite H8n, !decide_False by lia.
      rewrite H5n, decide_False by done. by rewrite decide_True.
    + simpl. rewrite list_lookup_fmap, list_lookup_insert_eq by done. simpl.
      by rewrite decide_False by lia.
  - rewrite Hfinal, H9n, !decide_False by lia. rewrite H8n, !decide_False by lia.
    rewrite H5n, !decide_False by lia. rewrite decide_True by done. simpl.
    by rewrite Hreshape by lia.
  - eexists. rewrite Hfinal, H9n, !decide_False by lia.
    rewrite H8n, !decide_False by lia.
    rewrite H5n, !decide_False by lia. rewrite decide_True by done. simpl.
    unfold replace_uses, with_operands, CreateConvert. simpl.
    by rewrite decide_True.
  - rewrite Hfinal, H9n, decide_True by done. simpl. by rewrite Hreshape by lia.
  - eexists. rewrite Hfinal, H9n, decide_False by lia.
    rewrite decide_True by done. simpl. by rewrite Hconvert by lia.
  - rewrite Hfinal, H9n, !decide_False by lia. rewrite H8n, decide_True by done.
    simpl. unfold replace_uses, with_operands, new_ar. simpl.
    by rewrite decide_False by lia.
  - rewrite Hfinal, H9n, !decide_False by lia. rewrite H8n, decide_False by lia.
    rewrite decide_True by done. simpl. by rewrite Hreshape by lia.
  - eexists. rewrite Hfinal, H9n, !decide_False by lia.
    rewrite H8n, !decide_False by lia. rewrite decide_True by done. simpl.
    by rewrite Hconvert by lia.
  - rewrite Hfinal, H9n, !decide_False by lia. rewrite H8n, !decide_False by lia.
    rewrite H5n, !decide_False by lia. rewrite decide_True by done. simpl.
    by rewrite Hreshape by lia.
  - eexists. rewrite Hfinal, H9n, !decide_False by lia.
    rewrite H8n, !decide_False by lia.
    rewrite H5n, !decide_False by lia. rewrite decide_True by done. simpl.
    by rewrite Hconvert by done.
  - rewrite Hfinal, H9n, !decide_False by lia. rewrite H8n, !decide_False by lia.
    rewrite H5n, !decide_False by (done || lia). rewrite Hadd. simpl.
    eexists. split; [done |]. done.
  - eexists. split.
    + rewrite Hfinal, H9n, !decide_False by lia. rewrite H8n, !decide_False by lia.
      rewrite H5n, decide_True by done. simpl. done.
    + done.
Qed.

Lemma match_index_found c i add_ins add x allreduce_ins ar :
  mutable_operand_Z c (root_instruction c) i = Some add_ins →
  instr c add_ins = Some add → opcode add = kAdd →
  mutable_operand c add_ins 1 = Some x →
  GetAllReduce c x = Some (Some allreduce_ins) →
  length (users c allreduce_ins) = 1%nat →
  instr c allreduce_ins = Some ar → length (operands ar) = 1%nat →
  ∃ u, match_index c i = Some (Some (add_ins, allreduce_ins, u)) ∧
       is_Some (instr c u).
Proof.
  intros Hop Hadd Hopadd Hx Hfound Hu Har Hone.
  destruct (users c allreduce_ins) as [| u [| ? ?]] eqn:Husers; try done.
  exists u. split.
  - unfold match_index. rewrite Hop; simpl. rewrite Hadd; simpl.
    rewrite (decide_False (P := opcode add ≠ kAdd)) by (intros Hn; congruence).
    rewrite Hx; simpl. rewrite Hfound; simpl. rewrite Husers; simpl.
    rewrite Har; simpl.
    by rewrite (decide_False (P := length (operands ar) ≠ 1%nat))
      by (intros Hn; congruence).
  - assert (u ∈ users c allreduce_ins) as Hin by (rewrite Husers; by left).
    apply users_spec in Hin as (ins & -> & _). eauto.
Qed.

Lemma instr_RemoveInstruction_dead n c m :
  n ≠ root_instruction c → users c n = [] →
  instr (RemoveInstruction n c) m = if decide (m = n) then None else instr c m.
Proof.
  intros Hroot Hdead. unfold RemoveInstruction.
  rewrite decide_False by done. rewrite Hdead.
  unfold instr at 1. cbn [instructions with_instructions].
  case_decide as E.
  - subst m. destruct (decide (n < length (instructions c))%nat).
    + by rewrite list_lookup_insert_eq.
    + by rewrite lookup_ge_None_2 by (rewrite length_insert; lia).
  - by rewrite list_lookup_insert_ne.
Qed.

(** C1, as the code has it.  In a closed computation whose root is a
    tuple, let output [i] of the root be an Add whose operand 1 resolves
    to a collective with exactly one user and one operand.  If the
    collective has the element type of the Add, the run on the index
    list [[i]] completes with result true, leaves output position [i]
    fed by a bridged form of that collective, whose operand is a bridged
    form of the Add, and the collective carries the elidable marker.  If
    the element types differ (and the Add is an array), the run
    completes with result true, that collective is removed, and output
    position [i] is fed, through conversions and reshapes, by a new
    collective with the Add's shape, the old one's channel, groups and
    flags and the elidable marker, whose operand is, through conversions
    and reshapes, the Add. *)
Theorem accumulate_before_reduce c i add_ins add x allreduce_ins ar root :
  operands_closed c →
  instr c (root_instruction c) = Some root → opcode root = kTuple →
  mutable_operand_Z c (root_instruction c) i = Some add_ins →
  instr c add_ins = Some add → opcode add = kAdd →
  mutable_operand c add_ins 1 = Some x →
  GetAllReduce c x = Some (Some allreduce_ins) →
  length (users c allreduce_ins) = 1%nat →
  instr c allreduce_ins = Some ar → length (operands ar) = 1%nat →
  ∀ other,
    (SameElementType (shape ar) (shape add) = true →
     ∃ c', Run (mkContext true [i] other) (mkModule c)
           = Some (true, mkModule c') ∧
           reinserted c' i add_ins allreduce_ins) ∧
    (SameElementType (shape ar) (shape add) = false →
     IsArray (shape add) = true →
     ∃ c', Run (mkContext true [i] other) (mkModule c)
           = Some (true, mkModule c') ∧
           replaced c' i add_ins allreduce_ins add ar).
Proof.
  intros Hclosed Hroot Hoproot Hop Hadd Hopadd Hx Hfound Husers Har Hone other.
  destruct (match_index_found _ _ _ _ _ _ _ Hop Hadd Hopadd Hx Hfound Husers
              Har Hone) as (u & Hmatch & [ui Hu]).
  destruct (GetAllReduce_fuel_opcode _ _ _ _ Hfound) as (ar' & Har' & Hopar).
  assert (ar' = ar) as -> by congruence.
  destruct (detach_succeeds allreduce_ins u c ui ar Hclosed Hu Har Hone)
    as (c1 & Hdetach & Hclosed1 & Hkeeps).
  destruct Hkeeps as (Hr1 & _ & _ & Hk & _).
  destruct (Hk _ _ Hadd) as (add1 & Hadd1 & Hoa1 & Hsa1 & _).
  destruct (Hk _ _ Har)
    as (ar1 & Har1 & Hoar1 & Hsar1 & Hlar1 & Hch1 & Hrg1 & Hcl1 & Hgi1).
  destruct (Hk _ _ Hroot) as (root1 & Hroot1 & Hor1 & _ & Hlr1 & _).
  unfold mutable_operand_Z in Hop. rewrite Hroot in Hop. simpl in Hop.
  apply vector_at_Some in Hop as (Hi0 & Hilt & _).
  rewrite <- Hr1 in Hroot1.
  assert (∀ c' rm, reinsert (Z.to_nat i) add_ins allreduce_ins (c1, [])
                   = Some (c', rm) →
                   Run (mkContext true [i] other) (mkModule c)
                   = Some (true, mkModule (remove_all rm c'))) as Hrun.
  { intros c' rm Hre. unfold Run. simpl. unfold rewrite_index. simpl.
    rewrite Hmatch. simpl. rewrite Hdetach. simpl. rewrite Hre. done. }
  split.
  - intros Ht.
    destruct (reinsert_one_type c1 [] (Z.to_nat i) add_ins allreduce_ins
                add1 ar1 root1)
      as (c' & b1 & b2 & root' & Hre & Hr' & Hroot' & Hb2 & Hbr2 & Har5 & Hbr1
          & Hadd5); try congruence.
    exists c'. split; [by rewrite (Hrun _ _ Hre) |].
    exists b1, b2, (with_op_name kSkippableAllReduce (with_operands [b1] ar1)), add1.
    split.
    { unfold mutable_operand_Z. rewrite Hr', Hroot'. simpl.
      by apply vector_at_lookup. }
    repeat split; try done; simpl; congruence.
  - intros Ht Harr.
    destruct (reinsert_other_type c1 [] (Z.to_nat i) add_ins allreduce_ins
                add1 ar1 root1)
      as (c' & Hre & Hr' & Hdead & (root' & Hroot' & Hb2) & H3 & (sh2 & H2)
          & H8 & (sh7 & H7) & H6 & H5 & (sh4 & H4) & H1 & (sh0 & H0)
          & (add' & Hadd' & Hopadd') & (ar9 & Har9 & Hopar9));
      try congruence.
    set (L := length (instructions c1)) in *.
    pose proof (instr_lt _ _ _ Har1) as HarL. fold L in HarL.
    assert (allreduce_ins ≠ root_instruction c') as Hnr.
    { intros E. rewrite Hr' in E. rewrite <- E in Hroot1. congruence. }
    assert (∀ n, n ≠ allreduce_ins →
                 instr (RemoveInstruction allreduce_ins c') n = instr c' n)
      as Hrest.
    { intros n Hn. rewrite instr_RemoveInstruction_dead by done.
      by rewrite decide_False. }
    exists (RemoveInstruction allreduce_ins c').
    split; [by rewrite (Hrun _ _ Hre) |].
    split.
    { rewrite instr_RemoveInstruction_dead by done. by rewrite decide_True. }
    eexists (3 + L)%nat, (6 + L)%nat, _, (5 + L)%nat, add'.
    split.
    { unfold mutable_operand_Z. rewrite root_RemoveInstruction, Hr'.
      rewrite Hrest by (intros E; rewrite E in Hroot1; congruence).
      rewrite Hroot'. simpl. by apply vector_at_lookup. }
    split.
    { eapply fed_step; [rewrite Hrest by lia; exact H3 | by right | done |].
      eapply fed_step; [rewrite Hrest by lia; exact H2 | by left | done |].
      eapply fed_step; [rewrite Hrest by lia; exact H8 | by right | done |].
      eapply fed_step; [rewrite Hrest by lia; exact H7 | by left | done |].
      apply fed_here. }
    split; [rewrite Hrest by lia; exact H6 |].
    repeat split; simpl; try congruence.
    + eapply fed_step; [rewrite Hrest by lia; exact H5 | by right | done |].
      eapply fed_step; [rewrite Hrest by lia; exact H4 | by left | done |].
      eapply fed_step; [rewrite Hrest by lia; exact H1 | by right | done |].
      eapply fed_step; [rewrite Hrest by lia; exact H0 | by left | done |].
      apply fed_here.
    + rewrite Hrest; [done |]. intros E. rewrite E in Hadd1. congruence.
Qed.

Lemma accumulate_before_reduce_witness :
  (∃ c', Run (mkContext true [2] []) scenario_A = Some (true, mkModule c') ∧
         reinserted c' 2 3 2) ∧
  (∃ c', Run (mkContext true [0] []) scenario_D = Some (true, mkModule c') ∧
         replaced c' 0 4 2 (plain kAdd f32_4 [0%nat; 3%nat])
                  (collective bf16_4 [1%nat] (Some 7))).
Proof.
  split.
  - apply (accumulate_before_reduce (entry_computation scenario_A) 2 3
             (plain kAdd f32_4 [0%nat; 2%nat]) 2 2
             (collective f32_4 [1%nat] (Some 7))
             (plain kTuple (TupleShape [f32_4; f32_4; f32_4])
                    [4%nat; 4%nat; 3%nat])
             ltac:(apply closedb_operands_closed; reflexivity)
             eq_refl eq_refl eq_refl eq_refl eq_refl eq_refl eq_refl eq_refl
             eq_refl eq_refl []).
    reflexivity.
  - apply (accumulate_before_reduce (entry_computation scenario_D) 0 4
             (plain kAdd f32_4 [0%nat; 3%nat]) 3 2
             (collective bf16_4 [1%nat] (Some 7))
             (plain kTuple (TupleShape [f32_4]) [4%nat])
             ltac:(apply closedb_operands_closed; reflexivity)
             eq_refl eq_refl eq_refl eq_refl eq_refl eq_refl eq_refl eq_refl
             eq_refl eq_refl []); reflexivity.
Defined.

(** C1 as stated fails when the collective's element type is not the
    Add's.  In scenario D output 0 is [Add(p0, Convert(AllReduce(p1)))],
    the chain resolves to the collective in slot 2 and it has one user;
    after the run that collective is gone, and no collective at all
    feeds output 0 through one bridge: the replacement sits behind two. *)
Lemma accumulate_before_reduce_counterexample :
  let c := entry_computation scenario_D in
  (mutable_operand_Z c (root_instruction c) 0 = Some 4%nat ∧
   opcode <$> instr c 4 = Some kAdd ∧
   mutable_operand c 4 1 = Some 3%nat ∧
   GetAllReduce c 3 = Some (Some 2%nat) ∧
   length (users c 2) = 1%nat) ∧
  ∃ c', Run (mkContext true [0] []) scenario_D = Some (true, mkModule c') ∧
        ¬ reinserted c' 0 4 2 ∧
        ¬ (∃ allreduce_ins ar b2,
             mutable_operand_Z c' (root_instruction c') 0 = Some b2 ∧
             bridged c' b2 allreduce_ins ∧
             instr c' allreduce_ins = Some ar ∧ opcode ar = kAllReduce).
Proof.
  split; [repeat split; reflexivity |].
  exists (entry_computation scenario_D_after).
  split; [reflexivity |]. split.
  - intros (b1 & b2 & ar & add & _ & _ & Har & _). vm_compute in Har. discriminate.
  - intros (n & ar & b2 & Hop & Hb & Har & Hopar).
    vm_compute in Hop. injection Hop as <-.
    destruct Hb as [<- | [(sh & Hb) | (sh & sh' & v & Hb & Hv)]].
    + vm_compute in Har. injection Har as <-. discriminate.
    + vm_compute in Hb. injection Hb as <- <-.
      vm_compute in Har. injection Har as <-. discriminate.
    + vm_compute in Hb. injection Hb as <- <-.
      vm_compute in Hv. injection Hv as <- <-.
      vm_compute in Har. injection Har as <-. discriminate.
Qed.

(** ** The consumer side of a relocation *)

Lemma MaybeReshapeConvert_added src dst c r c' :
  MaybeReshapeConvert src dst c = Some (r, c') →
  (length (instructions c') ≤ length (instructions c) + 2)%nat ∧
  (r = src ∨ (length (instructions c) ≤ r < length (instructions c'))%nat) ∧
  (∀ n ins, (length (instructions c) ≤ n)%nat → instr c' n = Some ins →
            channel_id ins = None ∧ opcode ins ≠ kAllReduce ∧
            ∀ o, o ∈ operands ins →
                 o = src ∨ (length (instructions c) ≤ o < n)%nat).
Proof.
  intros H.
  assert (∃ ins, instr c src = Some ins) as [ins Hins].
  { unfold MaybeReshapeConvert in H. apply bind_Some in H as (ins & ? & _). eauto. }
  destruct (Compatible (shape ins) dst) eqn:Hc.
  { rewrite (MaybeReshapeConvert_compatible _ _ _ _ Hins Hc) in H.
    injection H as <- <-. split; [lia |]. split; [by left |].
    intros n ins' Hn Hi. rewrite instr_ge in Hi; done. }
  destruct (SameElementType (shape ins) dst) eqn:Ht.
  - rewrite (MaybeReshapeConvert_same_type _ _ _ _ Hins Hc Ht) in H.
    injection H as <- <-. rewrite length_push_instruction.
    split; [lia |]. split; [right; lia |].
    intros n ins' Hn Hi. rewrite instr_push_instruction in Hi.
    case_decide; [| rewrite instr_ge in Hi; done].
    injection Hi as <-. repeat split; [done |].
    intros o ->%list_elem_of_singleton. by left.
  - rewrite (MaybeReshapeConvert_other_type _ _ _ _ Hins Ht) in H.
    injection H as <- <-. rewrite !length_push_instruction.
    split; [lia |]. split; [right; lia |].
    intros n ins' Hn Hi. rewrite instr_push_instruction in Hi.
    rewrite length_push_instruction in Hi. case_decide.
    { injection Hi as <-. repeat split; [done |].
      intros o ->%list_elem_of_singleton. right. lia. }
    rewrite instr_push_instruction in Hi.
    case_decide; [| rewrite instr_ge in Hi; done].
    injection Hi as <-. repeat split; [done |].
    intros o ->%list_elem_of_singleton. by left.
Qed.

Lemma MaybeReshapeConvertTuple_single p sh c ops c' :
  MaybeReshapeConvertTuple [p] sh c = Some (ops, c') →
  ∃ r sh', ops = [r] ∧ MaybeReshapeConvert p sh' c = Some (r, c') ∧
           (IsTuple sh = false → sh' = sh).
Proof.
  unfold MaybeReshapeConvertTuple. intros H. inv_bind H.
  - destruct (tuple_shapes sh) as [| sh0 [| ? ?]] eqn:Hts; try done.
    simpl in H. inv_bind H. injection H as <- <-.
    exists n, sh0. split; [done |]. split; [done |]. congruence.
  - simpl in Hx. injection Hx as <-. injection H as <- <-.
    exists n, sh. done.
Qed.

Lemma rewired_refl p new N c : rewired p new N c c.
Proof.
  split; [apply keeps_refl |]. split; [done |].
  intros n ins ins' H1 H2. assert (ins' = ins) as -> by congruence.
  split; [done |]. by left.
Qed.

Lemma rewired_trans p new N c1 c2 c3 :
  p ≠ new → rewired p new N c1 c2 → rewired p new N c2 c3 → rewired p new N c1 c3.
Proof.
  intros Hne (Hk1 & Hl1 & H1) (Hk2 & Hl2 & H2).
  split; [by eapply keeps_trans |]. split; [congruence |].
  intros n ins ins3 Hn1 Hn3.
  destruct Hk1 as (_ & _ & _ & Hf & _).
  destruct (Hf _ _ Hn1) as (ins2 & Hn2 & _).
  destruct (H1 _ _ _ Hn1 Hn2) as [Ha1 Hb1].
  destruct (H2 _ _ _ Hn2 Hn3) as [Ha2 Hb2].
  split.
  - intros HN. rewrite Ha2, Ha1; done.
  - intros o Ho. destruct (Hb2 _ Ho) as [Ho2 | [-> Hp2]].
    + by apply Hb1.
    + right. split; [done |]. destruct (Hb1 _ Hp2) as [? | [? _]]; done.
Qed.

Lemma rewired_ReplaceOperandWith p new N c u ui i :
  (u < N)%nat → instr c u = Some ui → operands ui !! i = Some p →
  rewired p new N c (ReplaceOperandWith u i new c).
Proof.
  intros Hu Hui Hi. split; [apply keeps_ReplaceOperandWith |].
  unfold ReplaceOperandWith. split; [apply length_update_instr |].
  intros n ins ins' Hn. rewrite instr_update_instr. case_decide as E.
  - subst n. rewrite Hui. simpl. intros [= <-]. simpl.
    assert (ins = ui) as -> by congruence. split; [lia |].
    intros o [-> | Ho]%elem_of_insert_inv; [| by left].
    right. split; [done |]. by eapply list_elem_of_lookup_2.
  - intros Hn'. assert (ins' = ins) as -> by congruence.
    split; [done |]. by left.
Qed.

Lemma rewire_operands_rewired p new N sh u slots c c' :
  (u < N)%nat → p ≠ new →
  (∃ pi, instr c p = Some pi ∧ shape pi = sh) →
  (∃ ni, instr c new = Some ni ∧ shape ni = sh) →
  rewire_operands p new u slots c = Some c' →
  rewired p new N c c' ∧ (operands_closed c → operands_closed c').
Proof.
  intros Hu Hne. revert c.
  induction slots as [| i rest IH]; intros c Hp Hn H; simpl in H.
  { injection H as <-. split; [apply rewired_refl | done]. }
  apply bind_Some in H as (o & Ho & H). case_decide as Heq; [| by apply IH].
  subst o. destruct Hp as (pi & Hpi & Hshp). destruct Hn as (ni & Hni & Hshn).
  rewrite Hpi in H. simpl in H.
  rewrite (MaybeReshapeConvert_compatible c new ni (shape pi)) in H;
    [| done | rewrite Hshp, Hshn; apply Compatible_refl].
  simpl in H.
  unfold mutable_operand in Ho. apply bind_Some in Ho as (ui & Hui & Ho).
  pose proof (rewired_ReplaceOperandWith p new N c u ui i Hu Hui Ho) as Hrw.
  destruct (IH (ReplaceOperandWith u i new c)) as [Hrw' Hc']; try done.
  - destruct Hrw as ((_ & _ & _ & Hf & _) & _).
    destruct (Hf _ _ Hpi) as (pi' & ? & _ & ? & _). exists pi'. split; congruence.
  - destruct Hrw as ((_ & _ & _ & Hf & _) & _).
    destruct (Hf _ _ Hni) as (ni' & ? & _ & ? & _). exists ni'. split; congruence.
  - split; [by eapply rewired_trans |].
    intros Hc. apply Hc'. apply closed_ReplaceOperandWith; eauto.
Qed.

Lemma rewire_users_rewired p new N sh us c c' :
  (∀ u, u ∈ us → (u < N)%nat) → p ≠ new →
  (∃ pi, instr c p = Some pi ∧ shape pi = sh) →
  (∃ ni, instr c new = Some ni ∧ shape ni = sh) →
  rewire_users p new us c = Some c' →
  rewired p new N c c' ∧ (operands_closed c → operands_closed c').
Proof.
  intros Hus Hne. revert c Hus.
  induction us as [| u rest IH]; intros c Hus Hp Hn H; simpl in H.
  { injection H as <-. split; [apply rewired_refl | done]. }
  apply bind_Some in H as (ui & Hui & H). apply bind_Some in H as (c1 & H1 & H).
  destruct (rewire_operands_rewired p new N sh u _ c c1
              ltac:(apply Hus; by left) Hne Hp Hn H1) as [Hrw Hc1].
  destruct (IH c1) as [Hrw' Hc']; try done.
  - intros v Hv. apply Hus. by right.
  - destruct Hp as (pi & Hpi & Hshp). destruct Hrw as ((_ & _ & _ & Hf & _) & _).
    destruct (Hf _ _ Hpi) as (pi' & ? & _ & ? & _). exists pi'. split; congruence.
  - destruct Hn as (ni & Hni & Hshn). destruct Hrw as ((_ & _ & _ & Hf & _) & _).
    destruct (Hf _ _ Hni) as (ni' & ? & _ & ? & _). exists ni'. split; congruence.
  - split; [by eapply rewired_trans | eauto].
Qed.

Lemma rewired_added p new N c c' n :
  rewired p new N c c' → (N ≤ n)%nat → instr c' n = instr c n.
Proof.
  intros ((_ & _ & _ & Hf & Hb) & Hl & Hrw) Hn.
  destruct (instr c n) as [ins|] eqn:Hins.
  - destruct (Hf _ _ Hins) as (ins' & Hins' & _).
    destruct (Hrw _ _ _ Hins Hins') as [Heq _]. rewrite Hins'. f_equal.
    by apply Heq.
  - destruct (instr c' n) as [ins'|] eqn:Hins'; [| done].
    destruct (Hb n ins') as (ins & ? & _); [| done | congruence].
    apply instr_lt in Hins'. lia.
Qed.

Lemma relocate_into_anatomy old add_shape in_index next a new next' a' :
  relocate_into old add_shape in_index next a = Some (new, next', a') →
  ∃ p param r sh' a1,
    vector_at (param_instructions a) in_index = Some p ∧
    instr a p = Some param ∧
    SameElementType add_shape (shape param) = true ∧
    MaybeReshapeConvertTuple [p] (shape param) a = Some ([r], a1) ∧
    MaybeReshapeConvert p sh' a = Some (r, a1) ∧
    (IsTuple (shape param) = false → sh' = shape param) ∧
    new = length (instructions a1) ∧
    next' = match channel_id old with
            | Some _ => int64_wrap (next + 1)
            | None => next
            end ∧
    (∀ n, (length (instructions a) ≤ n)%nat → n ≠ new →
          instr a' n = instr a1 n) ∧
    instr a' new = Some (relocated_collective old (shape param) [r] next) ∧
    length (instructions a') = S new ∧
    (∀ n ins', (n < length (instructions a))%nat → instr a' n = Some ins' →
       ∃ ins, instr a n = Some ins ∧ same_signature ins ins' ∧
              ∀ o, o ∈ operands ins' →
                   o ∈ operands ins ∨ (o = new ∧ p ∈ operands ins)) ∧
    keeps a a' ∧
    (operands_closed a → operands_closed a').
Proof.
  intros H. pose proof (relocate_into_keeps _ _ _ _ _ _ _ _ H) as Hkeeps.
  unfold relocate_into in H.
  apply bind_Some in H as (p & Hp & H). apply bind_Some in H as (param & Hparam & H).
  destruct (SameElementType add_shape (shape param)) eqn:Ht; [| done]. simpl in H.
  set (channel := match channel_id old with Some _ => Some next | None => None end).
  set (next1 := match channel_id old with
                | Some _ => int64_wrap (next + 1)
                | None => next
                end).
  assert (∃ ops a1,
    MaybeReshapeConvertTuple [p] (shape param) a = Some (ops, a1) ∧
    rewire_users p (length (instructions a1)) (users a p)
      (set_metadata_op_name (length (instructions a1)) (metadata_op_name old)
         (push_instruction
            (CreateAllReduce (shape param) ops (replica_groups old)
               (constrain_layout old) channel (use_global_device_ids old)) a1))
    = Some a' ∧ new = length (instructions a1) ∧ next' = next1)
    as (ops & a1 & Hbridge & Hrewire & -> & ->).
  { unfold channel, next1. destruct (channel_id old); inv_bind H;
      injection H as <- <- <-; eauto 10. }
  clear H.
  destruct (MaybeReshapeConvertTuple_single _ _ _ _ _ Hbridge)
    as (r & sh' & -> & Hr & Hsh').
  pose proof (MaybeReshapeConvert_grows _ _ _ _ _ Hr) as Hg.
  pose proof (grows_length _ _ Hg) as Hlen.
  set (new := length (instructions a1)) in *.
  set (ar := CreateAllReduce (shape param) [r] (replica_groups old)
               (constrain_layout old) channel (use_global_device_ids old)) in *.
  set (a2 := push_instruction ar a1) in *.
  set (a3 := set_metadata_op_name new (metadata_op_name old) a2) in *.
  assert (instr a3 new = Some (relocated_collective old (shape param) [r] next))
    as Hnew3.
  { unfold a3, set_metadata_op_name. rewrite instr_update_instr, decide_True by done.
    unfold a2. rewrite instr_push_instruction, decide_True by done. done. }
  assert (∀ n, n ≠ new → instr a3 n = instr a1 n) as Hold3.
  { intros n Hn. unfold a3, set_metadata_op_name.
    rewrite instr_update_instr, decide_False by done.
    unfold a2. by rewrite instr_push_instruction, decide_False. }
  assert (length (instructions a3) = S new) as Hlen3.
  { unfold a3, set_metadata_op_name. rewrite length_update_instr.
    apply length_push_instruction. }
  assert (operands_closed a → operands_closed a3) as Hc3.
  { intros Hclosed.
    destruct (MaybeReshapeConvert_closed _ _ _ _ _ Hclosed Hr) as [Hc1 Hrlive].
    apply closed_set_metadata_op_name, closed_push_instruction; [done |].
    by intros o ->%list_elem_of_singleton. }
  assert (p ≠ new) as Hne by (apply instr_lt in Hparam; lia).
  destruct (rewire_users_rewired p new (length (instructions a)) (shape param)
              (users a p) a3 a') as [Hrewired Hc']; try done.
  { apply users_lt. }
  { exists param. split; [| done]. rewrite Hold3 by done.
    by eapply grows_instr_Some. }
  { eexists. split; [exact Hnew3 | done]. }
  exists p, param, r, sh', a1. repeat split; try done; [| | | | | | | | | eauto].
  - intros n Hn Hnn. rewrite (rewired_added _ _ _ _ _ n Hrewired) by done.
    by apply Hold3.
  - rewrite (rewired_added _ _ _ _ _ new Hrewired) by lia. done.
  - destruct Hrewired as (_ & -> & _). done.
  - intros n ins' Hn Hn'. destruct Hrewired as ((_ & _ & _ & _ & Hb) & _ & Hrw).
    destruct (Hb n ins') as (ins & Hins & Hsig); [lia | done |].
    destruct (Hrw _ _ _ Hins Hn') as [_ Hops].
    rewrite Hold3 in Hins by lia.
    rewrite (grows_instr a a1) in Hins by done.
    exists ins. done.
  - by destruct Hkeeps as (? & _).
  - by destruct Hkeeps as (_ & ? & _).
  - by destruct Hkeeps as (_ & _ & ? & _).
  - by destruct Hkeeps as (_ & _ & _ & ? & _).
  - by destruct Hkeeps as (_ & _ & _ & _ & ?).
Qed.

Lemma MaybeReshapeConvert_bridged src dst c r c' :
  MaybeReshapeConvert src dst c = Some (r, c') → bridged c' r src.
Proof.
  intros H.
  assert (∃ ins, instr c src = Some ins) as [ins Hins].
  { unfold MaybeReshapeConvert in H. apply bind_Some in H as (ins & ? & _). eauto. }
  destruct (Compatible (shape ins) dst) eqn:Hc.
  { rewrite (MaybeReshapeConvert_compatible _ _ _ _ Hins Hc) in H.
    injection H as <- <-. by left. }
  destruct (SameElementType (shape ins) dst) eqn:Ht.
  - rewrite (MaybeReshapeConvert_same_type _ _ _ _ Hins Hc Ht) in H.
    injection H as <- <-. right; left. exists dst.
    by rewrite instr_push_instruction, decide_True.
  - rewrite (MaybeReshapeConvert_other_type _ _ _ _ Hins Ht) in H.
    injection H as <- <-. right; right.
    exists dst, (ChangeElementType (shape ins) (element_type dst)),
           (length (instructions c)).
    split.
    + rewrite instr_push_instruction, length_push_instruction.
      by rewrite decide_True.
    + rewrite !instr_push_instruction, length_push_instruction.
      rewrite decide_False by lia. by rewrite decide_True.
Qed.

Lemma relocate_into_acyclic old add_shape in_index next a new next' a' :
  operands_closed a → acyclic a →
  relocate_into old add_shape in_index next a = Some (new, next', a') →
  acyclic a'.
Proof.
  intros Hclosed [rank Hrank] H.
  destruct (relocate_into_anatomy _ _ _ _ _ _ _ _ H)
    as (p & param & r & sh' & a1 & _ & Hparam & _ & _ & Hr & _ & -> & _
        & Hadded & Hnew & _ & Hold & _ & _).
  destruct (MaybeReshapeConvert_added _ _ _ _ _ Hr) as (Hlen & Hrr & Hops).
  set (N := length (instructions a)) in *.
  pose proof (instr_lt _ _ _ Hparam) as HpN. fold N in HpN.
  exists (λ n, if decide (n < N)%nat then (4 * rank n)%nat
               else (4 * rank p + 1 + (n - N))%nat).
  intros n ins' o Hn Ho. simpl.
  destruct (decide (n < N)%nat) as [Hlt | Hge].
  - destruct (Hold n ins' Hlt Hn) as (ins & Hins & _ & Hmem).
    destruct (Hmem o Ho) as [Ho' | [-> Hp]].
    + destruct (Hclosed _ _ _ Hins Ho') as [? Holive%instr_lt]. fold N in Holive.
      rewrite decide_True by done.
      pose proof (Hrank _ _ _ Hins Ho'). lia.
    + pose proof (Hrank _ _ _ Hins Hp).
      pose proof (MaybeReshapeConvert_grows _ _ _ _ _ Hr) as Hg%grows_length.
      fold N in Hg. rewrite decide_False by lia. lia.
  - assert (o = p ∨ (N ≤ o < n)%nat) as [-> | Hrange].
    { destruct (decide (n = length (instructions a1))) as [-> | Hnn].
      - rewrite Hnew in Hn. injection Hn as <-. simpl in Ho.
        apply list_elem_of_singleton in Ho as ->.
        destruct Hrr as [-> | ?]; [by left | right; lia].
      - rewrite Hadded in Hn by lia.
        destruct (Hops n ins' ltac:(lia) Hn) as (_ & _ & Hop). by apply Hop. }
    + rewrite decide_True by done. lia.
    + rewrite decide_False by lia. lia.
Qed.

(** The consumer's computation during the whole loop. *)
Lemma delay_index_consumer out_index in_index st st' :
  delay_index out_index in_index st = Some st' →
  (applygrad_entry st' = applygrad_entry st ∧
   next_channel_id st' = next_channel_id st) ∨
  ∃ old add_shape new,
    relocate_into old add_shape in_index (next_channel_id st)
                  (applygrad_entry st)
    = Some (new, next_channel_id st', applygrad_entry st').
Proof.
  unfold delay_index. intros H. apply bind_Some in H as (m & Hm & H).
  destruct m as [[[add_ins ar] u]|]; [| injection H as <-; by left].
  apply bind_Some in H as (c1 & Hc1 & H). case_decide.
  - inv_bind H. injection H as <-. by left.
  - right. unfold relocate in H. simpl in H. inv_bind H. injection H as <-.
    simpl. eauto.
Qed.

Lemma delay_loop_acyclic pairs st st' :
  operands_closed (applygrad_entry st) → acyclic (applygrad_entry st) →
  delay_loop pairs st = Some st' →
  operands_closed (applygrad_entry st') ∧ acyclic (applygrad_entry st').
Proof.
  revert st. induction pairs as [| [o i] rest IH]; intros st Hc Ha H; simpl in H.
  { by injection H as <-. }
  apply bind_Some in H as (st1 & H1 & H). apply (IH st1); [| | done].
  - destruct (delay_index_consumer _ _ _ _ H1)
      as [[-> _] | (old & sh & new & Hre)]; [done |].
    destruct (relocate_into_anatomy _ _ _ _ _ _ _ _ Hre)
      as (? & ? & ? & ? & ? & Hrest).
    by apply Hrest.
  - destruct (delay_index_consumer _ _ _ _ H1)
      as [[-> _] | (old & sh & new & Hre)]; [done |].
    by eapply relocate_into_acyclic.
Qed.

(** C10.  In a relocation the parameter's users are collected in the
    consumer computation as it is before anything is added, so the new
    collective (a later slot) is not among them; its operand stays what
    it was created with, a bridged form of the parameter (the parameter
    itself when the parameter is not a tuple), never the collective
    itself; and a closed, acyclic consumer computation is closed and
    acyclic after the relocation, and after the whole run of
    [GradAccCommDelay::RunOnModuleGroup]. *)
Theorem relocation_keeps_consumer_acyclic :
  (∀ old add_shape in_index next a new next' a',
     operands_closed a → acyclic a →
     relocate_into old add_shape in_index next a = Some (new, next', a') →
     ∃ p param ins b,
       vector_at (param_instructions a) in_index = Some p ∧
       instr a p = Some param ∧
       (new ∉ users a p) ∧
       instr a' new = Some ins ∧ opcode ins = kAllReduce ∧
       operands ins = [b] ∧ bridged a' b p ∧ (new ∉ operands ins) ∧
       (IsTuple (shape param) = false → b = p) ∧
       operands_closed a' ∧ acyclic a') ∧
  (∀ ctx backward applygrad changed backward' applygrad',
     operands_closed (entry_computation applygrad) →
     acyclic (entry_computation applygrad) →
     RunOnModuleGroup ctx (backward, applygrad)
       = Some (changed, (backward', applygrad')) →
     operands_closed (entry_computation applygrad') ∧
     acyclic (entry_computation applygrad')).
Proof.
  split.
  - intros old add_shape in_index next a new next' a' Hclosed Hacyclic H.
    pose proof (relocate_into_acyclic _ _ _ _ _ _ _ _ Hclosed Hacyclic H) as Ha'.
    destruct (relocate_into_anatomy _ _ _ _ _ _ _ _ H)
      as (p & param & r & sh' & a1 & Hp & Hparam & _ & _ & Hr & Hsh' & -> & _
          & Hadded & Hnew & _ & _ & _ & Hc').
    specialize (Hc' Hclosed).
    destruct (MaybeReshapeConvert_added _ _ _ _ _ Hr) as (Hlen & Hrr & Hops).
    pose proof (MaybeReshapeConvert_grows _ _ _ _ _ Hr) as Hg%grows_length.
    pose proof (instr_lt _ _ _ Hparam) as HpN.
    exists p, param, (relocated_collective old (shape param) [r] next), r.
    repeat split; try done.
    + intros Hin%users_lt. lia.
    + destruct Hrr as [-> | Hrange]; [by left |].
      destruct (MaybeReshapeConvert_bridged _ _ _ _ _ Hr)
        as [-> | [(sh & Hb) | (sh & sh1 & v & Hb & Hv)]]; [by left | |].
      * right; left. exists sh. rewrite Hadded by lia. done.
      * right; right. exists sh, sh1, v.
        destruct (Hops r _ ltac:(lia) Hb) as (_ & _ & Hop).
        destruct (Hop v) as [-> | Hv']; [by left | |].
        { pose proof (grows_instr _ _ p
                        (MaybeReshapeConvert_grows _ _ _ _ _ Hr) HpN) as E.
          rewrite Hv, Hparam in E. injection E as <-.
          destruct Hacyclic as [rank Hrank].
          pose proof (Hrank p _ p Hparam ltac:(by left)). lia. }
        rewrite !Hadded by lia. done.
    + simpl. intros Heq%list_elem_of_singleton.
      destruct Hrr as [-> | ?]; lia.
    + intros Hnt. rewrite (Hsh' Hnt) in Hr.
      rewrite (MaybeReshapeConvert_compatible a p param (shape param)) in Hr;
        [| done | apply Compatible_refl].
      by injection Hr as <- <-.
  - intros ctx backward applygrad changed backward' applygrad' Hc Ha.
    unfold RunOnModuleGroup.
    destruct (rewrite_for_grad_acc ctx); simpl; [| by intros [= <- <- <-]].
    case_decide as Hlen; [done |].
    intros H. apply bind_Some in H as (st & Hloop & H).
    injection H as <- <- <-. simpl.
    by apply (delay_loop_acyclic _ (mkDelay _ _ _ _) st Hc Ha Hloop).
Qed.

(** ** C4: channel identifiers of relocated collectives *)


(** One step past the largest [int64_t] is the smallest one. *)
Lemma int64_wrap_limit : int64_wrap (2 ^ 63 - 1 + 1) = - 2 ^ 63.
Proof. reflexivity. Qed.










Lemma relocation_keeps_consumer_acyclic_witness :
  (∃ p param ins b,
     vector_at (param_instructions (entry_computation consumer_unit)) 1 = Some p ∧
     instr (entry_computation consumer_unit) p = Some param ∧
     (5%nat ∉ users (entry_computation consumer_unit) p) ∧
     instr consumer_relocated 5 = Some ins ∧ opcode ins = kAllReduce ∧
     operands ins = [b] ∧ bridged consumer_relocated b p ∧
     (5%nat ∉ operands ins) ∧
     (IsTuple (shape param) = false → b = p) ∧
     operands_closed consumer_relocated ∧ acyclic consumer_relocated) ∧
  operands_closed (entry_computation two_relocations_after.2) ∧
  acyclic (entry_computation two_relocations_after.2).
Proof.
  destruct relocation_keeps_consumer_acyclic as [Hstep Hrun].
  assert (operands_closed (entry_computation consumer_unit)) as Hclosed
    by (apply closedb_operands_closed; reflexivity).
  assert (acyclic (entry_computation consumer_unit)) as Hacyclic
    by (apply topological_acyclic; reflexivity).
  split.
  - apply (Hstep (collective f32_4 [1%nat] (Some 7)) f32_4 1 13
                 (entry_computation consumer_unit) 5%nat 14 consumer_relocated
                 Hclosed Hacyclic).
    vm_compute. reflexivity.
  - apply (Hrun (mkContext true [0; 1] [1; 0]) producer_two consumer_unit true
                two_relocations_after.1 two_relocations_after.2 Hclosed Hacyclic).
    vm_compute. reflexivity.
Defined.

(** * Further properties of the bridge and of the passes *)

(** ** The conversion step of the bridge *)

(** X1.  [MaybeConvert] (lines 34-42) on a source that is present always
    returns.  A source with the target's element type is returned as it
    is and nothing is added.  Otherwise exactly one instruction is
    appended and returned, a conversion that reads the source, and
    nothing that was there is touched.  For a source that is not a tuple
    the result has the target's element type and the source's
    dimensions, so a second call on the result returns it and adds
    nothing. *)
Theorem MaybeConvert_result c src ins dst :
  instr c src = Some ins →
  ∃ r c' res,
    MaybeConvert src dst c = Some (r, c') ∧ grows c c' ∧
    instr c' r = Some res ∧
    (SameElementType (shape ins) dst = true → r = src ∧ c' = c) ∧
    (SameElementType (shape ins) dst = false →
       r = length (instructions c) ∧
       instructions c' = instructions c ++ [Some res] ∧
       opcode res = kConvert ∧ operands res = [src]) ∧
    (IsTuple (shape ins) = false →
       element_type (shape res) = element_type dst ∧
       structurally_compatible (shape res) (shape ins) = true ∧
       MaybeConvert r dst c' = Some (r, c')).
Proof.
  intros Hins. unfold MaybeConvert at 1. rewrite Hins. run_step.
  destruct (SameElementType (shape ins) dst) eqn:Ht.
  - exists src, c, ins. split; [done |]. split; [apply grows_refl |].
    split; [done |]. split; [done |]. split; [done |].
    intros Harr. destruct (shape ins) as [ty dims|] eqn:Hsh; [| done].
    split; [by apply bool_decide_eq_true in Ht |].
    split; [simpl; by apply bool_decide_eq_true |].
    unfold MaybeConvert. rewrite Hins. run_step. by rewrite Hsh, Ht.
  - eexists _, _, _. split; [done |].
    split; [apply grows_push_instruction |].
    split; [rewrite instr_push_instruction; by rewrite decide_True |].
    split; [done |]. split; [done |].
    intros Harr. destruct (shape ins) as [ty dims|] eqn:Hsh; [| done].
    split; [done |]. split; [simpl; by apply bool_decide_eq_true |].
    unfold MaybeConvert. rewrite instr_push_instruction.
    rewrite decide_True by done. run_step.
    unfold SameElementType. simpl. by rewrite bool_decide_true.
Qed.

Lemma MaybeConvert_result_witness :
  ∃ r c' res,
    MaybeConvert 1 f32_4 (entry_computation scenario_D) = Some (r, c') ∧
    grows (entry_computation scenario_D) c' ∧
    instr c' r = Some res ∧
    (SameElementType bf16_4 f32_4 = true →
       r = 1%nat ∧ c' = entry_computation scenario_D) ∧
    (SameElementType bf16_4 f32_4 = false →
       r = 6%nat ∧
       instructions c'
       = instructions (entry_computation scenario_D) ++ [Some res] ∧
       opcode res = kConvert ∧ operands res = [1%nat]) ∧
    (IsTuple bf16_4 = false →
       element_type (shape res) = F32 ∧
       structurally_compatible (shape res) bf16_4 = true ∧
       MaybeConvert r f32_4 c' = Some (r, c')).
Proof.
  apply (MaybeConvert_result (entry_computation scenario_D) 1
           (plain kParameter bf16_4 []) f32_4).
  reflexivity.
Defined.

(** ** What the bridge leaves alone *)

Lemma grows_old c c' n :
  grows c c' → (n < length (instructions c))%nat → instr c' n = instr c n.
Proof.
  intros (_ & _ & new & Hnew) Hn. unfold instr.
  by rewrite Hnew, lookup_app_l.
Qed.

Lemma MaybeReshapeConvert_added_opcode src dst c r c' n ins' :
  MaybeReshapeConvert src dst c = Some (r, c') →
  (length (instructions c) ≤ n)%nat → instr c' n = Some ins' →
  (opcode ins' = kConvert ∨ opcode ins' = kReshape) ∧
  length (operands ins') = 1%nat.
Proof.
  intros H Hn Hins'.
  assert (∃ ins, instr c src = Some ins) as [ins Hins].
  { unfold MaybeReshapeConvert in H. apply bind_Some in H as (ins & ? & _). eauto. }
  destruct (Compatible (shape ins) dst) eqn:Hc.
  { rewrite (MaybeReshapeConvert_compatible _ _ _ _ Hins Hc) in H.
    injection H as <- <-. apply instr_lt in Hins'. lia. }
  destruct (SameElementType (shape ins) dst) eqn:Ht.
  - rewrite (MaybeReshapeConvert_same_type _ _ _ _ Hins Hc Ht) in H.
    injection H as <- <-. rewrite instr_push_instruction in Hins'.
    case_decide; [injection Hins' as <-; split; [by right | done] |].
    apply instr_lt in Hins'. lia.
  - rewrite (MaybeReshapeConvert_other_type _ _ _ _ Hins Ht) in H.
    injection H as <- <-.
    rewrite !instr_push_instruction, length_push_instruction in Hins'.
    case_decide; [injection Hins' as <-; split; [by right | done] |].
    case_decide; [injection Hins' as <-; split; [by left | done] |].
    apply instr_lt in Hins'. lia.
Qed.

(** X2.  [MaybeReshapeConvert] (lines 44-51) never touches what is
    there: root, parameters and every instruction of the computation are
    as before; it appends at most two instructions, conversions or
    reshapes only, and returns a bridged form of the source.  When
    source and target have one element type but are not compatible
    (the dimensions differ), it appends exactly one instruction, a
    reshape of the source to the target shape, and returns it. *)
Theorem MaybeReshapeConvert_frame c src dst r c' :
  MaybeReshapeConvert src dst c = Some (r, c') →
  root_instruction c' = root_instruction c ∧
  param_instructions c' = param_instructions c ∧
  (∀ n, (n < length (instructions c))%nat → instr c' n = instr c n) ∧
  (length (instructions c) ≤ length (instructions c')
   ≤ length (instructions c) + 2)%nat ∧
  (∀ n ins', (length (instructions c) ≤ n)%nat → instr c' n = Some ins' →
             opcode ins' = kConvert ∨ opcode ins' = kReshape) ∧
  bridged c' r src ∧
  (∀ ins, instr c src = Some ins →
     SameElementType (shape ins) dst = true →
     Compatible (shape ins) dst = false →
     r = length (instructions c) ∧
     instructions c' = instructions c ++ [Some (CreateReshape dst src)]).
Proof.
  intros H. pose proof (MaybeReshapeConvert_grows _ _ _ _ _ H) as Hg.
  pose proof (MaybeReshapeConvert_bridged _ _ _ _ _ H) as Hb.
  pose proof (MaybeReshapeConvert_added _ _ _ _ _ H) as (Hlen & _).
  pose proof (grows_length _ _ Hg) as Hle.
  destruct Hg as (Hroot & Hparams & Hnew).
  split; [done |]. split; [done |].
  split; [intros n Hn; by apply grows_old |].
  split; [lia |]. split.
  - intros n ins' Hn Hins'.
    by destruct (MaybeReshapeConvert_added_opcode _ _ _ _ _ _ _ H Hn Hins').
  - split; [done |]. intros ins Hins Ht Hc.
    rewrite (MaybeReshapeConvert_same_type _ _ _ _ Hins Hc Ht) in H.
    by injection H as <- <-.
Qed.

Lemma MaybeReshapeConvert_frame_witness :
  let c := entry_computation scenario_A in
  ∃ r c',
    MaybeReshapeConvert 0 (ArrayShape F32 [2; 2]) c = Some (r, c') ∧
    root_instruction c' = root_instruction c ∧
    param_instructions c' = param_instructions c ∧
    (∀ n, (n < length (instructions c))%nat → instr c' n = instr c n) ∧
    (length (instructions c) ≤ length (instructions c')
     ≤ length (instructions c) + 2)%nat ∧
    (∀ n ins', (length (instructions c) ≤ n)%nat → instr c' n = Some ins' →
               opcode ins' = kConvert ∨ opcode ins' = kReshape) ∧
    bridged c' r 0 ∧
    (∀ ins, instr c 0 = Some ins →
       SameElementType (shape ins) (ArrayShape F32 [2; 2]) = true →
       Compatible (shape ins) (ArrayShape F32 [2; 2]) = false →
       r = length (instructions c) ∧
       instructions c'
       = instructions c ++ [Some (CreateReshape (ArrayShape F32 [2; 2]) 0)]).
Proof.
  intros c. eexists _, _. split; [vm_compute; reflexivity |].
  apply (MaybeReshapeConvert_frame c 0 (ArrayShape F32 [2; 2])).
  vm_compute. reflexivity.
Defined.

(** ** The bridge over a vector of operands *)

Lemma MaybeReshapeConvert_shape src dst c r c' :
  MaybeReshapeConvert src dst c = Some (r, c') →
  ∃ res, instr c' r = Some res ∧ Compatible (shape res) dst = true.
Proof.
  intros H.
  assert (∃ ins, instr c src = Some ins) as [ins Hins].
  { unfold MaybeReshapeConvert in H. apply bind_Some in H as (ins & ? & _). eauto. }
  destruct (Compatible (shape ins) dst) eqn:Hc.
  { rewrite (MaybeReshapeConvert_compatible _ _ _ _ Hins Hc) in H.
    injection H as <- <-. eauto. }
  destruct (SameElementType (shape ins) dst) eqn:Ht.
  - rewrite (MaybeReshapeConvert_same_type _ _ _ _ Hins Hc Ht) in H.
    injection H as <- <-. exists (CreateReshape dst src).
    rewrite instr_push_instruction, decide_True by done.
    split; [done | apply Compatible_refl].
  - rewrite (MaybeReshapeConvert_other_type _ _ _ _ Hins Ht) in H.
    injection H as <- <-. eexists.
    rewrite instr_push_instruction, length_push_instruction, decide_True by done.
    split; [done | apply Compatible_refl].
Qed.

Lemma bridged_grows c c' b n : grows c c' → bridged c b n → bridged c' b n.
Proof.
  intros Hg [-> | [(sh & H) | (sh & sh' & v & H & Hv)]].
  - by left.
  - right; left. exists sh. by eapply grows_instr_Some.
  - right; right. exists sh, sh', v. split; by eapply grows_instr_Some.
Qed.

(** The instruction [r] has a shape compatible with [sh]. *)
Lemma bridge_each_result src shapes c ret c' :
  bridge_each src shapes c = Some (ret, c') →
  length shapes = length src →
  Forall2 (bridged c') ret src ∧
  Forall2 (λ r sh, ∃ res, instr c' r = Some res ∧
                          Compatible (shape res) sh = true) ret shapes.
Proof.
  revert shapes c ret. induction src as [| s src IH]; intros shapes c ret H Hlen.
  - destruct shapes; [| done]. simpl in H. injection H as <- <-.
    split; constructor.
  - destruct shapes as [| sh shapes]; [done |]. simpl in H. inv_bind H.
    injection H as <- <-.
    destruct (IH _ _ _ Hx0) as [IH1 IH2]; [simpl in Hlen; lia |].
    pose proof (bridge_each_grows _ _ _ _ _ Hx0) as Hg.
    split; constructor; try done.
    + eapply bridged_grows; [done |]. by eapply MaybeReshapeConvert_bridged.
    + destruct (MaybeReshapeConvert_shape _ _ _ _ _ Hx) as (res & Hres & Hc).
      exists res. split; [by eapply grows_instr_Some | done].
Qed.

Lemma bridge_each_succeeds src shapes c :
  (∀ s, s ∈ src → is_Some (instr c s)) → length shapes = length src →
  is_Some (bridge_each src shapes c).
Proof.
  revert shapes c. induction src as [| s src IH]; intros shapes c Hlive Hlen.
  - simpl. eauto.
  - destruct shapes as [| sh shapes]; [done |]. simpl.
    destruct (MaybeReshapeConvert_succeeds s sh c) as [[r c1] Hr];
      [apply Hlive; by left |].
    rewrite Hr. run_step.
    destruct (IH shapes c1) as [[ret c2] Hret]; [| simpl in Hlen; lia |].
    + intros s' Hs'. eapply keeps_live; [| apply Hlive; by right].
      by eapply MaybeReshapeConvert_keeps.
    + rewrite Hret. run_step. eauto.
Qed.

(** X3.  [MaybeReshapeConvertTuple] (lines 53-66) accepts a tuple target
    with as many components as there are sources, or an array target
    with exactly one source; anything else (another count, a target
    that is neither tuple nor array) fails a CHECK.  When the call is
    accepted and the sources are present it returns; what it returns has
    one node per source, in order, each a bridged form of its source
    with a shape compatible with the target component at its position,
    and nothing that was there is touched. *)
Theorem MaybeReshapeConvertTuple_result src dst c :
  let targets := if IsTuple dst then tuple_shapes dst else [dst] in
  let accepted :=
    if IsTuple dst then length (tuple_shapes dst) = length src
    else IsArray dst = true ∧ length src = 1%nat in
  (¬ accepted → MaybeReshapeConvertTuple src dst c = None) ∧
  (accepted → (∀ s, s ∈ src → is_Some (instr c s)) →
   is_Some (MaybeReshapeConvertTuple src dst c)) ∧
  (∀ ret c', MaybeReshapeConvertTuple src dst c = Some (ret, c') →
     accepted ∧ grows c c' ∧
     Forall2 (bridged c') ret src ∧
     Forall2 (λ r sh, ∃ res, instr c' r = Some res ∧
                             Compatible (shape res) sh = true) ret targets).
Proof.
  intros targets accepted. unfold MaybeReshapeConvertTuple, targets, accepted.
  destruct (IsTuple dst) eqn:Htuple.
  - split; [intros Hn; by rewrite decide_False |]. split.
    + intros Hlen Hlive. rewrite decide_True by done.
      by apply bridge_each_succeeds.
    + intros ret c' H. case_decide as Hlen; [| done].
      split; [done |]. split; [by eapply bridge_each_grows |].
      by eapply bridge_each_result.
  - split; [| split].
    + intros Hn. destruct (IsArray dst); [| done].
      rewrite bool_decide_false; [done |]. intros Hone. by apply Hn.
    + intros [-> Hone] Hlive. rewrite bool_decide_true by done.
      destruct src as [| s [| ? ?]]; try done. run_step. simpl.
      destruct (MaybeReshapeConvert_succeeds s dst c) as [[r c1] Hr];
        [apply Hlive; by left |].
      rewrite Hr. run_step. eauto.
    + intros ret c' H. destruct (IsArray dst); [| done].
      case_bool_decide as Hone; [| done]. simpl in H.
      destruct src as [| s [| ? ?]]; try done. simpl in H. inv_bind H.
      injection H as <- <-. split; [done |].
      split; [by eapply MaybeReshapeConvert_grows |].
      split; constructor; try done;
        [by eapply MaybeReshapeConvert_bridged | by eapply MaybeReshapeConvert_shape].
Qed.

Lemma MaybeReshapeConvertTuple_result_witness :
  let c := entry_computation scenario_D in
  let dst := TupleShape [ArrayShape F32 [2; 2]; f32_4] in
  MaybeReshapeConvertTuple [0%nat; 1%nat] (TupleShape [f32_4]) c = None ∧
  ∃ ret c',
    MaybeReshapeConvertTuple [0%nat; 1%nat] dst c = Some (ret, c') ∧
    length (tuple_shapes dst) = 2%nat ∧ grows c c' ∧
    Forall2 (bridged c') ret [0%nat; 1%nat] ∧
    Forall2 (λ r sh, ∃ res, instr c' r = Some res ∧
                            Compatible (shape res) sh = true)
            ret (tuple_shapes dst).
Proof.
  intros c dst. split.
  - apply (proj1 (MaybeReshapeConvertTuple_result [0%nat; 1%nat]
                    (TupleShape [f32_4]) c)).
    simpl. lia.
  - eexists _, _. split; [vm_compute; reflexivity |].
    apply (proj2 (proj2 (MaybeReshapeConvertTuple_result [0%nat; 1%nat] dst c))).
    vm_compute. reflexivity.
Defined.

(** ** The text of the diagnostic query *)

Lemma append_String x (a b : string) : String x a +:+ b = String x (a +:+ b).
Proof. reflexivity. Qed.

Lemma append_empty_r (a : string) : a +:+ "" = a.
Proof. induction a as [| x a IH]; [done |]. by rewrite append_String, IH. Qed.

Lemma string_append_assoc (a b c : string) : (a +:+ b) +:+ c = a +:+ (b +:+ c).
Proof.
  induction a as [| x a IH]; [done |]. by rewrite !append_String, IH.
Qed.

Lemma dotless_pretty_N_go x s : dotless s = true → dotless (pretty_N_go x s) = true.
Proof.
  revert s. induction (N.lt_wf_0 x) as [x _ IH]; intros s Hs.
  assert (x = 0 ∨ 0 < x)%N as [-> | Hpos] by lia; [by rewrite pretty_N_go_0 |].
  rewrite pretty_N_go_step by done. apply IH; [by apply N.div_lt |].
  cbn [dotless]. rewrite Hs. unfold pretty_N_char. by repeat case_match.
Qed.

Lemma dotless_pretty_positive (p : positive) : dotless (pretty p) = true.
Proof.
  unfold pretty, pretty_positive, pretty, pretty_N.
  case_decide; [done | by apply dotless_pretty_N_go].
Qed.

Lemma dotless_pretty (z : Z) : dotless (pretty z) = true.
Proof.
  destruct z as [| p | p]; [done | apply dotless_pretty_positive |].
  unfold pretty, pretty_Z. rewrite append_String. cbn [dotless].
  apply dotless_pretty_positive.
Qed.

(** The first dot of a string splits it in one way only. *)
Lemma dotless_split s1 s2 t1 t2 :
  dotless s1 = true → dotless s2 = true →
  s1 +:+ String "." t1 = s2 +:+ String "." t2 → s1 = s2 ∧ t1 = t2.
Proof.
  revert s2. induction s1 as [| a s1 IH]; intros [| b s2] H1 H2 H;
    rewrite ?append_String in H; cbn [dotless] in *.
  - change (String "." t1 = String "." t2) in H. by injection H as ->.
  - change (String "." t1 = String b (s2 +:+ String "." t2)) in H.
    injection H as <- _. apply andb_true_iff in H2 as [H2 _].
    by rewrite Ascii.eqb_refl in H2.
  - change (String a (s1 +:+ String "." t1) = String "." t2) in H.
    injection H as -> _. apply andb_true_iff in H1 as [H1 _].
    by rewrite Ascii.eqb_refl in H1.
  - injection H as -> H. apply andb_true_iff in H1 as [_ H1].
    apply andb_true_iff in H2 as [_ H2].
    destruct (IH _ H1 H2 H) as [-> ->]. done.
Qed.

Lemma channel_list_string_inj ids ids' :
  channel_list_string ids = channel_list_string ids' → ids = ids'.
Proof.
  revert ids'. induction ids as [| id ids IH]; intros [| id' ids'] H;
    cbn [channel_list_string fold_right] in H.
  - done.
  - destruct (pretty id'); discriminate.
  - destruct (pretty id); discriminate.
  - change (pretty id +:+ String "." (channel_list_string ids)
            = pretty id' +:+ String "." (channel_list_string ids')) in H.
    apply dotless_split in H as [Hid H]; try apply dotless_pretty.
    apply (inj pretty) in Hid as ->. by rewrite (IH _ H).
Qed.

Lemma GetGradSyncChannelIds_aborted slots :
  fold_left
    (λ acc slot,
       ret ← acc;
       match slot with
       | Some inst =>
           if bool_decide (opcode inst = kAllReduce)
              && String.eqb (metadata_op_name inst) kSkippableAllReduce
           then id ← channel_id inst; Some (ret +:+ pretty id +:+ ".")
           else Some ret
       | None => Some ret
       end) slots None = None.
Proof. induction slots as [| slot slots IH]; [done | exact IH]. Qed.

Lemma GetGradSyncChannelIds_text slots ret :
  fold_left
    (λ acc slot,
       ret ← acc;
       match slot with
       | Some inst =>
           if bool_decide (opcode inst = kAllReduce)
              && String.eqb (metadata_op_name inst) kSkippableAllReduce
           then id ← channel_id inst; Some (ret +:+ pretty id +:+ ".")
           else Some ret
       | None => Some ret
       end) slots (Some ret)
  = ids ← mapM channel_id
            (filter (λ inst, opcode inst = kAllReduce ∧
                             metadata_op_name inst = kSkippableAllReduce)
                    (omap id slots));
    Some (ret +:+ channel_list_string ids).
Proof.
  revert ret. induction slots as [| slot slots IH]; intros ret.
  { simpl. by rewrite append_empty_r. }
  destruct slot as [inst|]; [| cbn [fold_left]; simpl; apply IH].
  cbn [fold_left omap list_omap id]. run_step.
  destruct (bool_decide (opcode inst = kAllReduce)
            && String.eqb (metadata_op_name inst) kSkippableAllReduce) eqn:Htag.
  - apply andb_true_iff in Htag as [Hop Hname].
    apply bool_decide_eq_true in Hop. apply String.eqb_eq in Hname.
    rewrite filter_cons_True by done. cbn [mapM]. 
    destruct (channel_id inst) as [id|]; run_step;
      [| apply GetGradSyncChannelIds_aborted].
    rewrite IH. destruct (mapM channel_id _) as [ids|]; [| done]. simpl.
    by rewrite !string_append_assoc.
  - rewrite filter_cons_False; [apply IH |]. intros [Hop Hname].
    apply andb_false_iff in Htag as [Ht | Ht].
    + by apply bool_decide_eq_false in Ht.
    + by apply String.eqb_neq in Ht.
Qed.

Lemma mapM_Some_fmap {A B} (f : A → option B) l k :
  mapM f l = Some k → f <$> l = Some <$> k.
Proof.
  intros H%mapM_Some_1. induction H as [| x y l k Hxy _ IH]; [done |].
  rewrite !fmap_cons. by rewrite Hxy, IH.
Qed.

(** X4.  The text of [GetGradSyncChannelIds] (lines 147-157) is a dot
    followed, for each tagged all-reduce in the order of the instruction
    list, by its channel identifier in decimal and a dot; with no tagged
    all-reduce it is the single dot.  The text can be read back: two
    modules with the same text have the same channel identifiers on
    their tagged all-reduces, in the same order. *)
Theorem GetGradSyncChannelIds_text_decodes :
  (∀ module,
     GetGradSyncChannelIds module
     = ids ← mapM channel_id (grad_sync_collectives module);
       Some ("." +:+ channel_list_string ids)) ∧
  (∀ module,
     grad_sync_collectives module = [] →
     GetGradSyncChannelIds module = Some ".") ∧
  (∀ module module' text,
     GetGradSyncChannelIds module = Some text →
     GetGradSyncChannelIds module' = Some text →
     channel_id <$> grad_sync_collectives module
     = channel_id <$> grad_sync_collectives module').
Proof.
  assert (∀ module,
     GetGradSyncChannelIds module
     = ids ← mapM channel_id (grad_sync_collectives module);
       Some ("." +:+ channel_list_string ids)) as Htext.
  { intros module. unfold GetGradSyncChannelIds, grad_sync_collectives.
    apply GetGradSyncChannelIds_text. }
  split; [exact Htext |]. split.
  - intros module Hnone. by rewrite Htext, Hnone.
  - intros module module' text H H'. rewrite Htext in H, H'.
    apply bind_Some in H as (ids & Hids & H).
    apply bind_Some in H' as (ids' & Hids' & H').
    injection H as <-. injection H' as H'.
    apply channel_list_string_inj in H' as ->.
    by rewrite (mapM_Some_fmap _ _ _ Hids), (mapM_Some_fmap _ _ _ Hids').
Qed.

Lemma GetGradSyncChannelIds_text_decodes_witness :
  GetGradSyncChannelIds scenario_A_after = Some ".7." ∧
  GetGradSyncChannelIds scenario_D_after = Some ".7." ∧
  channel_id <$> grad_sync_collectives scenario_A_after
  = channel_id <$> grad_sync_collectives scenario_D_after.
Proof.
  assert (GetGradSyncChannelIds scenario_A_after = Some ".7.") as HA
    by (vm_compute; reflexivity).
  assert (GetGradSyncChannelIds scenario_D_after = Some ".7.") as HD
    by (vm_compute; reflexivity).
  split; [exact HA |]. split; [exact HD |].
  exact (proj2 (proj2 GetGradSyncChannelIds_text_decodes) _ _ _ HA HD).
Defined.

(** ** What the passes add and what they keep *)

Lemma extends_refl c : extends c c.
Proof.
  split; [apply keeps_refl |]. split; [done |].
  intros n ins' Hn Hins'. apply instr_lt in Hins'. lia.
Qed.

Lemma extends_trans c1 c2 c3 : extends c1 c2 → extends c2 c3 → extends c1 c3.
Proof.
  intros (Hk1 & Hc1 & Ha1) (Hk2 & Hc2 & Ha2).
  split; [by eapply keeps_trans |]. split; [auto |].
  intros n ins' Hn Hins'.
  destruct (decide (n < length (instructions c2))%nat) as [Hlt | Hge].
  - destruct Hk2 as (_ & _ & _ & _ & Hb).
    destruct (Hb _ _ Hlt Hins') as (ins & Hins & Hop & _ & Hcount & _).
    rewrite Hop, Hcount. by eapply Ha1.
  - eapply Ha2; [| done]. lia.
Qed.

Lemma extends_same_length c c' :
  keeps c c' → (operands_closed c → operands_closed c') →
  length (instructions c') = length (instructions c) → extends c c'.
Proof.
  intros Hk Hc Hlen. split; [done |]. split; [done |].
  intros n ins' Hn Hins'. apply instr_lt in Hins'. lia.
Qed.

Lemma extends_ReplaceOperandWith n k new c :
  is_Some (instr c new) → extends c (ReplaceOperandWith n k new c).
Proof.
  intros Hlive. apply extends_same_length.
  - apply keeps_ReplaceOperandWith.
  - intros Hc. by apply closed_ReplaceOperandWith.
  - apply length_update_instr.
Qed.

Lemma extends_set_metadata_op_name n name c :
  extends c (set_metadata_op_name n name c).
Proof.
  apply extends_same_length.
  - apply keeps_set_metadata_op_name.
  - apply closed_set_metadata_op_name.
  - apply length_update_instr.
Qed.

Lemma closed_ReplaceAllUsesWith old new c :
  operands_closed c → is_Some (instr c new) →
  operands_closed (ReplaceAllUsesWith old new c).
Proof.
  intros Hc Hnew n ins' o Hn Ho. rewrite instr_ReplaceAllUsesWith in *.
  destruct (instr c n) as [ins|] eqn:Hins; [| done]. injection Hn as <-.
  simpl in Ho. apply list_elem_of_fmap in Ho as (y & -> & Hy).
  apply fmap_is_Some. case_decide; [done | by eapply Hc].
Qed.

Lemma extends_ReplaceAllUsesWith old new c :
  is_Some (instr c new) → extends c (ReplaceAllUsesWith old new c).
Proof.
  intros Hlive. apply extends_same_length.
  - apply keeps_ReplaceAllUsesWith.
  - intros Hc. by apply closed_ReplaceAllUsesWith.
  - unfold ReplaceAllUsesWith. simpl. by rewrite length_fmap.
Qed.

Lemma extends_MaybeReshapeConvert src dst c r c' :
  MaybeReshapeConvert src dst c = Some (r, c') → extends c c'.
Proof.
  intros H. split; [by eapply MaybeReshapeConvert_keeps |]. split.
  - intros Hc. by eapply MaybeReshapeConvert_closed.
  - intros n ins' Hn Hins'.
    destruct (MaybeReshapeConvert_added_opcode _ _ _ _ _ _ _ H Hn Hins')
      as [[? | ?] ?]; auto.
Qed.

Lemma MaybeReshapeConvert_live src dst c r c' :
  MaybeReshapeConvert src dst c = Some (r, c') → is_Some (instr c' r).
Proof. intros (res & -> & _)%MaybeReshapeConvert_shape. eauto. Qed.

(** Bridge, then put the bridged node into an operand slot. *)
Lemma extends_bridge_replace src dst c r c' n k :
  MaybeReshapeConvert src dst c = Some (r, c') →
  extends c (ReplaceOperandWith n k r c').
Proof.
  intros H. eapply extends_trans; [by eapply extends_MaybeReshapeConvert |].
  by eapply extends_ReplaceOperandWith, MaybeReshapeConvert_live.
Qed.

(** Bridge, then redirect every use of [old] to the bridged node. *)
Lemma extends_bridge_redirect src dst c r c' old :
  MaybeReshapeConvert src dst c = Some (r, c') →
  extends c (ReplaceAllUsesWith old r c').
Proof.
  intros H. eapply extends_trans; [by eapply extends_MaybeReshapeConvert |].
  by eapply extends_ReplaceAllUsesWith, MaybeReshapeConvert_live.
Qed.

Lemma bridge_each_extends src shapes c ret c' :
  bridge_each src shapes c = Some (ret, c') →
  extends c c' ∧ ∀ r, r ∈ ret → is_Some (instr c' r).
Proof.
  revert shapes c ret. induction src as [| s src IH]; intros shapes c ret H.
  - simpl in H. injection H as <- <-. split; [apply extends_refl |].
    intros r Hr. by apply elem_of_nil in Hr.
  - destruct shapes as [| sh shapes]; [done |]. simpl in H. inv_bind H.
    injection H as <- <-. destruct (IH _ _ _ Hx0) as [Hext Hlive]. split.
    + eapply extends_trans; [by eapply extends_MaybeReshapeConvert | done].
    + intros r [-> | Hr]%elem_of_cons; [| by apply Hlive].
      destruct Hext as [Hk _]. eapply keeps_live; [done |].
      by eapply MaybeReshapeConvert_live.
Qed.

Lemma MaybeReshapeConvertTuple_extends src dst c ret c' :
  MaybeReshapeConvertTuple src dst c = Some (ret, c') →
  extends c c' ∧ ∀ r, r ∈ ret → is_Some (instr c' r).
Proof.
  unfold MaybeReshapeConvertTuple. intros H. inv_bind H.
  - by eapply bridge_each_extends.
  - injection H as <- <-. split; [by eapply extends_MaybeReshapeConvert |].
    intros r ->%list_elem_of_singleton. by eapply MaybeReshapeConvert_live.
Qed.

(** Bridge the one operand, then add a collective over it. *)
Lemma extends_bridge_collective src dst c ret c' sh groups constrain channel ids :
  length src = 1%nat →
  MaybeReshapeConvertTuple src dst c = Some (ret, c') →
  extends c (push_instruction
               (CreateAllReduce sh ret groups constrain channel ids) c').
Proof.
  intros Hone H.
  destruct (MaybeReshapeConvertTuple_extends _ _ _ _ _ H) as [Hext Hlive].
  destruct src as [| p [| ? ?]]; try done.
  destruct (MaybeReshapeConvertTuple_single _ _ _ _ _ H) as (r & _ & -> & _).
  eapply extends_trans; [done |]. split; [| split].
  - apply grows_keeps, grows_push_instruction.
  - intros Hc. by apply closed_push_instruction.
  - intros n ins' Hn Hins'. rewrite instr_push_instruction in Hins'.
    case_decide; [injection Hins' as <-; auto |].
    apply instr_lt in Hins'. lia.
Qed.

Lemma detach_loop_extends ar u slots c c' :
  detach_loop ar u slots c = Some c' → extends c c'.
Proof.
  revert c. induction slots as [| i rest IH]; intros c H; simpl in H.
  - injection H as <-. apply extends_refl.
  - inv_bind H; [| by eapply IH].
    eapply extends_trans; [by eapply extends_bridge_replace | by eapply IH].
Qed.

Lemma detach_extends ar u c c' : detach ar u c = Some c' → extends c c'.
Proof.
  unfold detach. intros H. inv_bind H. by eapply detach_loop_extends.
Qed.

(** What a match of [match_index] stands for. *)
Lemma match_index_inv c i add_ins allreduce_ins allreduce_user :
  match_index c i = Some (Some (add_ins, allreduce_ins, allreduce_user)) →
  ∃ root add x ar,
    instr c (root_instruction c) = Some root ∧
    vector_at (operands root) i = Some add_ins ∧
    instr c add_ins = Some add ∧ opcode add = kAdd ∧
    operands add !! 1%nat = Some x ∧
    GetAllReduce c x = Some (Some allreduce_ins) ∧
    users c allreduce_ins = [allreduce_user] ∧
    instr c allreduce_ins = Some ar ∧ opcode ar = kAllReduce ∧
    length (operands ar) = 1%nat.
Proof.
  unfold match_index, mutable_operand_Z, mutable_operand. intros H.
  apply bind_Some in H as (a & Ha & H).
  apply bind_Some in Ha as (root & Hroot & Ha).
  apply bind_Some in H as (add & Hadd & H).
  case_decide as Hop; [done |].
  apply bind_Some in H as (x & Hx & H). rewrite Hadd in Hx. simpl in Hx.
  apply bind_Some in H as (found & Hfound & H).
  destruct found as [ar_ins|]; [| done].
  case_decide as Hone; [done |].
  apply bind_Some in H as (ar & Har & H).
  case_decide as Hcount; [done |].
  apply bind_Some in H as (u & Hu & H). injection H as <- <- <-.
  destruct (GetAllReduce_fuel_opcode _ _ _ _ Hfound) as (ar' & Har' & Hopar).
  assert (ar' = ar) as -> by congruence.
  exists root, add, x, ar. repeat split; try done.
  destruct (users c ar_ins) as [| u' [| ? ?]]; simpl in *; try done.
  by injection Hu as ->.
Qed.

Lemma reinsert_extends i add_ins ar c rm c' rm' ai :
  instr c ar = Some ai → length (operands ai) = 1%nat →
  reinsert i add_ins ar (c, rm) = Some (c', rm') → extends c c'.
Proof.
  intros Har Hone H. unfold reinsert in H.
  apply bind_Some in H as (ar0 & _ & H).
  apply bind_Some in H as ([b1 c1] & Hb1 & H).
  apply bind_Some in H as (add & _ & H).
  apply bind_Some in H as ([b2 c3] & Hb2 & H).
  apply bind_Some in H as (old & Hold & H).
  apply bind_Some in H as (add5 & _ & H).
  assert (extends c (set_metadata_op_name ar kSkippableAllReduce
                       (ReplaceOperandWith (root_instruction c) i b2 c3)))
    as Hext5.
  { eapply extends_trans; [by eapply extends_bridge_replace |].
    eapply extends_trans; [by eapply extends_bridge_replace |].
    apply extends_set_metadata_op_name. }
  destruct (SameElementType (shape old) (shape add5)); simpl in H.
  { by injection H as <- <-. }
  apply bind_Some in H as ([ops c6] & Hops & H).
  apply bind_Some in H as ([b3 c9] & Hb3 & H). injection H as <- <-.
  assert (length (operands old) = 1%nat) as Hone'.
  { destruct Hext5 as ((_ & _ & _ & Hk & _) & _).
    destruct (Hk _ _ Har) as (old' & Hold' & _ & _ & Hl & _).
    assert (old' = old) as -> by congruence. congruence. }
  eapply extends_trans; [done |].
  eapply extends_trans; [by eapply extends_bridge_collective |].
  eapply extends_trans; [apply extends_set_metadata_op_name |].
  by eapply extends_bridge_redirect.
Qed.

Lemma rewrite_index_extends i st st' :
  rewrite_index i st = Some st' → extends st.1 st'.1.
Proof.
  unfold rewrite_index. intros H. apply bind_Some in H as (m & Hm & H).
  destruct m as [[[add_ins ar] u]|].
  - apply bind_Some in H as (c1 & Hc1 & H). destruct st' as [c' rm'].
    destruct (match_index_inv _ _ _ _ _ Hm)
      as (_ & _ & _ & ai & _ & _ & _ & _ & _ & _ & _ & Hai & _ & Hone).
    destruct (detach_extends _ _ _ _ Hc1) as ((_ & _ & _ & Hk & _) & _).
    destruct (Hk _ _ Hai) as (ai1 & Hai1 & _ & _ & Hl & _).
    eapply extends_trans; [by eapply detach_extends |].
    eapply reinsert_extends; [exact Hai1 | congruence | done].
  - injection H as <-. apply extends_refl.
Qed.

Lemma rewrite_loop_extends indices st st' :
  rewrite_loop indices st = Some st' → extends st.1 st'.1.
Proof.
  revert st. induction indices as [| i rest IH]; intros st H; simpl in H.
  - injection H as <-. apply extends_refl.
  - apply bind_Some in H as (st1 & H1 & H).
    eapply extends_trans; [by eapply rewrite_index_extends | by eapply IH].
Qed.

Lemma reinsert_scheduled i add_ins ar c rm c' rm' :
  reinsert i add_ins ar (c, rm) = Some (c', rm') →
  rm' = rm ∨ rm' = rm ++ [ar].
Proof.
  unfold reinsert. intros H. inv_bind H; injection H as <- <-; auto.
Qed.

(** Everything scheduled for removal is an all-reduce. *)
Lemma keeps_collectives c c' (rm : list nat) :
  keeps c c' →
  Forall (λ n, ∃ ins, instr c n = Some ins ∧ opcode ins = kAllReduce) rm →
  Forall (λ n, ∃ ins, instr c' n = Some ins ∧ opcode ins = kAllReduce) rm.
Proof.
  intros (_ & _ & _ & Hk & _) Hrm. eapply Forall_impl; [done |].
  intros n (ins & Hins & Hop). destruct (Hk _ _ Hins) as (ins' & Hins' & Hop' & _).
  exists ins'. split; [done | congruence].
Qed.

Lemma rewrite_index_scheduled i st st' :
  rewrite_index i st = Some st' →
  Forall (λ n, ∃ ins, instr st.1 n = Some ins ∧ opcode ins = kAllReduce) st.2 →
  Forall (λ n, ∃ ins, instr st'.1 n = Some ins ∧ opcode ins = kAllReduce) st'.2.
Proof.
  intros H Hrm. pose proof (rewrite_index_keeps _ _ _ H) as Hk.
  unfold rewrite_index in H. apply bind_Some in H as (m & Hm & H).
  destruct m as [[[add_ins ar] u]|]; [| by injection H as <-].
  apply bind_Some in H as (c1 & Hc1 & H). destruct st' as [c' rm'].
  destruct (reinsert_scheduled _ _ _ _ _ _ _ H) as [-> | ->]; simpl in *.
  { by eapply keeps_collectives. }
  apply Forall_app. split; [by eapply keeps_collectives |].
  apply Forall_singleton.
  destruct (match_index_inv _ _ _ _ _ Hm)
    as (_ & _ & _ & ai & _ & _ & _ & _ & _ & _ & _ & Hai & Hop & _).
  destruct Hk as (_ & _ & _ & Hk & _).
  destruct (Hk _ _ Hai) as (ins' & Hins' & Hop' & _).
  exists ins'. split; [done | congruence].
Qed.

Lemma rewrite_loop_scheduled indices st st' :
  rewrite_loop indices st = Some st' →
  Forall (λ n, ∃ ins, instr st.1 n = Some ins ∧ opcode ins = kAllReduce) st.2 →
  Forall (λ n, ∃ ins, instr st'.1 n = Some ins ∧ opcode ins = kAllReduce) st'.2.
Proof.
  revert st. induction indices as [| i rest IH]; intros st H Hrm; simpl in H.
  - by injection H as <-.
  - apply bind_Some in H as (st1 & H1 & H).
    eapply IH; [done |]. by eapply rewrite_index_scheduled.
Qed.

Lemma closed_RemoveInstruction n c :
  operands_closed c → operands_closed (RemoveInstruction n c).
Proof.
  intros Hc m ins o Hm Ho.
  destruct (instr_RemoveInstruction n c m) as [E | (_ & _ & _ & E)];
    [| congruence].
  rewrite E in Hm. destruct (Hc _ _ _ Hm Ho) as [io Hio].
  destruct (instr_RemoveInstruction n c o) as [E' | (-> & _ & Hu & _)];
    [rewrite E'; eauto |].
  assert (m ∈ users c n) as Hin by (apply users_spec; eauto).
  rewrite Hu in Hin. by apply elem_of_nil in Hin.
Qed.

Lemma remove_all_effect rm c :
  param_instructions (remove_all rm c) = param_instructions c ∧
  (operands_closed c → operands_closed (remove_all rm c)) ∧
  ∀ n, instr (remove_all rm c) n = instr c n ∨
       (instr (remove_all rm c) n = None ∧ n ∈ rm).
Proof.
  unfold remove_all. revert c. induction rm as [| r rm IH]; intros c.
  { split; [done |]. split; [done |]. by left. }
  simpl. destruct (IH (RemoveInstruction r c)) as (Hp & Hc & Hn).
  split; [| split].
  - rewrite Hp. unfold RemoveInstruction. case_decide; [done |].
    by destruct (users c r).
  - intros Hclosed. by apply Hc, closed_RemoveInstruction.
  - intros n. destruct (Hn n) as [E | [E Hin]].
    + rewrite E.
      destruct (instr_RemoveInstruction r c n) as [E' | (-> & _ & _ & E')];
        [by left | right]. split; [done | by left].
    + right. split; [done | by right].
Qed.

Lemma rewritten_intro c c1 rm :
  extends c c1 →
  Forall (λ n, ∃ ins, instr c1 n = Some ins ∧ opcode ins = kAllReduce) rm →
  rewritten c (remove_all rm c1).
Proof.
  intros ((Hroot & Hparams & _ & Hf & Hb) & _ & Ha) Hrm.
  destruct (remove_all_effect rm c1) as (Hp & _ & Hn).
  split; [by rewrite (proj1 (remove_all_root rm c1)) |].
  split; [by rewrite Hp |]. split.
  - intros n ins Hins. destruct (Hf _ _ Hins) as (ins1 & Hins1 & Hsig).
    destruct (Hn n) as [E | [E Hin]].
    + left. exists ins1. by rewrite E.
    + right. split; [done |]. rewrite Forall_forall in Hrm.
      destruct (Hrm _ Hin) as (ins1' & Hins1' & Hop).
      destruct Hsig as (Hop1 & _). congruence.
  - intros n ins' Hins'. destruct (Hn n) as [E | [E _]]; [| congruence].
    rewrite E in Hins'.
    destruct (decide (n < length (instructions c))%nat) as [Hlt | Hge].
    + left. by eapply Hb.
    + right. split; [lia |]. eapply Ha; [| done]. lia.
Qed.

Lemma rewire_operands_extends p new u slots c c' :
  rewire_operands p new u slots c = Some c' → extends c c'.
Proof.
  revert c. induction slots as [| i rest IH]; intros c H; simpl in H.
  - injection H as <-. apply extends_refl.
  - inv_bind H; [| by eapply IH].
    eapply extends_trans; [by eapply extends_bridge_replace | by eapply IH].
Qed.

Lemma rewire_users_extends p new us c c' :
  rewire_users p new us c = Some c' → extends c c'.
Proof.
  revert c. induction us as [| u rest IH]; intros c H; simpl in H.
  - injection H as <-. apply extends_refl.
  - inv_bind H.
    eapply extends_trans; [by eapply rewire_operands_extends | by eapply IH].
Qed.

Lemma relocate_into_extends old add_shape in_index next a new next' a' :
  relocate_into old add_shape in_index next a = Some (new, next', a') →
  extends a a'.
Proof.
  unfold relocate_into. intros H. inv_bind H.
  destruct (channel_id old); inv_bind H; injection H as <- <- <-.
  all: eapply extends_trans;
         [eapply extends_bridge_collective; [| done]; done |].
  all: eapply extends_trans; [apply extends_set_metadata_op_name |].
  all: by eapply rewire_users_extends.
Qed.

Lemma delay_index_extends out_index in_index st st' :
  delay_index out_index in_index st = Some st' →
  extends (backward_entry st) (backward_entry st') ∧
  extends (applygrad_entry st) (applygrad_entry st') ∧
  (Forall (λ n, ∃ ins, instr (backward_entry st) n = Some ins ∧
                       opcode ins = kAllReduce) (to_remove st) →
   Forall (λ n, ∃ ins, instr (backward_entry st') n = Some ins ∧
                       opcode ins = kAllReduce) (to_remove st')).
Proof.
  unfold delay_index. intros H. apply bind_Some in H as (m & Hm & H).
  destruct m as [[[add_ins ar] u]|].
  2:{ injection H as <-. split; [apply extends_refl |].
      split; [apply extends_refl | done]. }
  apply bind_Some in H as (c1 & Hc1 & H).
  destruct (match_index_inv _ _ _ _ _ Hm)
    as (_ & _ & _ & ai & _ & _ & _ & _ & _ & _ & _ & Hai & Hop & Hone).
  pose proof (detach_extends _ _ _ _ Hc1) as Hd.
  assert (∃ ai1, instr c1 ar = Some ai1 ∧ length (operands ai1) = 1%nat)
    as (ai1 & Hai1 & Hone1).
  { destruct Hd as ((_ & _ & _ & Hk & _) & _).
    destruct (Hk _ _ Hai) as (ai1 & Hai1 & _ & _ & Hl & _).
    exists ai1. split; [done | congruence]. }
  case_decide.
  - apply bind_Some in H as ([c2 rm] & Hre & H). injection H as <-. simpl.
    assert (extends (backward_entry st) c2) as Hext
      by (eapply extends_trans; [done | by eapply reinsert_extends]).
    split; [done |]. split; [apply extends_refl |]. intros Hrm.
    destruct (reinsert_scheduled _ _ _ _ _ _ _ Hre) as [-> | ->].
    { eapply keeps_collectives; [apply Hext | done]. }
    apply Forall_app. split; [eapply keeps_collectives; [apply Hext | done] |].
    apply Forall_singleton. destruct Hext as ((_ & _ & _ & Hk & _) & _).
    destruct (Hk _ _ Hai) as (ins' & Hins' & Hop' & _).
    exists ins'. split; [done | congruence].
  - unfold relocate in H. simpl in H. inv_bind H. injection H as <-. simpl.
    assert (extends (backward_entry st)
              (set_metadata_op_name ar kDelayedAllReduce c1)) as Hext
      by (eapply extends_trans; [done | apply extends_set_metadata_op_name]).
    split; [done |]. split; [by eapply relocate_into_extends |]. intros Hrm.
    apply Forall_app. split; [eapply keeps_collectives; [apply Hext | done] |].
    apply Forall_singleton. destruct Hext as ((_ & _ & _ & Hk & _) & _).
    destruct (Hk _ _ Hai) as (ins' & Hins' & Hop' & _).
    exists ins'. split; [done | congruence].
Qed.

Lemma delay_loop_extends pairs st st' :
  delay_loop pairs st = Some st' →
  extends (backward_entry st) (backward_entry st') ∧
  extends (applygrad_entry st) (applygrad_entry st') ∧
  (Forall (λ n, ∃ ins, instr (backward_entry st) n = Some ins ∧
                       opcode ins = kAllReduce) (to_remove st) →
   Forall (λ n, ∃ ins, instr (backward_entry st') n = Some ins ∧
                       opcode ins = kAllReduce) (to_remove st')).
Proof.
  revert st. induction pairs as [| [o i] rest IH]; intros st H; simpl in H.
  - injection H as <-. split; [apply extends_refl |].
    split; [apply extends_refl | done].
  - apply bind_Some in H as (st1 & H1 & H).
    destruct (delay_index_extends _ _ _ _ H1) as (Hb1 & Ha1 & Hrm1).
    destruct (IH _ H) as (Hb & Ha & Hrm).
    split; [by eapply extends_trans |]. split; [by eapply extends_trans | auto].
Qed.

(** X5.  What [GradAccRewrite::Run] (lines 68-145) and
    [GradAccCommDelay::RunOnModuleGroup] (lines 161-295 of the group
    revision) can do to a computation is bounded: root and parameter
    list stay; every instruction that was there is still there with its
    opcode, shape, operand count, channel, replica groups and flags, or
    it is gone and was an all-reduce; and whatever sits in a new slot is
    a conversion, a reshape or an all-reduce with one operand.  In the
    consumer module nothing is removed at all. *)
Theorem passes_rewrite_conservatively :
  (∀ ctx module changed module',
     Run ctx module = Some (changed, module') →
     rewritten (entry_computation module) (entry_computation module')) ∧
  (∀ ctx backward applygrad changed backward' applygrad',
     RunOnModuleGroup ctx (backward, applygrad)
       = Some (changed, (backward', applygrad')) →
     rewritten (entry_computation backward) (entry_computation backward') ∧
     rewritten (entry_computation applygrad) (entry_computation applygrad') ∧
     ∀ n, is_Some (instr (entry_computation applygrad) n) →
          is_Some (instr (entry_computation applygrad') n)).
Proof.
  split.
  - intros ctx module changed module' H. unfold Run in H.
    destruct (rewrite_for_grad_acc ctx); simpl in H.
    2:{ injection H as <- <-. apply (rewritten_intro _ _ []); [| done].
        apply extends_refl. }
    apply bind_Some in H as ([entry rm] & Hloop & H). injection H as <- <-.
    simpl. apply rewritten_intro.
    + apply (rewrite_loop_extends _ _ _ Hloop).
    + by apply (rewrite_loop_scheduled _ _ _ Hloop).
  - intros ctx backward applygrad changed backward' applygrad' H.
    unfold RunOnModuleGroup in H. destruct (rewrite_for_grad_acc ctx); simpl in H.
    2:{ injection H as <- <- <-.
        split; [apply (rewritten_intro _ _ []); [apply extends_refl | done] |].
        split; [apply (rewritten_intro _ _ []); [apply extends_refl | done] |].
        done. }
    case_decide; [done |]. apply bind_Some in H as (st & Hloop & H).
    injection H as <- <- <-. simpl.
    destruct (delay_loop_extends _ _ _ Hloop) as (Hb & Ha & Hrm). simpl in *.
    split; [apply rewritten_intro; [done | by apply Hrm] |].
    split; [apply (rewritten_intro _ _ []); [done | done] |].
    intros n Hn. destruct Ha as [Hk _]. by eapply keeps_live.
Qed.

Lemma passes_rewrite_conservatively_witness :
  rewritten (entry_computation scenario_D) (entry_computation scenario_D_after) ∧
  rewritten (entry_computation scenario_A) (entry_computation group_after.1) ∧
  rewritten (entry_computation consumer_unit) (entry_computation group_after.2).
Proof.
  destruct passes_rewrite_conservatively as [Hrun Hgroup].
  split.
  - apply (Hrun (mkContext true [0] []) scenario_D true scenario_D_after).
    vm_compute. reflexivity.
  - destruct (Hgroup (mkContext true [2] [1]) scenario_A consumer_unit true
                group_after.1 group_after.2) as (Hb & Ha & _);
      [vm_compute; reflexivity |].
    split; [exact Hb | exact Ha].
Defined.

(** X6.  The passes leave no dangling operand: when every operand of the
    module they are given resolves to an instruction that is present, so
    does every operand of the module they return, new instructions and
    removals included. *)
Theorem passes_keep_operands_closed :
  (∀ ctx module changed module',
     Run ctx module = Some (changed, module') →
     operands_closed (entry_computation module) →
     operands_closed (entry_computation module')) ∧
  (∀ ctx backward applygrad changed backward' applygrad',
     RunOnModuleGroup ctx (backward, applygrad)
       = Some (changed, (backward', applygrad')) →
     (operands_closed (entry_computation backward) →
      operands_closed (entry_computation backward')) ∧
     (operands_closed (entry_computation applygrad) →
      operands_closed (entry_computation applygrad'))).
Proof.
  split.
  - intros ctx module changed module' H Hc. unfold Run in H.
    destruct (rewrite_for_grad_acc ctx); simpl in H; [| by injection H as <- <-].
    apply bind_Some in H as ([entry rm] & Hloop & H). injection H as <- <-.
    simpl. apply remove_all_effect.
    destruct (rewrite_loop_extends _ _ _ Hloop) as (_ & Hclosed & _). auto.
  - intros ctx backward applygrad changed backward' applygrad' H.
    unfold RunOnModuleGroup in H. destruct (rewrite_for_grad_acc ctx); simpl in H.
    2:{ by injection H as <- <- <-. }
    case_decide; [done |]. apply bind_Some in H as (st & Hloop & H).
    injection H as <- <- <-. simpl.
    destruct (delay_loop_extends _ _ _ Hloop)
      as ((_ & Hb & _) & (_ & Ha & _) & _). simpl in *.
    split; [| done]. intros Hc. apply remove_all_effect. auto.
Qed.

Lemma passes_keep_operands_closed_witness :
  operands_closed (entry_computation scenario_D_after) ∧
  operands_closed (entry_computation two_relocations_after.1) ∧
  operands_closed (entry_computation two_relocations_after.2).
Proof.
  destruct passes_keep_operands_closed as [Hrun Hgroup].
  split.
  - apply (Hrun (mkContext true [0] []) scenario_D true scenario_D_after).
    + vm_compute. reflexivity.
    + apply closedb_operands_closed. reflexivity.
  - destruct (Hgroup (mkContext true [0; 1] [1; 0]) producer_two consumer_unit
                true two_relocations_after.1 two_relocations_after.2)
      as [Hb Ha]; [vm_compute; reflexivity |].
    split; [apply Hb | apply Ha]; apply closedb_operands_closed; reflexivity.
Defined.

(** ** Operand edges under graph surgery *)

Lemma users_edge c n m : m ∈ users c n ↔ edge c n m.
Proof. apply users_spec. Qed.

Lemma users_nil_edge c n : users c n = [] ↔ ∀ m, ¬ edge c n m.
Proof.
  split.
  - intros Hu m Hm%users_edge. rewrite Hu in Hm. by apply elem_of_nil in Hm.
  - intros Hn. destruct (users c n) as [| m l] eqn:E; [done |].
    destruct (Hn m). apply users_edge. rewrite E. by left.
Qed.

Lemma edge_lt c o n : edge c o n → (n < length (instructions c))%nat.
Proof. intros (ins & Hins & _). by eapply instr_lt. Qed.

Lemma edge_closed c o n :
  operands_closed c → edge c o n → (o < length (instructions c))%nat.
Proof.
  intros Hc (ins & Hins & Ho). destruct (Hc _ _ _ Hins Ho) as [oi Hoi].
  by eapply instr_lt.
Qed.

Lemma edge_ReplaceOperandWith n k new c o m :
  edge (ReplaceOperandWith n k new c) o m → edge c o m ∨ (o = new ∧ m = n).
Proof.
  intros (ins' & Hm & Ho). unfold ReplaceOperandWith in Hm.
  rewrite instr_update_instr in Hm. case_decide as E; [subst m | left; by exists ins'].
  destruct (instr c n) as [ins|] eqn:Hins; [| done]. injection Hm as <-.
  simpl in Ho. apply elem_of_insert_inv in Ho as [-> | Ho]; [by right | left].
  by exists ins.
Qed.

(** An instruction with one operand reads nothing else once its
    operand 0 is replaced. *)
Lemma edge_ReplaceOperandWith_single n new c ins o :
  instr c n = Some ins → length (operands ins) = 1%nat →
  edge (ReplaceOperandWith n 0 new c) o n → o = new.
Proof.
  intros Hins Hone (ins' & Hm & Ho). unfold ReplaceOperandWith in Hm.
  rewrite instr_update_instr, decide_True, Hins in Hm by done.
  injection Hm as <-. simpl in Ho.
  destruct (operands ins) as [| x [| ? ?]]; try done. simpl in Ho.
  by apply list_elem_of_singleton in Ho.
Qed.

Lemma edge_set_metadata_op_name n name c o m :
  edge (set_metadata_op_name n name c) o m → edge c o m.
Proof.
  intros (ins' & Hm & Ho). unfold set_metadata_op_name in Hm.
  rewrite instr_update_instr in Hm. case_decide as E; [subst m | by exists ins'].
  destruct (instr c n) as [ins|] eqn:Hins; [| done]. injection Hm as <-.
  by exists ins.
Qed.

Lemma edge_push_instruction ins c o m :
  edge (push_instruction ins c) o m →
  edge c o m ∨ (m = length (instructions c) ∧ o ∈ operands ins).
Proof.
  intros (ins' & Hm & Ho). rewrite instr_push_instruction in Hm.
  case_decide; [injection Hm as <-; by right | left; by exists ins'].
Qed.

Lemma edge_ReplaceAllUsesWith old new c o m :
  edge (ReplaceAllUsesWith old new c) o m →
  ∃ o0, edge c o0 m ∧ o = if decide (o0 = old) then new else o0.
Proof.
  intros (ins' & Hm & Ho). rewrite instr_ReplaceAllUsesWith in Hm.
  destruct (instr c m) as [ins|] eqn:Hins; [| done]. injection Hm as <-.
  simpl in Ho. apply list_elem_of_fmap in Ho as (o0 & -> & Ho0).
  exists o0. split; [by exists ins | done].
Qed.

Lemma edge_RemoveInstruction n c o m :
  edge (RemoveInstruction n c) o m → edge c o m.
Proof.
  intros (ins' & Hm & Ho).
  destruct (instr_RemoveInstruction n c m) as [E | (_ & _ & _ & E)];
    [| congruence].
  rewrite E in Hm. by exists ins'.
Qed.

Lemma edge_remove_all rm c o m : edge (remove_all rm c) o m → edge c o m.
Proof.
  unfold remove_all. revert c. induction rm as [| r rm IH]; intros c; [done |].
  simpl. intros H%IH. by eapply edge_RemoveInstruction.
Qed.

(** The edges the bridge adds start at the source or at a new node and
    end at a later new node. *)
Lemma edge_MaybeReshapeConvert src dst c r c' o m :
  MaybeReshapeConvert src dst c = Some (r, c') → edge c' o m →
  edge c o m ∨
  ((length (instructions c) ≤ m)%nat ∧
   (o = src ∨ (length (instructions c) ≤ o < m)%nat)).
Proof.
  intros H Hedge.
  assert (∃ ins, instr c src = Some ins) as [ins Hins].
  { unfold MaybeReshapeConvert in H. apply bind_Some in H as (ins & ? & _). eauto. }
  destruct (Compatible (shape ins) dst) eqn:Hc.
  { rewrite (MaybeReshapeConvert_compatible _ _ _ _ Hins Hc) in H.
    injection H as <- <-. by left. }
  destruct (SameElementType (shape ins) dst) eqn:Ht.
  - rewrite (MaybeReshapeConvert_same_type _ _ _ _ Hins Hc Ht) in H.
    injection H as <- <-.
    apply edge_push_instruction in Hedge as [? | [-> Ho]]; [by left | right].
    simpl in Ho. apply list_elem_of_singleton in Ho as ->. auto.
  - rewrite (MaybeReshapeConvert_other_type _ _ _ _ Hins Ht) in H.
    injection H as <- <-.
    apply edge_push_instruction in Hedge as [Hedge | [-> Ho]].
    + apply edge_push_instruction in Hedge as [? | [-> Ho]]; [by left | right].
      simpl in Ho. apply list_elem_of_singleton in Ho as ->. auto.
    + right. rewrite length_push_instruction. simpl in Ho.
      apply list_elem_of_singleton in Ho as ->. split; [lia | right; lia].
Qed.

(** ** Rankings under graph surgery *)

Lemma ranked_edge rank c :
  ranked rank c ↔ ∀ o n, edge c o n → (rank o < rank n)%nat.
Proof.
  split.
  - intros Hr o n (ins & Hins & Ho). by eapply Hr.
  - intros Hr n ins o Hins Ho. apply Hr. by exists ins.
Qed.

(** The bridge fits into a ranking that is stretched by four: the new
    nodes sit just above the source. *)
Lemma bridge_ranked rank c src dst b c1 :
  ranked rank c → operands_closed c →
  MaybeReshapeConvert src dst c = Some (b, c1) →
  ∃ rank1,
    ranked rank1 c1 ∧
    (∀ n, (n < length (instructions c))%nat → rank1 n = (4 * rank n)%nat) ∧
    (4 * rank src ≤ rank1 b ≤ 4 * rank src + 2)%nat ∧
    (b = src ∨ (length (instructions c) ≤ b)%nat).
Proof.
  intros Hr Hc H. set (L := length (instructions c)).
  assert (src < L)%nat as Hsrc.
  { unfold MaybeReshapeConvert in H. apply bind_Some in H as (ins & Hins & _).
    by eapply instr_lt. }
  destruct (MaybeReshapeConvert_added _ _ _ _ _ H) as (Hlen & Hb & _).
  fold L in Hlen, Hb.
  exists (λ n, if decide (n < L)%nat then 4 * rank n
               else 4 * rank src + 1 + (n - L))%nat.
  split; [| split; [| split]].
  - apply ranked_edge. intros o m Hedge.
    destruct (edge_MaybeReshapeConvert _ _ _ _ _ _ _ H Hedge) as [He | [Hm Ho]].
    + pose proof (edge_lt _ _ _ He). pose proof (edge_closed _ _ _ Hc He).
      rewrite !decide_True by done.
      apply ranked_edge with (o := o) (n := m) in Hr; [lia | done].
    + fold L in Hm, Ho. rewrite (decide_False (P := (m < L)%nat)) by lia.
      destruct Ho as [-> | Ho].
      * rewrite decide_True by done. lia.
      * rewrite decide_False by lia. lia.
  - intros n Hn. by rewrite decide_True.
  - destruct Hb as [-> | Hb].
    + rewrite decide_True by done. lia.
    + rewrite decide_False by lia. lia.
  - destruct Hb as [-> | Hb]; [by left | right; lia].
Qed.

Lemma ranked_ReplaceOperandWith rank n k new c :
  ranked rank c → (rank new < rank n)%nat →
  ranked rank (ReplaceOperandWith n k new c).
Proof.
  rewrite !ranked_edge. intros Hr Hlt o m Hedge.
  apply edge_ReplaceOperandWith in Hedge as [He | [-> ->]]; [by apply Hr | done].
Qed.

Lemma ranked_set_metadata_op_name rank n name c :
  ranked rank c → ranked rank (set_metadata_op_name n name c).
Proof.
  rewrite !ranked_edge. intros Hr o m Hedge%edge_set_metadata_op_name.
  by apply Hr.
Qed.

(** A new instruction takes a rank above its operands. *)
Lemma ranked_push_instruction rank ins c v :
  ranked rank c → operands_closed c →
  (∀ o, o ∈ operands ins → is_Some (instr c o) ∧ (rank o < v)%nat) →
  ranked (λ n, if decide (n = length (instructions c)) then v else rank n)
         (push_instruction ins c).
Proof.
  rewrite !ranked_edge. intros Hr Hc Hins o m Hedge.
  apply edge_push_instruction in Hedge as [He | [-> Ho]].
  - pose proof (edge_lt _ _ _ He). pose proof (edge_closed _ _ _ Hc He).
    rewrite !decide_False by lia. by apply Hr.
  - destruct (Hins _ Ho) as [[oi Hoi%instr_lt] Hlt].
    rewrite decide_False by lia. by rewrite decide_True.
Qed.

(** An instruction without users and with one operand can take any rank
    above its new operand. *)
Lemma ranked_rerank_replace rank n new c ins v :
  ranked rank c → users c n = [] →
  instr c n = Some ins → length (operands ins) = 1%nat →
  new ≠ n → (rank new < v)%nat →
  ranked (λ m, if decide (m = n) then v else rank m)
         (ReplaceOperandWith n 0 new c).
Proof.
  rewrite !ranked_edge. intros Hr Hu Hins Hone Hne Hlt o m Hedge.
  rewrite users_nil_edge in Hu.
  destruct (decide (m = n)) as [-> | Hm].
  - apply (edge_ReplaceOperandWith_single _ _ _ _ _ Hins Hone) in Hedge as ->.
    by rewrite decide_False.
  - apply edge_ReplaceOperandWith in Hedge as [He | [_ ->]]; [| done].
    rewrite decide_False; [by apply Hr |]. intros ->. by eapply Hu.
Qed.

Lemma ranked_ReplaceAllUsesWith rank old new c :
  ranked rank c → (rank new ≤ rank old)%nat →
  ranked rank (ReplaceAllUsesWith old new c).
Proof.
  rewrite !ranked_edge. intros Hr Hle o m Hedge.
  apply edge_ReplaceAllUsesWith in Hedge as (o0 & He & ->).
  apply Hr in He. case_decide; [subst; lia | done].
Qed.

Lemma ranked_remove_all rank rm c : ranked rank c → ranked rank (remove_all rm c).
Proof.
  rewrite !ranked_edge. intros Hr o m Hedge%edge_remove_all. by apply Hr.
Qed.

(** ** Detaching the collective *)

Lemma MaybeReshapeConvert_cases src dst c b c1 :
  MaybeReshapeConvert src dst c = Some (b, c1) →
  (b = src ∧ c1 = c) ∨
  (b = length (instructions c) ∧
   c1 = push_instruction (CreateReshape dst src) c) ∨
  (∃ sh, b = S (length (instructions c)) ∧
         c1 = push_instruction (CreateReshape dst (length (instructions c)))
                (push_instruction (CreateConvert sh src) c)).
Proof.
  intros H.
  assert (∃ ins, instr c src = Some ins) as [ins Hins].
  { unfold MaybeReshapeConvert in H. apply bind_Some in H as (ins & ? & _). eauto. }
  destruct (Compatible (shape ins) dst) eqn:Hc.
  { rewrite (MaybeReshapeConvert_compatible _ _ _ _ Hins Hc) in H.
    injection H as <- <-. by left. }
  destruct (SameElementType (shape ins) dst) eqn:Ht.
  - rewrite (MaybeReshapeConvert_same_type _ _ _ _ Hins Hc Ht) in H.
    injection H as <- <-. right; by left.
  - rewrite (MaybeReshapeConvert_other_type _ _ _ _ Hins Ht) in H.
    injection H as <- <-. right; right. by eexists.
Qed.

(** The bridged node stays a bridged form of its source as long as the
    slots the bridge filled are left alone. *)
Lemma bridged_stays src dst c b c1 c' :
  MaybeReshapeConvert src dst c = Some (b, c1) →
  (∀ n, (length (instructions c) ≤ n < length (instructions c1))%nat →
        instr c' n = instr c1 n) →
  bridged c' b src.
Proof.
  intros H Hsame.
  destruct (MaybeReshapeConvert_cases _ _ _ _ _ H)
    as [[-> ->] | [[-> ->] | (sh & -> & ->)]].
  - by left.
  - right; left. exists dst. rewrite Hsame.
    + by rewrite instr_push_instruction, decide_True.
    + rewrite length_push_instruction. lia.
  - right; right. exists dst, sh, (length (instructions c)). split.
    + rewrite Hsame.
      * by rewrite instr_push_instruction, length_push_instruction, decide_True.
      * rewrite !length_push_instruction. lia.
    + rewrite Hsame.
      * rewrite !instr_push_instruction, length_push_instruction.
        rewrite decide_False by lia. by rewrite decide_True.
      * rewrite !length_push_instruction. lia.
Qed.

Lemma detach_loop_anatomy ar u x ai slots c c' :
  instr c ar = Some ai → operands ai = [x] → u ≠ ar → x ≠ ar →
  NoDup slots →
  detach_loop ar u slots c = Some c' →
  (∀ n, (n < length (instructions c))%nat → n ≠ u → instr c' n = instr c n) ∧
  (∀ n ins', (length (instructions c) ≤ n)%nat → instr c' n = Some ins' →
             ar ∉ operands ins') ∧
  (∀ ui, instr c u = Some ui →
     ∃ ui', instr c' u = Some ui' ∧
       ∀ k, (k ∈ slots → operands ui !! k = Some ar →
             ∃ b, operands ui' !! k = Some b ∧ bridged c' b x ∧ b ≠ ar) ∧
            ((k ∉ slots ∨ operands ui !! k ≠ Some ar) →
             operands ui' !! k = operands ui !! k)).
Proof.
  intros Har Hx Hu Hxar. revert c Har.
  induction slots as [| i rest IH]; intros c Har Hnodup H; simpl in H.
  { injection H as <-. split; [done |]. split.
    - intros n ins' Hn Hins'%instr_lt. lia.
    - intros ui Hui. exists ui. split; [done |]. intros k. split; [| done].
      intros Hk. by apply elem_of_nil in Hk. }
  apply NoDup_cons in Hnodup as [Hi Hnodup].
  apply bind_Some in H as (o & Ho & H).
  unfold mutable_operand in Ho. apply bind_Some in Ho as (ui0 & Hui0 & Ho).
  case_decide as Hoar.
  2:{ destruct (IH c Har Hnodup H) as (Hf & Hg & Hh).
      split; [done |]. split; [done |].
      intros ui Hui. destruct (Hh ui Hui) as (ui' & Hui' & Hk).
      exists ui'. split; [done |]. intros k. destruct (Hk k) as [Hk1 Hk2].
      assert (ui = ui0) as -> by congruence. split.
      - intros [-> | Hin]%elem_of_cons Hkar; [congruence | by apply Hk1].
      - intros [Hnin | Hne]; apply Hk2; [left | by right].
        intros Hin. apply Hnin. by right. }
  subst o. apply bind_Some in H as (x0 & Hx0 & H).
  rewrite (mutable_operand_eq _ _ _ _ Har), Hx in Hx0. injection Hx0 as <-.
  apply bind_Some in H as (oi & Hoi & H). rewrite Har in Hoi. injection Hoi as <-.
  apply bind_Some in H as ([b c1] & Hb & H).
  pose proof (MaybeReshapeConvert_grows _ _ _ _ _ Hb) as Hg1.
  pose proof (grows_length _ _ Hg1) as Hlen1.
  pose proof (instr_lt _ _ _ Har) as HarL.
  pose proof (instr_lt _ _ _ Hui0) as HuL.
  destruct (MaybeReshapeConvert_added _ _ _ _ _ Hb) as (_ & Hbpos & Hnew).
  assert (b ≠ ar) as Hbar by (destruct Hbpos as [-> | ?]; [done | lia]).
  set (c2 := ReplaceOperandWith u i b c1) in *.
  assert (length (instructions c2) = length (instructions c1)) as Hlen2
    by apply length_update_instr.
  assert (∀ n, n ≠ u → instr c2 n = instr c1 n) as Hc2.
  { intros n Hn. unfold c2, ReplaceOperandWith. rewrite instr_update_instr.
    by rewrite decide_False. }
  assert (instr c2 ar = Some ai) as Har2.
  { rewrite Hc2 by done. by rewrite (grows_old _ _ _ Hg1). }
  assert (instr c2 u
          = Some (with_operands (<[i := b]> (operands ui0)) ui0)) as Hu2.
  { unfold c2, ReplaceOperandWith. rewrite instr_update_instr.
    rewrite decide_True by done. by rewrite (grows_old _ _ _ Hg1), Hui0. }
  destruct (IH c2 Har2 Hnodup H) as (Hf & Hg & Hh).
  split; [| split].
  - intros n Hn Hnu. rewrite Hf by (done || lia).
    rewrite Hc2 by done. by apply grows_old.
  - intros n ins' Hn Hins'.
    destruct (decide (n < length (instructions c2))%nat) as [Hlt | Hge].
    + rewrite Hf in Hins' by (done || lia). rewrite Hc2 in Hins' by lia.
      destruct (Hnew _ _ Hn Hins') as (_ & _ & Hops).
      intros Hin. destruct (Hops _ Hin) as [-> | ?]; [done | lia].
    + eapply Hg; [| done]. lia.
  - intros ui Hui. assert (ui = ui0) as -> by congruence.
    destruct (Hh _ Hu2) as (ui' & Hui' & Hk).
    exists ui'. split; [done |]. intros k. destruct (Hk k) as [Hk1 Hk2].
    simpl in Hk1, Hk2. split.
    + intros [-> | Hin]%elem_of_cons Hkar.
      * exists b. split; [| split; [| done]].
        -- rewrite Hk2 by (by left). apply list_lookup_insert_eq.
           by eapply lookup_lt_Some.
        -- eapply bridged_stays; [exact Hb |]. intros n Hn.
           rewrite Hf by lia. apply Hc2. lia.
      * apply Hk1; [done |]. rewrite list_lookup_insert_ne; [done |].
        intros ->. done.
    + intros Hcase. assert (k ≠ i) as Hki.
      { intros ->. destruct Hcase as [Hnin | Hne]; [| congruence].
        apply Hnin. by left. }
      rewrite Hk2.
      * by rewrite list_lookup_insert_ne.
      * destruct Hcase as [Hnin | Hne].
        -- left. intros Hin. apply Hnin. by right.
        -- right. by rewrite list_lookup_insert_ne.
Qed.

Lemma detach_anatomy c ar u ai x ui c' :
  users c ar = [u] → instr c ar = Some ai → operands ai = [x] → x ≠ ar →
  instr c u = Some ui → detach ar u c = Some c' →
  users c' ar = [] ∧ instr c' ar = Some ai ∧
  (∀ n, (n < length (instructions c))%nat → n ≠ u → instr c' n = instr c n) ∧
  ∃ ui', instr c' u = Some ui' ∧ same_signature ui ui' ∧
    ∀ k, (operands ui !! k = Some ar →
          ∃ b, operands ui' !! k = Some b ∧ bridged c' b x) ∧
         (operands ui !! k ≠ Some ar → operands ui' !! k = operands ui !! k).
Proof.
  intros Husers Har Hx Hxar Hui H.
  assert (u ≠ ar) as Hu.
  { intros ->. assert (ar ∈ users c ar) as Hin by (rewrite Husers; by left).
    apply users_spec in Hin as (ins & Hins & Hin).
    assert (ins = ai) as -> by congruence. rewrite Hx in Hin.
    by apply list_elem_of_singleton in Hin. }
  pose proof (detach_keeps _ _ _ _ H) as (_ & _ & _ & Hk & _).
  unfold detach in H. rewrite Hui in H. simpl in H.
  destruct (detach_loop_anatomy _ _ _ _ _ _ _ Har Hx Hu Hxar
              (NoDup_seq 0 (length (operands ui))) H) as (Hf & Hg & Hh).
  destruct (Hh _ Hui) as (ui' & Hui' & Hslots).
  destruct (Hk _ _ Hui) as (ui'' & Hui'' & Hsig).
  assert (ui'' = ui') as -> by congruence.
  pose proof (instr_lt _ _ _ Har) as HarL.
  assert (instr c' ar = Some ai) as Har' by (by rewrite Hf).
  split; [| split; [done | split; [done |]]].
  - apply users_nil_edge. intros m (ins' & Hm & Hin).
    destruct (decide (m = u)) as [-> | Hmu].
    + assert (ins' = ui') as -> by congruence.
      apply list_elem_of_lookup in Hin as [k Hkar].
      destruct (Hslots k) as [Hk1 Hk2].
      destruct (decide (operands ui !! k = Some ar)) as [Hold | Hold].
      * destruct (Hk1) as (b & Hb & _ & Hbar); [| done | congruence].
        apply elem_of_seq. apply lookup_lt_Some in Hold. lia.
      * rewrite Hk2 in Hkar by (by right). done.
    + destruct (decide (m < length (instructions c))%nat) as [Hlt | Hge].
      * rewrite Hf in Hm by done.
        assert (m ∈ users c ar) as Hmin by (apply users_spec; eauto).
        rewrite Husers in Hmin. by apply list_elem_of_singleton in Hmin.
      * eapply Hg; [| done | done]. lia.
  - exists ui'. split; [done |]. split; [done |]. intros k.
    destruct (Hslots k) as [Hk1 Hk2]. split.
    + intros Hold. destruct Hk1 as (b & Hb & Hbr & _); [| done | eauto].
      apply elem_of_seq. apply lookup_lt_Some in Hold. lia.
    + intros Hold. apply Hk2. by right.
Qed.

(** X7.  The detach loop (lines 102-108) takes the matched collective
    out of the data flow.  For a collective with one user and one
    operand, other than itself, in a closed computation the loop
    returns; afterwards no instruction reads the collective, which is
    itself unchanged; each operand slot of the former user that held
    the collective holds a bridged form of the collective's operand,
    the user's other slots and every other instruction that was there
    are as before. *)
Theorem detach_takes_collective_out c ar u ai x ui :
  operands_closed c →
  users c ar = [u] → instr c ar = Some ai → operands ai = [x] → x ≠ ar →
  instr c u = Some ui →
  ∃ c' ui',
    detach ar u c = Some c' ∧
    users c' ar = [] ∧ instr c' ar = Some ai ∧
    (∀ n, (n < length (instructions c))%nat → n ≠ u →
          instr c' n = instr c n) ∧
    instr c' u = Some ui' ∧ same_signature ui ui' ∧
    ∀ k, (operands ui !! k = Some ar →
          ∃ b, operands ui' !! k = Some b ∧ bridged c' b x) ∧
         (operands ui !! k ≠ Some ar → operands ui' !! k = operands ui !! k).
Proof.
  intros Hc Husers Har Hx Hxar Hui.
  destruct (detach_succeeds ar u c ui ai Hc Hui Har) as (c' & H & _);
    [by rewrite Hx |].
  destruct (detach_anatomy _ _ _ _ _ _ _ Husers Har Hx Hxar Hui H)
    as (H1 & H2 & H3 & ui' & H4 & H5 & H6).
  exists c', ui'. done.
Qed.

Lemma detach_takes_collective_out_witness :
  let c := entry_computation scenario_D in
  ∃ c' ui',
    detach 2 3 c = Some c' ∧
    users c' 2 = [] ∧ instr c' 2 = Some (collective bf16_4 [1%nat] (Some 7)) ∧
    (∀ n, (n < length (instructions c))%nat → n ≠ 3%nat →
          instr c' n = instr c n) ∧
    instr c' 3 = Some ui' ∧ same_signature (plain kConvert f32_4 [2%nat]) ui' ∧
    ∀ k, (operands (plain kConvert f32_4 [2%nat]) !! k = Some 2%nat →
          ∃ b, operands ui' !! k = Some b ∧ bridged c' b 1) ∧
         (operands (plain kConvert f32_4 [2%nat]) !! k ≠ Some 2%nat →
          operands ui' !! k = operands (plain kConvert f32_4 [2%nat]) !! k).
Proof.
  apply (detach_takes_collective_out (entry_computation scenario_D) 2 3
           (collective bf16_4 [1%nat] (Some 7)) 1
           (plain kConvert f32_4 [2%nat])).
  - apply closedb_operands_closed. reflexivity.
  - reflexivity.
  - reflexivity.
  - reflexivity.
  - lia.
  - reflexivity.
Defined.

(** ** The single-module pass creates no cycle *)

Lemma length_ReplaceOperandWith n k new c :
  length (instructions (ReplaceOperandWith n k new c)) = length (instructions c).
Proof. apply length_update_instr. Qed.

Lemma length_set_metadata_op_name n name c :
  length (instructions (set_metadata_op_name n name c))
  = length (instructions c).
Proof. apply length_update_instr. Qed.

Lemma detach_loop_ranked rank ar u x ai slots c c' :
  ranked rank c → operands_closed c →
  instr c ar = Some ai → operands ai = [x] → u ≠ ar →
  (rank x < rank u)%nat →
  detach_loop ar u slots c = Some c' →
  ∃ rank',
    ranked rank' c' ∧
    ∀ n m, (n < length (instructions c))%nat →
           (m < length (instructions c))%nat →
           (rank n < rank m)%nat → (rank' n < rank' m)%nat.
Proof.
  intros Hr Hc Har Hx Hu Hlt H. revert rank c Hr Hc Har Hlt H.
  induction slots as [| i rest IH]; intros rank c Hr Hc Har Hlt H; simpl in H.
  { injection H as <-. by exists rank. }
  apply bind_Some in H as (o & Ho & H).
  unfold mutable_operand in Ho. apply bind_Some in Ho as (ui0 & Hui0 & Ho).
  case_decide as Hoar; [| by eapply IH].
  subst o. apply bind_Some in H as (x0 & Hx0 & H).
  rewrite (mutable_operand_eq _ _ _ _ Har), Hx in Hx0. injection Hx0 as <-.
  apply bind_Some in H as (oi & Hoi & H). rewrite Har in Hoi. injection Hoi as <-.
  apply bind_Some in H as ([b c1] & Hb & H).
  destruct (bridge_ranked _ _ _ _ _ _ Hr Hc Hb) as (rank1 & Hr1 & Hold & Hbr & _).
  pose proof (MaybeReshapeConvert_grows _ _ _ _ _ Hb) as Hg1.
  pose proof (grows_length _ _ Hg1) as Hlen1.
  pose proof (instr_lt _ _ _ Hui0) as HuL.
  assert (x < length (instructions c))%nat as HxL.
  { destruct (Hc ar ai x Har) as [xi Hxi]; [| by eapply instr_lt].
    rewrite Hx. by left. }
  destruct (IH rank1 (ReplaceOperandWith u i b c1)) as (rank' & Hr' & Hmono);
    try done.
  - apply ranked_ReplaceOperandWith; [done |]. rewrite (Hold u) by done. lia.
  - destruct (extends_bridge_replace _ _ _ _ _ u i Hb) as (_ & Hcl & _). auto.
  - unfold ReplaceOperandWith. rewrite instr_update_instr.
    rewrite decide_False by (by intros ->).
    by rewrite (grows_old _ _ _ Hg1) by (by eapply instr_lt).
  - rewrite (Hold x), (Hold u) by done. lia.
  - exists rank'. split; [done |]. intros n m Hn Hm Hnm. apply Hmono.
    + rewrite length_ReplaceOperandWith. lia.
    + rewrite length_ReplaceOperandWith. lia.
    + rewrite (Hold n), (Hold m) by done. lia.
Qed.

Lemma userless_MaybeReshapeConvert src dst c r c' t :
  MaybeReshapeConvert src dst c = Some (r, c') →
  users c t = [] → t ≠ src → (t < length (instructions c))%nat →
  users c' t = [].
Proof.
  rewrite !users_nil_edge. intros H Hu Hne Hlt m Hedge.
  destruct (edge_MaybeReshapeConvert _ _ _ _ _ _ _ H Hedge) as [He | [_ [? | ?]]];
    [by eapply Hu | done | lia].
Qed.

Lemma reinsert_ranked rank i add_ins ar c rm c' rm' ai :
  ranked rank c → operands_closed c →
  users c ar = [] → instr c ar = Some ai → length (operands ai) = 1%nat →
  is_Some (instr c add_ins) → add_ins ≠ ar →
  is_Some (instr c (root_instruction c)) → root_instruction c ≠ ar →
  (rank add_ins < rank (root_instruction c))%nat →
  reinsert i add_ins ar (c, rm) = Some (c', rm') →
  ∃ rank', ranked rank' c'.
Proof.
  intros Hr Hc Hu Har Hone [addi Haddi] Hne [rooti Hrooti] Hrne Hlt H.
  unfold reinsert in H.
  apply bind_Some in H as (ar0 & Har0 & H).
  assert (ar0 = ai) as -> by congruence. clear Har0.
  apply bind_Some in H as ([b1 c1] & Hb1 & H).
  set (c2 := ReplaceOperandWith ar 0 b1 c1) in *.
  apply bind_Some in H as (add & Hadd & H).
  apply bind_Some in H as ([b2 c3] & Hb2 & H).
  set (c4 := ReplaceOperandWith (root_instruction c) i b2 c3) in *.
  set (c5 := set_metadata_op_name ar kSkippableAllReduce c4) in *.
  apply bind_Some in H as (old & Hold & H).
  apply bind_Some in H as (add5 & Hadd5 & H).
  set (L0 := length (instructions c)).
  pose proof (instr_lt _ _ _ Har) as HarL.
  pose proof (instr_lt _ _ _ Haddi) as HaddL.
  pose proof (instr_lt _ _ _ Hrooti) as HrootL. fold L0 in HarL, HaddL, HrootL.
  (* step 1 *)
  destruct (bridge_ranked _ _ _ _ _ _ Hr Hc Hb1)
    as (rank1 & Hr1 & Hold1 & Hbr1 & Hpos1). fold L0 in Hold1, Hpos1.
  pose proof (MaybeReshapeConvert_grows _ _ _ _ _ Hb1) as Hg1.
  pose proof (grows_length _ _ Hg1) as Hlen1. fold L0 in Hlen1.
  pose proof (userless_MaybeReshapeConvert _ _ _ _ _ ar Hb1 Hu) as Hu1.
  assert (instr c1 ar = Some ai) as Har1 by (by rewrite (grows_old _ _ _ Hg1)).
  assert (b1 ≠ ar) as Hb1ar by (destruct Hpos1 as [-> | ?]; [done | lia]).
  destruct (MaybeReshapeConvert_live _ _ _ _ _ Hb1) as [b1i Hb1i].
  pose proof (instr_lt _ _ _ Hb1i) as Hb1L.
  (* step 2 *)
  set (v := (4 * rank add_ins + 3)%nat).
  set (rank2 := λ m, if decide (m = ar) then v else rank1 m).
  assert (ranked rank2 c2) as Hr2.
  { apply (ranked_rerank_replace rank1 ar b1 c1 ai v); try done.
    - apply Hu1; [by intros -> | done].
    - unfold v. lia. }
  assert (operands_closed c2) as Hc2
    by (destruct (extends_bridge_replace _ _ _ _ _ ar 0%nat Hb1) as (_ & Hcl & _); auto).
  assert (length (instructions c2) = length (instructions c1)) as Hlen2
    by apply length_ReplaceOperandWith.
  (* step 3 *)
  destruct (bridge_ranked _ _ _ _ _ _ Hr2 Hc2 Hb2)
    as (rank3 & Hr3 & Hold3 & Hbr3 & Hpos3).
  pose proof (MaybeReshapeConvert_grows _ _ _ _ _ Hb2) as Hg3.
  pose proof (grows_length _ _ Hg3) as Hlen3.
  assert (rank2 ar = v) as Hv by (unfold rank2; by rewrite decide_True).
  assert (rank2 (root_instruction c) = (4 * rank (root_instruction c))%nat) as Hvr.
  { unfold rank2. rewrite decide_False by done. by apply Hold1. }
  (* step 4, 5 *)
  assert (ranked rank3 c5) as Hr5.
  { apply ranked_set_metadata_op_name, ranked_ReplaceOperandWith; [done |].
    rewrite (Hold3 (root_instruction c)) by lia. rewrite Hvr.
    unfold v in Hv. lia. }
  destruct (SameElementType (shape old) (shape add5)) eqn:Ht; simpl in H.
  { injection H as <- <-. by exists rank3. }
  assert (length (instructions c5) = length (instructions c3)) as Hlen5.
  { unfold c5, c4. by rewrite length_set_metadata_op_name,
      length_ReplaceOperandWith. }
  assert (operands old = [b1]) as Hops.
  { unfold c5, set_metadata_op_name in Hold.
    rewrite instr_update_instr, decide_True in Hold by done.
    unfold c4, ReplaceOperandWith in Hold.
    rewrite instr_update_instr, decide_False in Hold by done.
    rewrite (grows_old _ _ _ Hg3) in Hold by lia.
    unfold c2, ReplaceOperandWith in Hold.
    rewrite instr_update_instr, decide_True, Har1 in Hold by done.
    injection Hold as <-. simpl.
    by destruct (operands ai) as [| ? [| ? ?]]. }
  assert (operands_closed c5) as Hc5.
  { destruct (extends_bridge_replace _ _ _ _ _ (root_instruction c) i Hb2)
      as (_ & Hcl & _).
    apply closed_set_metadata_op_name. auto. }
  rewrite Hops in H. apply bind_Some in H as ([ops c6] & Hops6 & H).
  pose proof (MaybeReshapeConvertTuple_extends _ _ _ _ _ Hops6) as [(_ & Hc6 & _) _].
  destruct (MaybeReshapeConvertTuple_single _ _ _ _ _ Hops6)
    as (r & sh' & -> & Hr6b & _).
  (* step 6 *)
  destruct (bridge_ranked _ _ _ _ _ _ Hr5 Hc5 Hr6b)
    as (rank6 & Hr6 & Hold6 & Hbr6 & _).
  pose proof (MaybeReshapeConvert_grows _ _ _ _ _ Hr6b) as Hg6.
  pose proof (grows_length _ _ Hg6) as Hlen6.
  destruct (MaybeReshapeConvert_live _ _ _ _ _ Hr6b) as [ri Hri].
  (* step 7, 8 *)
  set (N := length (instructions c6)) in *.
  set (new_ins := CreateAllReduce (shape add5) [r] (replica_groups old)
                    (constrain_layout old) (channel_id old)
                    (use_global_device_ids old)) in *.
  set (c8 := set_metadata_op_name N (metadata_op_name old)
               (push_instruction new_ins c6)) in *.
  set (rank7 := λ n, if decide (n = N) then (rank6 r + 1)%nat else rank6 n).
  assert (ranked rank7 c8) as Hr8.
  { apply ranked_set_metadata_op_name.
    apply (ranked_push_instruction rank6 new_ins c6 (rank6 r + 1)%nat); auto.
    intros o ->%list_elem_of_singleton. split; [eauto | lia]. }
  assert (operands_closed c8) as Hc8.
  { apply closed_set_metadata_op_name, closed_push_instruction; auto.
    intros o ->%list_elem_of_singleton. eauto. }
  assert (length (instructions c8) = S N) as Hlen8.
  { unfold c8. rewrite length_set_metadata_op_name, length_push_instruction.
    done. }
  (* step 9, 10 *)
  apply bind_Some in H as ([b3 c9] & Hb3 & H). injection H as <- <-.
  destruct (bridge_ranked _ _ _ _ _ _ Hr8 Hc8 Hb3)
    as (rank9 & Hr9 & Hold9 & Hbr9 & _).
  exists rank9. apply ranked_ReplaceAllUsesWith; [done |].
  rewrite (Hold9 ar) by lia.
  assert (rank7 ar = rank6 ar) as -> by (unfold rank7; rewrite decide_False; [done | lia]).
  assert (rank7 N = (rank6 r + 1)%nat) as HN by (unfold rank7; by rewrite decide_True).
  rewrite (Hold6 ar) by lia. rewrite (Hold3 ar) by lia.
  assert (b1 < length (instructions c5))%nat as Hb1L5 by lia.
  rewrite (Hold3 b1) in Hbr6 by lia.
  assert (rank2 b1 = rank1 b1) as Hb12 by (unfold rank2; by rewrite decide_False).
  rewrite Hv. unfold v. lia.
Qed.

Lemma find_collective_ranked rank c src ar :
  ranked rank c → find_collective c src (Some ar) → (rank ar ≤ rank src)%nat.
Proof.
  intros Hr H. remember (Some ar) as r eqn:E.
  induction H as [start ins Hins Hop | start ins o r Hins Hp Ho _ IH
                  | start ins o0 o1 lhs rhs Hins Hop Ho0 Ho1 _ IH0 _ IH1 |];
    try done.
  - by injection E as ->.
  - apply list_elem_of_lookup_2 in Ho. specialize (Hr _ _ _ Hins Ho).
    specialize (IH E). lia.
  - apply list_elem_of_lookup_2 in Ho0, Ho1.
    pose proof (Hr _ _ _ Hins Ho0). pose proof (Hr _ _ _ Hins Ho1).
    destruct lhs, rhs; simpl in E; try done.
    + specialize (IH0 E). lia.
    + specialize (IH1 E). lia.
Qed.

(** A match in a ranked, closed computation, after the detach loop: the
    collective is still there and has no user, and the Add still ranks
    below the root. *)
Lemma matched_detach rank c i add_ins ar u c1 :
  ranked rank c → operands_closed c →
  match_index c i = Some (Some (add_ins, ar, u)) →
  detach ar u c = Some c1 →
  ∃ rank1 ai,
    ranked rank1 c1 ∧ operands_closed c1 ∧
    users c1 ar = [] ∧ instr c1 ar = Some ai ∧ instr c ar = Some ai ∧
    opcode ai = kAllReduce ∧ length (operands ai) = 1%nat ∧
    is_Some (instr c1 add_ins) ∧ add_ins ≠ ar ∧
    is_Some (instr c1 (root_instruction c1)) ∧
    root_instruction c1 = root_instruction c ∧ root_instruction c1 ≠ ar ∧
    (rank1 add_ins < rank1 (root_instruction c1))%nat.
Proof.
  intros Hr Hc Hm Hd.
  destruct (match_index_inv _ _ _ _ _ Hm)
    as (root & add & x & ai & Hroot & Hi & Hadd & Hopadd & Hx & Hfound & Husers
        & Har & Hopar & Hone).
  apply vector_at_Some in Hi as (_ & _ & Hi).
  apply list_elem_of_lookup_2 in Hi, Hx.
  pose proof (Hr _ _ _ Hroot Hi) as Hlt1. pose proof (Hr _ _ _ Hadd Hx) as Hlt2.
  pose proof (find_collective_ranked _ _ _ _ Hr
                (GetAllReduce_fuel_sound _ _ _ _ Hfound)) as Hle.
  destruct (operands ai) as [| xa [| ? ?]] eqn:Hops; try done.
  assert (rank xa < rank ar)%nat as Hlt3
    by (apply (Hr _ _ _ Har); rewrite Hops; by left).
  assert (u ∈ users c ar) as Hu by (rewrite Husers; by left).
  apply users_spec in Hu as (ui & Hui & Hin).
  pose proof (Hr _ _ _ Hui Hin) as Hlt4.
  assert (xa ≠ ar) as Hxa by (intros ->; lia).
  destruct (detach_anatomy _ _ _ _ _ _ _ Husers Har Hops Hxa Hui Hd)
    as (Hu1 & Har1 & _).
  pose proof (detach_extends _ _ _ _ Hd) as ((Hroot1 & _ & _ & Hk & _) & Hc1 & _).
  unfold detach in Hd. rewrite Hui in Hd. simpl in Hd.
  destruct (detach_loop_ranked rank ar u xa ai (seq 0 (length (operands ui))) c c1)
    as (rank1 & Hr1 & Hmono);
    try done.
  { intros ->. lia. }
  { lia. }
  exists rank1, ai. rewrite Hroot1.
  destruct (Hk _ _ Hadd) as (? & ? & _). destruct (Hk _ _ Hroot) as (? & ? & _).
  repeat split; eauto.
  - by rewrite Hops.
  - intros ->. lia.
  - intros E. rewrite E in Hlt1. lia.
  - apply Hmono; [by eapply instr_lt.. | done].
Qed.

Lemma rewrite_index_acyclic i st st' :
  acyclic st.1 → operands_closed st.1 → rewrite_index i st = Some st' →
  acyclic st'.1.
Proof.
  intros [rank Hr] Hc H. unfold rewrite_index in H.
  apply bind_Some in H as (m & Hm & H).
  destruct m as [[[add_ins ar] u]|]; [| injection H as <-; by exists rank].
  apply bind_Some in H as (c1 & Hc1 & H). destruct st' as [c' rm'].
  destruct (matched_detach _ _ _ _ _ _ _ Hr Hc Hm Hc1)
    as (rank1 & ai & Hr1 & Hcl1 & Hu1 & Har1 & _ & _ & Hone & Hadd1 & Hne & Hroot1
        & _ & Hrne & Hlt).
  simpl. exact (reinsert_ranked rank1 _ _ _ _ _ _ _ ai Hr1 Hcl1 Hu1 Har1 Hone Hadd1
           Hne Hroot1 Hrne Hlt H).
Qed.

Lemma rewrite_loop_acyclic indices st st' :
  acyclic st.1 → operands_closed st.1 → rewrite_loop indices st = Some st' →
  acyclic st'.1.
Proof.
  revert st. induction indices as [| i rest IH]; intros st Ha Hc H; simpl in H.
  - by injection H as <-.
  - apply bind_Some in H as (st1 & H1 & H). eapply IH; [| | done].
    + by eapply rewrite_index_acyclic.
    + by apply (rewrite_index_extends _ _ _ H1).
Qed.

Lemma delay_index_producer_acyclic out_index in_index st st' :
  acyclic (backward_entry st) → operands_closed (backward_entry st) →
  delay_index out_index in_index st = Some st' →
  acyclic (backward_entry st').
Proof.
  intros [rank Hr] Hc H. unfold delay_index in H.
  apply bind_Some in H as (m & Hm & H).
  destruct m as [[[add_ins ar] u]|]; [| injection H as <-; by exists rank].
  apply bind_Some in H as (c1 & Hc1 & H).
  destruct (matched_detach _ _ _ _ _ _ _ Hr Hc Hm Hc1)
    as (rank1 & ai & Hr1 & Hcl1 & Hu1 & Har1 & _ & _ & Hone & Hadd1 & Hne & Hroot1
        & _ & Hrne & Hlt).
  case_decide.
  - apply bind_Some in H as ([c2 rm] & Hre & H). injection H as <-. simpl.
    exact (reinsert_ranked rank1 _ _ _ _ _ _ _ ai Hr1 Hcl1 Hu1 Har1 Hone Hadd1
             Hne Hroot1 Hrne Hlt Hre).
  - unfold relocate in H. simpl in H. inv_bind H. injection H as <-. simpl.
    exists rank1. by apply ranked_set_metadata_op_name.
Qed.

Lemma delay_loop_producer_acyclic pairs st st' :
  acyclic (backward_entry st) → operands_closed (backward_entry st) →
  delay_loop pairs st = Some st' →
  acyclic (backward_entry st').
Proof.
  revert st. induction pairs as [| [o i] rest IH]; intros st Ha Hc H; simpl in H.
  - by injection H as <-.
  - apply bind_Some in H as (st1 & H1 & H). eapply IH; [| | done].
    + by eapply delay_index_producer_acyclic.
    + by apply (delay_index_extends _ _ _ _ H1).
Qed.

(** X8.  The passes create no cycle in the module whose outputs they
    rewrite.  When the entry computation given to [GradAccRewrite::Run]
    is closed and acyclic, so is the one it returns, although the
    collective is moved from below the Add to above it; the same holds
    for the producer module of [GradAccCommDelay::RunOnModuleGroup]. *)
Theorem passes_keep_producer_acyclic :
  (∀ ctx module changed module',
     operands_closed (entry_computation module) →
     acyclic (entry_computation module) →
     Run ctx module = Some (changed, module') →
     acyclic (entry_computation module')) ∧
  (∀ ctx backward applygrad changed backward' applygrad',
     operands_closed (entry_computation backward) →
     acyclic (entry_computation backward) →
     RunOnModuleGroup ctx (backward, applygrad)
       = Some (changed, (backward', applygrad')) →
     acyclic (entry_computation backward')).
Proof.
  split.
  - intros ctx module changed module' Hc Ha H. unfold Run in H.
    destruct (rewrite_for_grad_acc ctx); simpl in H; [| by injection H as <- <-].
    apply bind_Some in H as ([entry rm] & Hloop & H). injection H as <- <-.
    destruct (rewrite_loop_acyclic _ (entry_computation module, []) _ Ha Hc Hloop)
      as [rank Hr].
    exists rank. by apply ranked_remove_all.
  - intros ctx backward applygrad changed backward' applygrad' Hc Ha H.
    unfold RunOnModuleGroup in H. destruct (rewrite_for_grad_acc ctx); simpl in H.
    2:{ by injection H as <- <- <-. }
    case_decide; [done |]. apply bind_Some in H as (st & Hloop & H).
    injection H as <- <- <-.
    destruct (delay_loop_producer_acyclic _
                (mkDelay (entry_computation backward)
                         (entry_computation applygrad)
                         (int64_wrap (NextChannelId applygrad)) [])
                _ Ha Hc Hloop)
      as [rank Hr].
    exists rank. by apply ranked_remove_all.
Qed.

Lemma passes_keep_producer_acyclic_witness :
  acyclic (entry_computation scenario_D_after) ∧
  acyclic (entry_computation scenario_A_after) ∧
  acyclic (entry_computation two_relocations_after.1).
Proof.
  destruct passes_keep_producer_acyclic as [Hrun Hgroup].
  split; [| split].
  - apply (Hrun (mkContext true [0] []) scenario_D true scenario_D_after).
    + apply closedb_operands_closed. reflexivity.
    + apply topological_acyclic. reflexivity.
    + vm_compute. reflexivity.
  - apply (Hrun (mkContext true [2] []) scenario_A true scenario_A_after).
    + apply closedb_operands_closed. reflexivity.
    + apply topological_acyclic. reflexivity.
    + vm_compute. reflexivity.
  - apply (Hgroup (mkContext true [0; 1] [1; 0]) producer_two consumer_unit true
             two_relocations_after.1 two_relocations_after.2).
    + apply closedb_operands_closed. reflexivity.
    + apply topological_acyclic. reflexivity.
    + vm_compute. reflexivity.
Defined.

(** ** The single-module pass runs to its end *)

Lemma well_formed_extends c c' :
  extends c c' → acyclic c' → well_formed c → well_formed c'.
Proof.
  intros ((Hroot & _ & _ & Hf & Hb) & Hcl & Hnew) Ha
         (Hc & _ & Harity & Hlive & Hadd & Har).
  assert (∀ n ins', instr c' n = Some ins' →
            (∃ ins, instr c n = Some ins ∧ opcode ins' = opcode ins ∧
                    shape ins' = shape ins ∧
                    length (operands ins') = length (operands ins)) ∨
            ((opcode ins' = kConvert ∨ opcode ins' = kReshape ∨
              opcode ins' = kAllReduce) ∧ length (operands ins') = 1%nat))
    as Hcases.
  { intros n ins' Hins'.
    destruct (decide (n < length (instructions c))%nat) as [Hlt | Hge].
    - left. destruct (Hb _ _ Hlt Hins') as (ins & Hins & Hop & Hsh & Hl & _).
      eauto.
    - right. eapply Hnew; [| done]. lia. }
  split; [auto |]. split; [done |]. split; [| split; [| split]].
  - intros n ins' Hins'.
    destruct (Hcases _ _ Hins') as [(ins & Hins & -> & _ & ->) | [Hop ->]].
    + by eapply Harity.
    + split; [done |]. intros Hm. rewrite Hm in Hop. naive_solver.
  - rewrite Hroot. destruct Hlive as [root Hr].
    destruct (Hf _ _ Hr) as (? & -> & _). eauto.
  - intros n ins' Hins' Hop.
    destruct (Hcases _ _ Hins') as [(ins & Hins & Hop' & -> & ->) | [Hop' _]].
    + eapply Hadd; [done | congruence].
    + rewrite Hop in Hop'. naive_solver.
  - intros n ins' Hins' Hop.
    destruct (Hcases _ _ Hins') as [(ins & Hins & Hop' & _ & ->) | [_ ->]];
      [| done].
    eapply Har; [done | congruence].
Qed.

Lemma well_formed_remove_all rm c : well_formed c → well_formed (remove_all rm c).
Proof.
  intros (Hc & [rank Hr] & Harity & Hlive & Hadd & Har).
  destruct (remove_all_effect rm c) as (_ & Hcl & Hn).
  assert (∀ n ins, instr (remove_all rm c) n = Some ins → instr c n = Some ins)
    as Hsub.
  { intros n ins Hins. destruct (Hn n) as [E | [E _]]; congruence. }
  split; [auto |]. split; [exists rank; by apply ranked_remove_all |].
  split; [| split; [| split]].
  - intros n ins Hins%Hsub. by eapply Harity.
  - destruct (remove_all_root rm c) as [Hroot Hiface]. rewrite Hroot.
    unfold root_interface in Hiface. rewrite Hroot in Hiface.
    destruct Hlive as [root Hrt]. rewrite Hrt in Hiface.
    destruct (instr (remove_all rm c) (root_instruction c)); [eauto | done].
  - intros n ins Hins%Hsub. by eapply Hadd.
  - intros n ins Hins%Hsub. by eapply Har.
Qed.

Lemma match_index_succeeds c i :
  well_formed c → in_root_range c i → is_Some (match_index c i).
Proof.
  intros (Hc & Ha & Harity & _ & Hadd & Har) (root & Hroot & Hi).
  unfold match_index, mutable_operand_Z. rewrite Hroot. run_step.
  destruct (lookup_lt_is_Some_2 (operands root) (Z.to_nat i)) as [add_ins Ho];
    [lia |].
  rewrite (vector_at_lookup _ _ _ (proj1 Hi) Ho). run_step.
  destruct (Hc _ _ add_ins Hroot) as [add Hai];
    [by eapply list_elem_of_lookup_2 |].
  rewrite Hai. run_step. case_decide as Hop; [eauto |].
  assert (opcode add = kAdd) as Hop' by (by destruct (decide (opcode add = kAdd))).
  destruct (Hadd _ _ Hai Hop') as [Htwo _].
  destruct (lookup_lt_is_Some_2 (operands add) 1%nat) as [x Hx]; [lia |].
  rewrite (mutable_operand_eq _ _ _ _ Hai), Hx. run_step.
  destruct (Hc _ _ x Hai) as [xi Hxi]; [by eapply list_elem_of_lookup_2 |].
  destruct (GetAllReduce_total c x Ha Hc Harity) as [found Hfound]; [eauto |].
  rewrite Hfound. run_step. destruct found as [ar|]; [| eauto].
  case_decide as Hone; [eauto |].
  destruct (GetAllReduce_fuel_opcode _ _ _ _ Hfound) as (ai & Hai' & Hopar).
  rewrite Hai'. run_step.
  rewrite (decide_False (P := length (operands ai) ≠ 1%nat))
    by (intros Hn; by apply Hn, (Har _ _ Hai')).
  destruct (users c ar) as [| u l]; [simpl in Hone; lia | simpl; eauto].
Qed.

Lemma reinsert_succeeds i add_ins ar c rm ai add :
  operands_closed c →
  instr c ar = Some ai → length (operands ai) = 1%nat →
  instr c add_ins = Some add → IsArray (shape add) = true →
  is_Some (reinsert i add_ins ar (c, rm)).
Proof.
  intros Hc Har Hone Hadd Harr. unfold reinsert. rewrite Har. run_step.
  destruct (MaybeReshapeConvert_succeeds add_ins (shape ai) c) as [[b1 c1] Hb1];
    [eauto |].
  rewrite Hb1. run_step.
  pose proof (extends_bridge_replace _ _ _ _ _ ar 0%nat Hb1)
    as ((_ & _ & _ & Hk2 & _) & Hcl2 & _).
  set (c2 := ReplaceOperandWith ar 0 b1 c1) in *.
  destruct (Hk2 _ _ Hadd) as (add2 & Hadd2 & _ & Hsh2 & _).
  destruct (Hk2 _ _ Har) as (ar2 & Har2 & _ & _ & Hl2 & _).
  rewrite Hadd2. run_step.
  destruct (MaybeReshapeConvert_succeeds ar (shape add2) c2) as [[b2 c3] Hb2];
    [eauto |].
  rewrite Hb2. run_step.
  pose proof (extends_bridge_replace _ _ _ _ _ (root_instruction c) i Hb2)
    as Hext4.
  pose proof (extends_trans _ _ _ Hext4
                (extends_set_metadata_op_name ar kSkippableAllReduce _))
    as ((_ & _ & _ & Hk5 & _) & Hcl5 & _).
  set (c5 := set_metadata_op_name ar kSkippableAllReduce
               (ReplaceOperandWith (root_instruction c) i b2 c3)) in *.
  destruct (Hk5 _ _ Hadd2) as (add5 & Hadd5 & _ & Hsh5 & _).
  destruct (Hk5 _ _ Har2) as (old & Hold & _ & _ & Hl5 & _).
  rewrite Hold, Hadd5. run_step.
  destruct (SameElementType (shape old) (shape add5)); simpl; [eauto |].
  assert (IsArray (shape add5) = true) as Harr5 by congruence.
  destruct (operands old) as [| o [| ? ?]] eqn:Hops; simpl in Hl5; try lia.
  assert (is_Some (instr c5 o)) as Hlive.
  { eapply (Hcl5 (Hcl2 Hc)); [exact Hold |]. rewrite Hops. by left. }
  unfold MaybeReshapeConvertTuple.
  assert (IsTuple (shape add5) = false) as -> by (by destruct (shape add5)).
  rewrite Harr5. simpl.
  destruct (MaybeReshapeConvert_succeeds o (shape add5) c5 Hlive) as [[r c6] Hr].
  rewrite Hr. run_step. unfold AddInstruction. cbv beta iota.
  match goal with |- is_Some (MaybeReshapeConvert ?n ?sh ?c8 ≫= _) =>
    destruct (MaybeReshapeConvert_succeeds n sh c8) as [[b3 c9] Hb3] end.
  { apply live_update_instr. rewrite instr_push_instruction.
    rewrite decide_True by done. eauto. }
  rewrite Hb3. run_step. eauto.
Qed.

Lemma rewrite_index_succeeds i st :
  well_formed st.1 → in_root_range st.1 i →
  ∃ st', rewrite_index i st = Some st' ∧ well_formed st'.1 ∧
         ∀ j, in_root_range st.1 j → in_root_range st'.1 j.
Proof.
  intros Hwf Hi. destruct (match_index_succeeds _ _ Hwf Hi) as [m Hm].
  assert (∀ st', rewrite_index i st = Some st' →
            well_formed st'.1 ∧ ∀ j, in_root_range st.1 j → in_root_range st'.1 j)
    as Hpost.
  { intros st' H. pose proof (rewrite_index_extends _ _ _ H) as Hext. split.
    - apply (well_formed_extends _ _ Hext); [| done].
      destruct Hwf as (Hc & Ha & _). by eapply rewrite_index_acyclic.
    - intros j (root & Hroot & Hj). destruct Hext as ((Hr & _ & _ & Hk & _) & _).
      destruct (Hk _ _ Hroot) as (root' & Hroot' & _ & _ & Hl & _).
      exists root'. rewrite Hr, Hl. done. }
  destruct m as [[[add_ins ar] u]|].
  2:{ exists st. assert (rewrite_index i st = Some st) as H
        by (unfold rewrite_index; by rewrite Hm).
      split; [done | by apply Hpost]. }
  destruct Hwf as (Hc & Ha & Harity & Hlive & Hadd & Har).
  destruct (match_index_inv _ _ _ _ _ Hm)
    as (root & add & x & ai & Hroot & _ & Haddi & Hopadd & _ & _ & Husers
        & Hai & _ & Hone).
  assert (u ∈ users st.1 ar) as Hu by (rewrite Husers; by left).
  apply users_spec in Hu as (ui & Hui & _).
  destruct (detach_succeeds ar u st.1 ui ai Hc Hui Hai Hone)
    as (c1 & Hd & Hc1 & (_ & _ & _ & Hk & _)).
  destruct (Hk _ _ Haddi) as (add1 & Hadd1 & _ & Hsh1 & _).
  destruct (Hk _ _ Hai) as (ai1 & Hai1 & _ & _ & Hl1 & _).
  destruct (Hadd _ _ Haddi Hopadd) as [_ Harr].
  destruct (reinsert_succeeds (Z.to_nat i) add_ins ar c1 st.2 ai1 add1)
    as [st' Hre]; try done; try congruence.
  assert (rewrite_index i st = Some st') as H.
  { unfold rewrite_index. rewrite Hm. run_step. rewrite Hd. run_step. done. }
  exists st'. split; [done | by apply Hpost].
Qed.

Lemma rewrite_loop_succeeds indices st :
  well_formed st.1 → (∀ i, i ∈ indices → in_root_range st.1 i) →
  ∃ st', rewrite_loop indices st = Some st' ∧ well_formed st'.1.
Proof.
  revert st. induction indices as [| i rest IH]; intros st Hwf Hin.
  { exists st. done. }
  destruct (rewrite_index_succeeds i st Hwf) as (st1 & H1 & Hwf1 & Hrange);
    [apply Hin; by left |].
  destruct (IH st1 Hwf1) as (st' & H & Hwf').
  { intros j Hj. apply Hrange, Hin. by right. }
  exists st'. simpl. rewrite H1. done.
Qed.

Lemma well_formedb_well_formed c : well_formedb c = true → well_formed c.
Proof.
  unfold well_formedb. rewrite !andb_true_iff.
  intros ((((Hc & Ht) & Ha) & Hr) & Hall).
  split; [by apply closedb_operands_closed |].
  split; [by apply topological_acyclic |].
  split; [by apply chain_arityb_chain_arity |].
  split; [by apply bool_decide_eq_true in Hr |]. split.
  - intros n ins Hn Hop.
    pose proof (all_instructions_spec _ _ _ _ Hall Hn) as H. cbv beta in H.
    rewrite Hop in H. apply andb_true_iff in H as [H1 H2].
    by apply Nat.leb_le in H1.
  - intros n ins Hn Hop.
    pose proof (all_instructions_spec _ _ _ _ Hall Hn) as H. cbv beta in H.
    rewrite Hop in H. by apply Nat.eqb_eq in H.
Qed.

(** X9.  On a well-formed entry computation (operands present, no
    cycle, root present, the matcher's nodes with the operands it
    reads, every Add with two operands and an array shape, every
    all-reduce with one operand) and with every requested index inside
    the root's operand list, [GradAccRewrite::Run] (lines 68-145) runs to
    its end: no operand access leaves its vector, no CHECK fails, the
    chain matcher terminates.  It returns the toggle's value, and the
    module it returns is well-formed again. *)
Theorem Run_completes ctx module :
  well_formed (entry_computation module) →
  (∀ i, i ∈ rewrite_indices ctx → in_root_range (entry_computation module) i) →
  ∃ module',
    Run ctx module = Some (rewrite_for_grad_acc ctx, module') ∧
    well_formed (entry_computation module').
Proof.
  intros Hwf Hin. unfold Run. destruct (rewrite_for_grad_acc ctx); simpl.
  2:{ exists module. done. }
  destruct (rewrite_loop_succeeds (rewrite_indices ctx)
              (entry_computation module, []) Hwf Hin) as ([entry rm] & H & Hwf').
  rewrite H. run_step. eexists. split; [done |].
  by apply well_formed_remove_all.
Qed.

Lemma Run_completes_witness :
  ∃ module',
    Run (mkContext true [0] []) scenario_D = Some (true, module') ∧
    well_formed (entry_computation module').
Proof.
  apply (Run_completes (mkContext true [0] []) scenario_D).
  - apply well_formedb_well_formed. reflexivity.
  - intros i Hi. apply list_elem_of_singleton in Hi. subst i.
    eexists. split; [reflexivity |]. simpl. lia.
Defined.

(** ** The two-module pass on local pairs *)

Lemma delay_index_local out_index st :
  delay_index out_index (-1) st
  = '(c, rm) ← rewrite_index out_index (backward_entry st, to_remove st);
    Some (mkDelay c (applygrad_entry st) (next_channel_id st) rm).
Proof.
  unfold delay_index, rewrite_index. cbn [fst snd].
  destruct (match_index (backward_entry st) out_index) as [m|]; [| done].
  run_step. destruct m as [[[add_ins ar] u]|]; [| by destruct st].
  destruct (detach ar u (backward_entry st)) as [c1|]; [| done]. run_step.
  by rewrite decide_True.
Qed.

Lemma delay_loop_local outs ins st :
  length ins = length outs → Forall (λ j, j = -1) ins →
  delay_loop (zip outs ins) st
  = '(c, rm) ← rewrite_loop outs (backward_entry st, to_remove st);
    Some (mkDelay c (applygrad_entry st) (next_channel_id st) rm).
Proof.
  revert ins st. induction outs as [| i outs IH]; intros ins st Hlen Hall.
  { destruct ins; [| done]. by destruct st. }
  destruct ins as [| j ins]; [done |].
  apply Forall_cons in Hall as [-> Hall]. simpl.
  rewrite delay_index_local.
  destruct (rewrite_index i (backward_entry st, to_remove st)) as [[c rm]|];
    [| done].
  run_step. rewrite IH by (done || (simpl in Hlen; lia)). done.
Qed.

(** X10.  When every entry of [rewrite_applygrad_indices] is -1 (and
    there are as many as output indices),
    [GradAccCommDelay::RunOnModuleGroup] (lines 161-295 of the group
    revision) is [GradAccRewrite::Run] on the producer module: it
    returns exactly when [Run] does, with the same flag and the same
    producer module, and the consumer module as it was given. *)
Theorem RunOnModuleGroup_local_is_Run ctx backward applygrad :
  length (rewrite_applygrad_indices ctx) = length (rewrite_indices ctx) →
  Forall (λ j, j = -1) (rewrite_applygrad_indices ctx) →
  RunOnModuleGroup ctx (backward, applygrad)
  = '(changed, backward') ← Run ctx backward;
    Some (changed, (backward', applygrad)).
Proof.
  intros Hlen Hall. unfold RunOnModuleGroup, Run.
  destruct (rewrite_for_grad_acc ctx); [| done]. cbn [negb].
  rewrite decide_False by (intros Hn; by apply Hn).
  rewrite delay_loop_local by done. cbn [backward_entry to_remove].
  destruct (rewrite_loop _ _) as [[c rm]|]; [| done]. run_step.
  by destruct applygrad.
Qed.

Lemma RunOnModuleGroup_local_is_Run_witness :
  RunOnModuleGroup (mkContext true [2; 0] [-1; -1]) (scenario_A, consumer_unit)
  = '(changed, backward') ← Run (mkContext true [2; 0] [-1; -1]) scenario_A;
    Some (changed, (backward', consumer_unit)).
Proof.
  apply (RunOnModuleGroup_local_is_Run (mkContext true [2; 0] [-1; -1])
           scenario_A consumer_unit).
  - reflexivity.
  - repeat constructor.
Defined.

(** X11.  [GradAccCommDelay::RunOnModuleGroup] looks at the consumer
    index of a pair only when the pair's output index matches the
    pattern.  With the toggle on, index lists of different lengths fail
    the CHECK_EQ whatever the modules are.  A pair whose output index
    takes the [continue] of the loop is skipped whatever its consumer
    index is: the run gives what it gives without the pair.  A pair
    whose output index matches and whose consumer index is neither -1
    nor the position of a parameter of the consumer module aborts the
    run. *)
Theorem RunOnModuleGroup_consumer_index :
  (∀ ctx group,
     rewrite_for_grad_acc ctx = true →
     length (rewrite_indices ctx) ≠ length (rewrite_applygrad_indices ctx) →
     RunOnModuleGroup ctx group = None) ∧
  (∀ out_index in_index outs ins backward applygrad,
     match_index (entry_computation backward) out_index = Some None →
     RunOnModuleGroup (mkContext true (out_index :: outs) (in_index :: ins))
                      (backward, applygrad)
     = RunOnModuleGroup (mkContext true outs ins) (backward, applygrad)) ∧
  (∀ out_index in_index outs ins backward applygrad m,
     match_index (entry_computation backward) out_index = Some (Some m) →
     in_index ≠ -1 →
     vector_at (param_instructions (entry_computation applygrad)) in_index
     = None →
     RunOnModuleGroup (mkContext true (out_index :: outs) (in_index :: ins))
                      (backward, applygrad)
     = None).
Proof.
  split; [| split].
  - intros ctx [backward applygrad] Hon Hlen. unfold RunOnModuleGroup.
    rewrite Hon. cbn [negb]. by rewrite decide_True.
  - intros out_index in_index outs ins backward applygrad Hm.
    unfold RunOnModuleGroup. cbn [negb rewrite_for_grad_acc rewrite_indices
                                  rewrite_applygrad_indices].
    destruct (decide (length outs = length ins)) as [Hlen | Hlen].
    + rewrite !decide_False by (simpl; intros Hn; apply Hn; congruence).
      cbn [zip zip_with delay_loop]. unfold delay_index at 1.
      cbn [backward_entry]. rewrite Hm. done.
    + rewrite !decide_True by (simpl; congruence). done.
  - intros out_index in_index outs ins backward applygrad [[add_ins ar] u]
           Hm Hin Hp.
    unfold RunOnModuleGroup. cbn [negb rewrite_for_grad_acc rewrite_indices
                                  rewrite_applygrad_indices].
    case_decide as Hlen; [done |].
    cbn [zip zip_with delay_loop]. unfold delay_index at 1.
    cbn [backward_entry]. rewrite Hm. run_step.
    destruct (detach ar u (entry_computation backward)) as [c1|]; [| done].
    run_step. rewrite decide_False by done. unfold relocate.
    cbn [backward_entry applygrad_entry next_channel_id].
    destruct (instr _ add_ins) as [add|]; [| done]. run_step.
    destruct (instr _ ar) as [old|]; [| done]. run_step.
    unfold relocate_into. by rewrite Hp.
Qed.

Lemma RunOnModuleGroup_consumer_index_witness :
  RunOnModuleGroup (mkContext true [0; 2] [99; 1]) (scenario_A, consumer_unit)
  = RunOnModuleGroup (mkContext true [2] [1]) (scenario_A, consumer_unit) ∧
  RunOnModuleGroup (mkContext true [2] [5]) (scenario_A, consumer_unit) = None ∧
  RunOnModuleGroup (mkContext true [2] [-2]) (scenario_A, consumer_unit) = None ∧
  RunOnModuleGroup (mkContext true [2; 0] [1]) (scenario_A, consumer_unit) = None.
Proof.
  destruct RunOnModuleGroup_consumer_index as (Hlen & Hskip & Habort).
  split; [| split; [| split]].
  - apply (Hskip 0 99 [2] [1] scenario_A consumer_unit). reflexivity.
  - apply (Habort 2 5 [] [] scenario_A consumer_unit (3%nat, 2%nat, 3%nat));
      [reflexivity | lia | reflexivity].
  - apply (Habort 2 (-2) [] [] scenario_A consumer_unit (3%nat, 2%nat, 3%nat));
      [reflexivity | lia | reflexivity].
  - apply (Hlen (mkContext true [2; 0] [1]) (scenario_A, consumer_unit));
      [reflexivity | simpl; lia].
Defined.

(** ** Running the single-module pass again *)

Lemma Run_skips c i b ins other :
  mutable_operand_Z c (root_instruction c) i = Some b →
  instr c b = Some ins → opcode ins ≠ kAdd →
  Run (mkContext true [i] other) (mkModule c) = Some (true, mkModule c).
Proof.
  intros Hb Hins Hop. unfold Run. cbn [negb rewrite_for_grad_acc rewrite_indices
                                       entry_computation rewrite_loop].
  unfold rewrite_index, match_index. cbn [fst snd]. rewrite Hb. run_step.
  rewrite Hins. run_step. by rewrite decide_True.
Qed.

(** The run on one matching index, up to the reinsertion. *)
Lemma Run_matched c i add_ins add x allreduce_ins ar root other :
  operands_closed c →
  instr c (root_instruction c) = Some root → opcode root = kTuple →
  mutable_operand_Z c (root_instruction c) i = Some add_ins →
  instr c add_ins = Some add → opcode add = kAdd →
  mutable_operand c add_ins 1 = Some x →
  GetAllReduce c x = Some (Some allreduce_ins) →
  length (users c allreduce_ins) = 1%nat →
  instr c allreduce_ins = Some ar → length (operands ar) = 1%nat →
  ∃ c1 add1 ar1 root1,
    instr c1 add_ins = Some add1 ∧ same_signature add add1 ∧
    instr c1 allreduce_ins = Some ar1 ∧ same_signature ar ar1 ∧
    opcode ar = kAllReduce ∧
    instr c1 (root_instruction c1) = Some root1 ∧ same_signature root root1 ∧
    0 ≤ i ∧ (Z.to_nat i < length (operands root))%nat ∧
    ∀ c' rm, reinsert (Z.to_nat i) add_ins allreduce_ins (c1, [])
             = Some (c', rm) →
             Run (mkContext true [i] other) (mkModule c)
             = Some (true, mkModule (remove_all rm c')).
Proof.
  intros Hclosed Hroot Hoproot Hop Hadd Hopadd Hx Hfound Husers Har Hone.
  destruct (match_index_found _ _ _ _ _ _ _ Hop Hadd Hopadd Hx Hfound Husers
              Har Hone) as (u & Hmatch & [ui Hu]).
  destruct (GetAllReduce_fuel_opcode _ _ _ _ Hfound) as (ar' & Har' & Hopar).
  assert (ar' = ar) as -> by congruence.
  destruct (detach_succeeds allreduce_ins u c ui ar Hclosed Hu Har Hone)
    as (c1 & Hdetach & Hclosed1 & Hkeeps).
  destruct Hkeeps as (Hr1 & _ & _ & Hk & _).
  destruct (Hk _ _ Hadd) as (add1 & Hadd1 & Hsig1).
  destruct (Hk _ _ Har) as (ar1 & Har1 & Hsig2).
  destruct (Hk _ _ Hroot) as (root1 & Hroot1 & Hsig3).
  unfold mutable_operand_Z in Hop. rewrite Hroot in Hop. simpl in Hop.
  apply vector_at_Some in Hop as (Hi0 & Hilt & _).
  rewrite <- Hr1 in Hroot1.
  exists c1, add1, ar1, root1.
  do 9 (split; [done |]).
  intros c' rm Hre. unfold Run. simpl. unfold rewrite_index. simpl.
  rewrite Hmatch. simpl. rewrite Hdetach. simpl. rewrite Hre. done.
Qed.

(** X12.  A rewritten output is not rewritten twice.  Under the
    conditions of a match at index [i] (the root a tuple, output [i] an
    Add whose operand 1 resolves to a collective with one user and one
    operand; with the Add an array when the element types differ),
    [GradAccRewrite::Run] on the index list [[i]] returns a module on
    which the same run changes nothing: output [i] is then fed by the
    collective or by a reshape, not by an Add, so the index takes the
    [continue] of the loop. *)
Theorem Run_again_changes_nothing c i add_ins add x allreduce_ins ar root other :
  operands_closed c →
  instr c (root_instruction c) = Some root → opcode root = kTuple →
  mutable_operand_Z c (root_instruction c) i = Some add_ins →
  instr c add_ins = Some add → opcode add = kAdd →
  mutable_operand c add_ins 1 = Some x →
  GetAllReduce c x = Some (Some allreduce_ins) →
  length (users c allreduce_ins) = 1%nat →
  instr c allreduce_ins = Some ar → length (operands ar) = 1%nat →
  SameElementType (shape ar) (shape add) = true ∨ IsArray (shape add) = true →
  ∃ c', Run (mkContext true [i] other) (mkModule c) = Some (true, mkModule c') ∧
        Run (mkContext true [i] other) (mkModule c') = Some (true, mkModule c').
Proof.
  intros Hclosed Hroot Hoproot Hop Hadd Hopadd Hx Hfound Husers Har Hone Hcase.
  destruct (Run_matched _ _ _ _ _ _ _ _ other Hclosed Hroot Hoproot Hop Hadd
              Hopadd Hx Hfound Husers Har Hone)
    as (c1 & add1 & ar1 & root1 & Hadd1 & (Hoa1 & Hsa1 & _) & Har1
        & (Hoar1 & Hsar1 & Hlar1 & _) & Hopar & Hroot1 & (Hor1 & _ & Hlr1 & _)
        & Hi0 & Hilt & Hrun).
  destruct (SameElementType (shape ar) (shape add)) eqn:Ht.
  - destruct (reinsert_one_type c1 [] (Z.to_nat i) add_ins allreduce_ins
                add1 ar1 root1)
      as (c' & b1 & b2 & root' & Hre & Hr' & Hroot' & Hb2 & Hbr2 & Har5 & _);
      try congruence.
    exists c'. split; [by rewrite (Hrun _ _ Hre) |].
    assert (mutable_operand_Z c' (root_instruction c') i = Some b2) as Hop'.
    { unfold mutable_operand_Z. rewrite Hr', Hroot'. simpl.
      by apply vector_at_lookup. }
    destruct Hbr2 as [-> | [(sh & Hb) | (sh & sh' & v & Hb & _)]].
    + eapply Run_skips; [done | done |]. simpl. congruence.
    + eapply Run_skips; [done | done |]. done.
    + eapply Run_skips; [done | done |]. done.
  - destruct Hcase as [? | Harr]; [done |].
    destruct (reinsert_other_type c1 [] (Z.to_nat i) add_ins allreduce_ins
                add1 ar1 root1)
      as (c' & Hre & Hr' & Hdead & (root' & Hroot' & Hb2) & H3 & _);
      try congruence.
    set (L := length (instructions c1)) in *.
    pose proof (instr_lt _ _ _ Har1) as HarL. fold L in HarL.
    assert (allreduce_ins ≠ root_instruction c') as Hnr.
    { intros E. rewrite Hr' in E. rewrite <- E in Hroot1. congruence. }
    assert (∀ n, n ≠ allreduce_ins →
                 instr (RemoveInstruction allreduce_ins c') n = instr c' n)
      as Hrest.
    { intros n Hn. rewrite instr_RemoveInstruction_dead by done.
      by rewrite decide_False. }
    exists (RemoveInstruction allreduce_ins c').
    split; [by rewrite (Hrun _ _ Hre) |].
    eapply (Run_skips _ _ (3 + L)%nat).
    + unfold mutable_operand_Z. rewrite root_RemoveInstruction, Hr'.
      rewrite Hrest by (intros E; rewrite E in Hroot1; congruence).
      rewrite Hroot'. simpl. by apply vector_at_lookup.
    + rewrite Hrest by lia. exact H3.
    + done.
Qed.

Lemma Run_again_changes_nothing_witness :
  (∃ c', Run (mkContext true [2] []) scenario_A = Some (true, mkModule c') ∧
         Run (mkContext true [2] []) (mkModule c') = Some (true, mkModule c')) ∧
  (∃ c', Run (mkContext true [0] []) scenario_D = Some (true, mkModule c') ∧
         Run (mkContext true [0] []) (mkModule c') = Some (true, mkModule c')).
Proof.
  split.
  - apply (Run_again_changes_nothing (entry_computation scenario_A) 2 3
             (plain kAdd f32_4 [0%nat; 2%nat]) 2 2
             (collective f32_4 [1%nat] (Some 7))
             (plain kTuple (TupleShape [f32_4; f32_4; f32_4])
                    [4%nat; 4%nat; 3%nat]) []
             ltac:(apply closedb_operands_closed; reflexivity)
             eq_refl eq_refl eq_refl eq_refl eq_refl eq_refl eq_refl eq_refl
             eq_refl eq_refl).
    left. reflexivity.
  - apply (Run_again_changes_nothing (entry_computation scenario_D) 0 4
             (plain kAdd f32_4 [0%nat; 3%nat]) 3 2
             (collective bf16_4 [1%nat] (Some 7))
             (plain kTuple (TupleShape [f32_4]) [4%nat]) []
             ltac:(apply closedb_operands_closed; reflexivity)
             eq_refl eq_refl eq_refl eq_refl eq_refl eq_refl eq_refl eq_refl
             eq_refl eq_refl).
    right. reflexivity.
Defined.

(** ** The query after the pass *)

Lemma grad_sync_collectives_spec module inst :
  inst ∈ grad_sync_collectives module ↔
  (∃ n, instr (entry_computation module) n = Some inst) ∧
  opcode inst = kAllReduce ∧ metadata_op_name inst = kSkippableAllReduce.
Proof.
  unfold grad_sync_collectives. rewrite list_elem_of_filter, list_elem_of_omap.
  split.
  - intros [Htag (slot & Hin & Hslot)]. split; [| done].
    apply list_elem_of_lookup in Hin as [n Hn]. exists n. unfold instr.
    rewrite Hn. by destruct slot; simplify_eq/=.
  - intros [[n Hn] Htag]. split; [done |]. exists (Some inst). split; [| done].
    unfold instr in Hn. destruct (instructions _ !! n) as [[?|]|] eqn:E;
      simplify_eq. by eapply list_elem_of_lookup_2.
Qed.

Lemma GetGradSyncChannelIds_without_channel module inst :
  inst ∈ grad_sync_collectives module → channel_id inst = None →
  GetGradSyncChannelIds module = None.
Proof.
  intros Hin Hnone. unfold GetGradSyncChannelIds.
  rewrite GetGradSyncChannelIds_text. fold (grad_sync_collectives module).
  rewrite mapM_None_2; [done |]. apply Exists_exists. eauto.
Qed.

(** X13.  After a rewrite the diagnostic query sees the rewritten
    collective.  Under the conditions of a match at index [i],
    [GradAccRewrite::Run] on the index list [[i]] returns a module in
    which a tagged all-reduce carries the channel identifier of the
    matched collective (the collective itself, or its replacement when
    the element types differ), so [GetGradSyncChannelIds] reports it;
    and when the matched collective has no channel identifier, the
    query has no result on the returned module. *)
Theorem rewritten_collective_is_reported
    c i add_ins add x allreduce_ins ar root other :
  operands_closed c →
  instr c (root_instruction c) = Some root → opcode root = kTuple →
  mutable_operand_Z c (root_instruction c) i = Some add_ins →
  instr c add_ins = Some add → opcode add = kAdd →
  mutable_operand c add_ins 1 = Some x →
  GetAllReduce c x = Some (Some allreduce_ins) →
  length (users c allreduce_ins) = 1%nat →
  instr c allreduce_ins = Some ar → length (operands ar) = 1%nat →
  SameElementType (shape ar) (shape add) = true ∨ IsArray (shape add) = true →
  ∃ c' inst,
    Run (mkContext true [i] other) (mkModule c) = Some (true, mkModule c') ∧
    inst ∈ grad_sync_collectives (mkModule c') ∧
    channel_id inst = channel_id ar ∧
    (channel_id ar = None → GetGradSyncChannelIds (mkModule c') = None).
Proof.
  intros Hclosed Hroot Hoproot Hop Hadd Hopadd Hx Hfound Husers Har Hone Hcase.
  destruct (Run_matched _ _ _ _ _ _ _ _ other Hclosed Hroot Hoproot Hop Hadd
              Hopadd Hx Hfound Husers Har Hone)
    as (c1 & add1 & ar1 & root1 & Hadd1 & (Hoa1 & Hsa1 & _) & Har1
        & (Hoar1 & Hsar1 & Hlar1 & Hch1 & _) & Hopar & Hroot1
        & (Hor1 & _ & Hlr1 & _) & Hi0 & Hilt & Hrun).
  assert (∀ c' inst,
            Run (mkContext true [i] other) (mkModule c) = Some (true, mkModule c') →
            inst ∈ grad_sync_collectives (mkModule c') →
            channel_id inst = channel_id ar →
            ∃ c' inst,
              Run (mkContext true [i] other) (mkModule c)
              = Some (true, mkModule c') ∧
              inst ∈ grad_sync_collectives (mkModule c') ∧
              channel_id inst = channel_id ar ∧
              (channel_id ar = None →
               GetGradSyncChannelIds (mkModule c') = None)) as Hreport.
  { intros c' inst H Hin Hch. exists c', inst. repeat split; try done.
    intros Hnone. eapply GetGradSyncChannelIds_without_channel; [done |].
    congruence. }
  destruct (SameElementType (shape ar) (shape add)) eqn:Ht.
  - destruct (reinsert_one_type c1 [] (Z.to_nat i) add_ins allreduce_ins
                add1 ar1 root1)
      as (c' & b1 & b2 & root' & Hre & _ & _ & _ & _ & Har5 & _);
      try congruence.
    eapply Hreport; [by rewrite (Hrun _ _ Hre) | |].
    + apply grad_sync_collectives_spec. simpl.
      split; [exists allreduce_ins; exact Har5 |].
      split; [simpl; congruence | done].
    + simpl. exact Hch1.
  - destruct Hcase as [? | Harr]; [done |].
    destruct (reinsert_other_type c1 [] (Z.to_nat i) add_ins allreduce_ins
                add1 ar1 root1)
      as (c' & Hre & Hr' & Hdead & _ & _ & _ & _ & _ & H6 & _);
      try congruence.
    set (L := length (instructions c1)) in *.
    pose proof (instr_lt _ _ _ Har1) as HarL. fold L in HarL.
    assert (allreduce_ins ≠ root_instruction c') as Hnr.
    { intros E. rewrite Hr' in E. rewrite <- E in Hroot1. congruence. }
    eapply Hreport; [by rewrite (Hrun _ _ Hre) | |].
    + apply grad_sync_collectives_spec. simpl. split; [| split].
      * exists (6 + L)%nat. rewrite instr_RemoveInstruction_dead by done.
        rewrite decide_False by lia. exact H6.
      * done.
      * done.
    + simpl. exact Hch1.
Qed.

Lemma rewritten_collective_is_reported_witness :
  ∃ c' inst,
    Run (mkContext true [0] []) scenario_D = Some (true, mkModule c') ∧
    inst ∈ grad_sync_collectives (mkModule c') ∧
    channel_id inst = Some 7 ∧
    (Some 7 = None → GetGradSyncChannelIds (mkModule c') = None).
Proof.
  apply (rewritten_collective_is_reported (entry_computation scenario_D) 0 4
           (plain kAdd f32_4 [0%nat; 3%nat]) 3 2
           (collective bf16_4 [1%nat] (Some 7))
           (plain kTuple (TupleShape [f32_4]) [4%nat]) []
           ltac:(apply closedb_operands_closed; reflexivity)
           eq_refl eq_refl eq_refl eq_refl eq_refl eq_refl eq_refl eq_refl
           eq_refl eq_refl).
  right. reflexivity.
Defined.

(** ** The consumers of a relocated parameter *)

Lemma with_operands_same ins : with_operands (operands ins) ins = ins.
Proof. by destruct ins. Qed.

Lemma instr_ReplaceOperandWith n k new c ins m :
  instr c n = Some ins →
  instr (ReplaceOperandWith n k new c) m
  = if decide (m = n) then Some (with_operands (<[k := new]> (operands ins)) ins)
    else instr c m.
Proof.
  intros Hins. unfold ReplaceOperandWith. rewrite instr_update_instr.
  case_decide; [by rewrite Hins | done].
Qed.

(** With a new collective that already has the parameter's shape, the
    inner loop only swaps operands of [u]. *)
Lemma rewire_operands_exact p new u sh slots c ui :
  (∃ pi, instr c p = Some pi ∧ shape pi = sh) →
  (∃ ni, instr c new = Some ni ∧ Compatible (shape ni) sh = true) →
  instr c u = Some ui →
  (∀ k, k ∈ slots → (k < length (operands ui))%nat) →
  ∃ c' ops',
    rewire_operands p new u slots c = Some c' ∧
    length (instructions c') = length (instructions c) ∧
    (∀ n, instr c' n = if decide (n = u) then Some (with_operands ops' ui)
                       else instr c n) ∧
    ∀ k, ops' !! k
         = (λ o, if decide (k ∈ slots ∧ o = p) then new else o)
             <$> operands ui !! k.
Proof.
  revert c ui. induction slots as [| i rest IH];
    intros c ui Hp Hnew Hui Hslots.
  { exists c, (operands ui). split; [done |]. split; [done |]. split.
    - intros n. case_decide; [subst; by rewrite with_operands_same | done].
    - intros k. destruct (operands ui !! k) as [o|]; [| done]. simpl.
      first [done | case_decide as E; [destruct E as [Hk _] | done];
                    by apply elem_of_nil in Hk]. }
  destruct (lookup_lt_is_Some_2 (operands ui) i) as [o Ho];
    [apply Hslots; by left |].
  cbn [rewire_operands]. rewrite (mutable_operand_eq _ _ _ _ Hui), Ho. run_step.
  assert (∀ ops0 ops1 : list nat, ∀ k,
            (k ≠ i → ops0 !! k = operands ui !! k) →
            (k = i → ops0 !! k = (if decide (o = p) then Some new else Some o)) →
            ops1 !! k
            = (λ o, if decide (k ∈ rest ∧ o = p) then new else o) <$> ops0 !! k →
            ops1 !! k
            = (λ o, if decide (k ∈ i :: rest ∧ o = p) then new else o)
                <$> operands ui !! k) as Hmerge.
  { intros ops0 ops1 k Hne Heq ->. destruct (decide (k = i)) as [-> | Hki].
    - rewrite Heq, Ho by done.
      destruct (decide (o = p)) as [-> | Hop]; simpl; f_equal.
      + rewrite (decide_True (P := i ∈ i :: rest ∧ p = p))
          by (split; [by left | done]).
        by case_decide.
      + case_decide as E1; [naive_solver |].
        case_decide as E2; [naive_solver | done].
    - rewrite Hne by done. destruct (operands ui !! k) as [o'|]; [| done].
      simpl. f_equal. apply decide_ext. rewrite elem_of_cons. naive_solver. }
  case_decide as Hop.
  - subst o. destruct Hp as (pi & Hpi & Hsh). rewrite Hpi. run_step.
    destruct Hnew as (ni & Hni & Hcompat).
    rewrite Hsh, (MaybeReshapeConvert_compatible _ _ _ _ Hni Hcompat). run_step.
    set (c2 := ReplaceOperandWith u i new c).
    set (ui2 := with_operands (<[i := new]> (operands ui)) ui).
    assert (∀ n, instr c2 n = if decide (n = u) then Some ui2 else instr c n)
      as Hc2 by (intros n; by apply instr_ReplaceOperandWith).
    destruct (IH c2 ui2) as (c' & ops' & H & Hlen & Hinstr & Hops).
    + rewrite Hc2. case_decide; [subst; exists ui2; split; [done |] | eauto].
      simpl. congruence.
    + rewrite Hc2. case_decide; [subst; exists ui2; split; [done |] | eauto].
      simpl. assert (ni = ui) as -> by congruence. done.
    + rewrite Hc2. by rewrite decide_True.
    + intros k Hk. simpl. rewrite length_insert. apply Hslots. by right.
    + exists c', ops'. split; [done |].
      split; [rewrite Hlen; apply length_ReplaceOperandWith |]. split.
      * intros n. rewrite Hinstr, Hc2. by case_decide.
      * intros k. apply (Hmerge (<[i := new]> (operands ui))); [| | apply Hops].
        -- intros Hki. by rewrite list_lookup_insert_ne.
        -- intros ->. apply list_lookup_insert_eq. by eapply lookup_lt_Some.
  - destruct (IH c ui Hp Hnew Hui) as (c' & ops' & H & Hlen & Hinstr & Hops).
    { intros k Hk. apply Hslots. by right. }
    exists c', ops'. split; [done |]. split; [done |]. split; [done |].
    intros k. apply (Hmerge (operands ui)); [done | | apply Hops].
    by intros ->.
Qed.

Lemma rewire_users_exact p new sh us c :
  (∃ pi, instr c p = Some pi ∧ shape pi = sh) →
  (∃ ni, instr c new = Some ni ∧ Compatible (shape ni) sh = true) →
  NoDup us → (∀ u, u ∈ us → is_Some (instr c u)) →
  ∃ c',
    rewire_users p new us c = Some c' ∧
    length (instructions c') = length (instructions c) ∧
    ∀ n, instr c' n = if decide (n ∈ us) then replace_uses p new <$> instr c n
                      else instr c n.
Proof.
  revert c. induction us as [| u rest IH]; intros c Hp Hnew Hnodup Hlive.
  { exists c. split; [done |]. split; [done |]. intros n.
    rewrite decide_False; [done |]. apply not_elem_of_nil. }
  apply NoDup_cons in Hnodup as [Hu Hnodup].
  destruct (Hlive u) as [ui Hui]; [by left |].
  destruct (rewire_operands_exact p new u sh (seq 0 (length (operands ui))) c ui
              Hp Hnew Hui) as (c1 & ops' & H1 & Hlen1 & Hinstr1 & Hops).
  { intros k Hk%elem_of_seq. lia. }
  assert (with_operands ops' ui = replace_uses p new ui) as Hexact.
  { unfold replace_uses. f_equal. apply list_eq. intros k.
    rewrite Hops, list_lookup_fmap.
    destruct (operands ui !! k) as [o|] eqn:E; [| done]. simpl. f_equal.
    apply decide_ext. rewrite elem_of_seq. apply lookup_lt_Some in E.
    split; [by intros [_ ?] | intros ?; split; [lia | done]]. }
  rewrite Hexact in Hinstr1.
  destruct (IH c1) as (c' & H & Hlen & Hinstr); try done.
  - rewrite Hinstr1. case_decide as E; [| done].
    destruct Hp as (pi & Hpi & Hsh). exists (replace_uses p new ui).
    split; [done |]. simpl. rewrite E in Hpi. congruence.
  - rewrite Hinstr1. case_decide as E; [| done].
    destruct Hnew as (ni & Hni & Hc). exists (replace_uses p new ui).
    split; [done |]. simpl. rewrite E in Hni. congruence.
  - intros v Hv. rewrite Hinstr1. case_decide; [eauto |]. apply Hlive. by right.
  - exists c'. split; [| split; [congruence |]].
    + cbn [rewire_users]. rewrite Hui. run_step. rewrite H1. run_step. done.
    + intros n. rewrite Hinstr, Hinstr1.
      destruct (decide (n = u)) as [-> | Hn].
      * rewrite decide_False by done. rewrite decide_True by (by left).
        by rewrite Hui.
      * destruct (decide (n ∈ rest)) as [Hin | Hin].
        -- by rewrite decide_True by (by right).
        -- rewrite decide_False; [done |]. by intros [? | ?]%elem_of_cons.
Qed.

Lemma replace_uses_unused old new ins :
  old ∉ operands ins → replace_uses old new ins = ins.
Proof.
  intros Hn. unfold replace_uses.
  assert ((λ o, if decide (o = old) then new else o) <$> operands ins
          = operands ins) as ->; [| apply with_operands_same].
  etrans; [| apply list_fmap_id]. apply list_fmap_ext. intros k o Ho. simpl.
  rewrite decide_False; [done |]. intros ->. apply Hn.
  by eapply list_elem_of_lookup_2.
Qed.

(** X14.  The rewiring loops of a relocation (lines 269-277 of the group
    revision) redirect every use of the parameter: when the relocation
    returns, each instruction that was in the consumer computation is as
    it was, except that every operand slot that held the parameter holds
    the new collective (the collective itself: it has the parameter's
    shape, so no bridge is added); no instruction that was there reads
    the parameter any more. *)
Theorem relocation_rewires_every_use old add_shape in_index next a new next' a' :
  relocate_into old add_shape in_index next a = Some (new, next', a') →
  ∃ p,
    vector_at (param_instructions a) in_index = Some p ∧
    (length (instructions a) ≤ new)%nat ∧
    (∀ n, (n < length (instructions a))%nat →
          instr a' n = replace_uses p new <$> instr a n) ∧
    (∀ n ins', (n < length (instructions a))%nat → instr a' n = Some ins' →
               p ∉ operands ins').
Proof.
  intros H. unfold relocate_into in H.
  apply bind_Some in H as (p & Hp & H). apply bind_Some in H as (param & Hparam & H).
  destruct (SameElementType add_shape (shape param)) eqn:Ht; [| done]. simpl in H.
  set (channel := match channel_id old with Some _ => Some next | None => None end).
  assert (∃ ops a1,
    MaybeReshapeConvertTuple [p] (shape param) a = Some (ops, a1) ∧
    rewire_users p (length (instructions a1)) (users a p)
      (set_metadata_op_name (length (instructions a1)) (metadata_op_name old)
         (push_instruction
            (CreateAllReduce (shape param) ops (replica_groups old)
               (constrain_layout old) channel (use_global_device_ids old)) a1))
    = Some a' ∧ new = length (instructions a1))
    as (ops & a1 & Hbridge & Hrewire & ->).
  { unfold channel. destruct (channel_id old); inv_bind H;
      injection H as <- <- <-; eauto 10. }
  clear H.
  pose proof (MaybeReshapeConvertTuple_grows _ _ _ _ _ Hbridge) as Hg.
  pose proof (grows_length _ _ Hg) as Hlen.
  pose proof (instr_lt _ _ _ Hparam) as HpL.
  set (new := length (instructions a1)) in *.
  set (a3 := set_metadata_op_name new (metadata_op_name old) _) in *.
  assert (∀ n, (n < length (instructions a))%nat → instr a3 n = instr a n)
    as Hold3.
  { intros n Hn. unfold a3, set_metadata_op_name.
    rewrite instr_update_instr, decide_False by lia.
    rewrite instr_push_instruction, decide_False by (fold new; lia).
    by apply grows_old. }
  destruct (rewire_users_exact p new (shape param) (users a p) a3)
    as (c' & Hc' & _ & Hinstr).
  { exists param. split; [| done]. by rewrite Hold3. }
  { unfold a3, set_metadata_op_name.
    rewrite instr_update_instr, decide_True by done.
    rewrite instr_push_instruction, decide_True by done.
    eexists. split; [done |]. simpl. apply Compatible_refl. }
  { unfold users. apply NoDup_filter, NoDup_seq. }
  { intros u Hu. pose proof (users_lt _ _ _ Hu).
    apply users_spec in Hu as (ui & Hui & _). rewrite Hold3 by done. eauto. }
  assert (c' = a') as -> by congruence.
  assert (∀ n, (n < length (instructions a))%nat →
               instr a' n = replace_uses p new <$> instr a n) as Hexact.
  { intros n Hn. rewrite Hinstr, Hold3 by done.
    case_decide as Hin; [done |].
    destruct (instr a n) as [ins|] eqn:Hins; [| done]. simpl.
    rewrite replace_uses_unused; [done |]. intros Ho. apply Hin.
    apply users_spec. eauto. }
  exists p. split; [done |]. split; [lia |]. split; [done |].
  intros n ins' Hn Hins'. rewrite Hexact in Hins' by done.
  destruct (instr a n) as [ins|]; [| done]. injection Hins' as <-. simpl.
  intros (o & Ho & _)%list_elem_of_fmap. case_decide; [lia | done].
Qed.

Lemma relocation_rewires_every_use_witness :
  let a := entry_computation consumer_unit in
  ∃ p,
    vector_at (param_instructions a) 1 = Some p ∧
    (length (instructions a) ≤ 5)%nat ∧
    (∀ n, (n < length (instructions a))%nat →
          instr consumer_relocated n = replace_uses p 5 <$> instr a n) ∧
    (∀ n ins', (n < length (instructions a))%nat →
               instr consumer_relocated n = Some ins' → p ∉ operands ins').
Proof.
  apply (relocation_rewires_every_use (collective f32_4 [1%nat] (Some 7)) f32_4
           1 13 (entry_computation consumer_unit) 5%nat 14 consumer_relocated).
  vm_compute. reflexivity.
Defined.

(** ** The producer side of a relocation *)

Lemma feeds_from_refl S c : feeds_from S c c.
Proof. split; [done | auto]. Qed.

Lemma feeds_from_trans S S' c1 c2 c3 :
  feeds_from S c1 c2 → feeds_from S' c2 c3 →
  (∀ s, s ∈ S' → s ∈ S ∨ (length (instructions c1) ≤ s)%nat) →
  feeds_from S c1 c3.
Proof.
  intros [Hl1 H1] [Hl2 H2] HS. split; [lia |]. intros o n Hedge.
  destruct (H2 _ _ Hedge) as [He | [Hs | Hnew]].
  - by apply H1.
  - destruct (HS _ Hs); auto.
  - right; right. lia.
Qed.

Lemma feeds_from_bridge_replace src dst c r c' n k :
  MaybeReshapeConvert src dst c = Some (r, c') →
  feeds_from [src] c (ReplaceOperandWith n k r c').
Proof.
  intros H. pose proof (grows_length _ _ (MaybeReshapeConvert_grows _ _ _ _ _ H)).
  destruct (MaybeReshapeConvert_added _ _ _ _ _ H) as (_ & Hr & _).
  split; [rewrite length_ReplaceOperandWith; lia |]. intros o m Hedge.
  apply edge_ReplaceOperandWith in Hedge as [He | [-> ->]].
  - destruct (edge_MaybeReshapeConvert _ _ _ _ _ _ _ H He) as [? | [_ [-> | ?]]];
      [by left | right; left; by left | right; right; lia].
  - destruct Hr as [-> | ?]; [right; left; by left | right; right; lia].
Qed.

Lemma feeds_from_set_metadata_op_name n name c :
  feeds_from [] c (set_metadata_op_name n name c).
Proof.
  split; [by rewrite length_set_metadata_op_name |].
  intros o m Hedge%edge_set_metadata_op_name. by left.
Qed.

Lemma feeds_from_bridge_collective s dst c ret c' sh groups constrain channel ids :
  MaybeReshapeConvertTuple [s] dst c = Some (ret, c') →
  feeds_from [s] c (push_instruction
                      (CreateAllReduce sh ret groups constrain channel ids) c').
Proof.
  intros H. destruct (MaybeReshapeConvertTuple_single _ _ _ _ _ H)
    as (r & sh' & -> & Hr & _).
  pose proof (grows_length _ _ (MaybeReshapeConvert_grows _ _ _ _ _ Hr)).
  destruct (MaybeReshapeConvert_added _ _ _ _ _ Hr) as (_ & Hpos & _).
  split; [rewrite length_push_instruction; lia |]. intros o m Hedge.
  apply edge_push_instruction in Hedge as [He | [-> Ho]].
  - destruct (edge_MaybeReshapeConvert _ _ _ _ _ _ _ Hr He) as [? | [_ [-> | ?]]];
      [by left | right; left; by left | right; right; lia].
  - simpl in Ho. apply list_elem_of_singleton in Ho as ->.
    destruct Hpos as [-> | ?]; [right; left; by left | right; right; lia].
Qed.

Lemma feeds_from_bridge_redirect src dst c r c' old :
  MaybeReshapeConvert src dst c = Some (r, c') →
  feeds_from [src] c (ReplaceAllUsesWith old r c').
Proof.
  intros H. pose proof (grows_length _ _ (MaybeReshapeConvert_grows _ _ _ _ _ H)).
  destruct (MaybeReshapeConvert_added _ _ _ _ _ H) as (_ & Hr & _).
  split.
  { unfold ReplaceAllUsesWith. simpl. rewrite length_fmap. lia. }
  intros o m Hedge. apply edge_ReplaceAllUsesWith in Hedge as (o0 & He & ->).
  case_decide.
  - destruct Hr as [-> | ?]; [right; left; by left | right; right; lia].
  - destruct (edge_MaybeReshapeConvert _ _ _ _ _ _ _ H He) as [? | [_ [-> | ?]]];
      [by left | right; left; by left | right; right; lia].
Qed.

Lemma feeds_from_userless S c c' t :
  feeds_from S c c' → users c t = [] → t ∉ S →
  (t < length (instructions c))%nat → users c' t = [].
Proof.
  rewrite !users_nil_edge. intros [_ H] Hu Hs Ht m Hedge.
  destruct (H _ _ Hedge) as [He | [? | ?]]; [by eapply Hu | done | lia].
Qed.

Lemma detach_loop_feeds ar u x ai slots c c' :
  instr c ar = Some ai → operands ai = [x] → u ≠ ar →
  detach_loop ar u slots c = Some c' → feeds_from [x] c c'.
Proof.
  intros Har Hx Hu. revert c Har.
  induction slots as [| i rest IH]; intros c Har H; simpl in H.
  { injection H as <-. apply feeds_from_refl. }
  apply bind_Some in H as (o & Ho & H).
  case_decide as Hoar; [| by eapply IH].
  subst o. apply bind_Some in H as (x0 & Hx0 & H).
  rewrite (mutable_operand_eq _ _ _ _ Har), Hx in Hx0. injection Hx0 as <-.
  apply bind_Some in H as (oi & Hoi & H). rewrite Har in Hoi. injection Hoi as <-.
  apply bind_Some in H as ([b c1] & Hb & H).
  pose proof (MaybeReshapeConvert_grows _ _ _ _ _ Hb) as Hg1.
  eapply feeds_from_trans; [by eapply feeds_from_bridge_replace | |].
  - eapply IH; [| done]. unfold ReplaceOperandWith.
    rewrite instr_update_instr, decide_False by (by intros ->).
    by rewrite (grows_old _ _ _ Hg1) by (by eapply instr_lt).
  - intros s Hs. by left.
Qed.

Lemma reinsert_feeds i add_ins ar c rm c' rm' ai :
  instr c ar = Some ai → length (operands ai) = 1%nat →
  root_instruction c ≠ ar →
  reinsert i add_ins ar (c, rm) = Some (c', rm') →
  feeds_from [add_ins; ar] c c'.
Proof.
  intros Har Hone Hrne H. unfold reinsert in H.
  apply bind_Some in H as (ar0 & Har0 & H).
  assert (ar0 = ai) as -> by congruence. clear Har0.
  apply bind_Some in H as ([b1 c1] & Hb1 & H).
  set (c2 := ReplaceOperandWith ar 0 b1 c1) in *.
  apply bind_Some in H as (add & Hadd & H).
  apply bind_Some in H as ([b2 c3] & Hb2 & H).
  set (c4 := ReplaceOperandWith (root_instruction c) i b2 c3) in *.
  set (c5 := set_metadata_op_name ar kSkippableAllReduce c4) in *.
  apply bind_Some in H as (old & Hold & H).
  apply bind_Some in H as (add5 & Hadd5 & H).
  pose proof (instr_lt _ _ _ Har) as HarL.
  pose proof (MaybeReshapeConvert_grows _ _ _ _ _ Hb1) as Hg1.
  pose proof (grows_length _ _ Hg1) as Hlen1.
  pose proof (MaybeReshapeConvert_grows _ _ _ _ _ Hb2) as Hg3.
  pose proof (grows_length _ _ Hg3) as Hlen3.
  destruct (MaybeReshapeConvert_added _ _ _ _ _ Hb1) as (_ & Hpos1 & _).
  assert (length (instructions c2) = length (instructions c1)) as Hlen2
    by apply length_ReplaceOperandWith.
  assert (feeds_from [add_ins; ar] c c2) as F2.
  { eapply feeds_from_trans;
      [apply feeds_from_refl | by eapply feeds_from_bridge_replace |].
    intros s ->%list_elem_of_singleton. left. by left. }
  assert (feeds_from [add_ins; ar] c c5) as F5.
  { eapply feeds_from_trans; [| apply feeds_from_set_metadata_op_name |].
    - eapply feeds_from_trans;
        [exact F2 | by eapply feeds_from_bridge_replace |].
      intros s ->%list_elem_of_singleton. left. right. by left.
    - intros s Hs. by apply elem_of_nil in Hs. }
  destruct (SameElementType (shape old) (shape add5)); simpl in H.
  { by injection H as <- <-. }
  assert (operands old = [b1]) as Hops.
  { unfold c5, set_metadata_op_name in Hold.
    rewrite instr_update_instr, decide_True in Hold by done.
    unfold c4, ReplaceOperandWith in Hold.
    rewrite instr_update_instr, decide_False in Hold by done.
    rewrite (grows_old _ _ _ Hg3) in Hold by lia.
    unfold c2 in Hold.
    rewrite (instr_ReplaceOperandWith _ _ _ _ ai) in Hold
      by (by rewrite (grows_old _ _ _ Hg1)).
    rewrite decide_True in Hold by done.
    injection Hold as <-. simpl.
    by destruct (operands ai) as [| ? [| ? ?]]. }
  rewrite Hops in H. apply bind_Some in H as ([ops c6] & Hops6 & H).
  apply bind_Some in H as ([b3 c9] & Hb3 & H). injection H as <- <-.
  pose proof (grows_length _ _ (MaybeReshapeConvertTuple_grows _ _ _ _ _ Hops6))
    as Hlen6.
  assert (length (instructions c5) = length (instructions c3)) as Hlen5.
  { unfold c5, c4. by rewrite length_set_metadata_op_name,
      length_ReplaceOperandWith. }
  eapply feeds_from_trans; [| by eapply feeds_from_bridge_redirect |].
  - eapply feeds_from_trans; [| apply feeds_from_set_metadata_op_name |].
    + eapply feeds_from_trans;
        [exact F5 | by eapply feeds_from_bridge_collective |].
      intros s ->%list_elem_of_singleton.
      destruct Hpos1 as [-> | ?]; [left; by left | right; lia].
    + intros s Hs. by apply elem_of_nil in Hs.
  - intros s ->%list_elem_of_singleton. right. lia.
Qed.

(** After the detach loop of a match, a node without users still has
    none. *)
Lemma matched_detach_userless rank c i add_ins ar u c1 t :
  ranked rank c →
  match_index c i = Some (Some (add_ins, ar, u)) →
  detach ar u c = Some c1 →
  users c t = [] → (t < length (instructions c))%nat →
  users c1 t = [] ∧ t ≠ add_ins ∧ t ≠ ar ∧
  (length (instructions c) ≤ length (instructions c1))%nat.
Proof.
  intros Hr Hm Hd Ht HtL.
  destruct (match_index_inv _ _ _ _ _ Hm)
    as (root & add & x & ai & Hroot & Hi & Hadd & Hopadd & Hx & Hfound & Husers
        & Har & Hopar & Hone).
  apply vector_at_Some in Hi as (_ & _ & Hi).
  apply list_elem_of_lookup_2 in Hi.
  destruct (operands ai) as [| xa [| ? ?]] eqn:Hops; try done.
  assert (rank xa < rank ar)%nat as Hlt3
    by (apply (Hr _ _ _ Har); rewrite Hops; by left).
  assert (u ∈ users c ar) as Hu by (rewrite Husers; by left).
  apply users_spec in Hu as (ui & Hui & Hin).
  pose proof (Hr _ _ _ Hui Hin) as Hlt4.
  rewrite users_nil_edge in Ht.
  assert (t ≠ xa) as Hne1.
  { intros ->. apply (Ht ar). exists ai. split; [done |]. rewrite Hops. by left. }
  assert (t ≠ add_ins) as Hne2.
  { intros ->. apply (Ht (root_instruction c)). by exists root. }
  assert (t ≠ ar) as Hne3.
  { intros ->. apply (Ht u). by exists ui. }
  unfold detach in Hd. rewrite Hui in Hd. simpl in Hd.
  pose proof (detach_loop_feeds ar u xa ai _ c c1 Har Hops
                ltac:(intros ->; lia) Hd) as Hfeeds.
  split; [| split; [done | split; [done | apply Hfeeds]]].
  eapply feeds_from_userless; [exact Hfeeds | | | done].
  - by apply users_nil_edge.
  - by intros ->%list_elem_of_singleton.
Qed.

Lemma userless_set_metadata_op_name n name c t :
  users c t = [] → users (set_metadata_op_name n name c) t = [].
Proof.
  rewrite !users_nil_edge. intros Hu m Hedge%edge_set_metadata_op_name.
  by eapply Hu.
Qed.

Lemma delay_index_userless out_index in_index st st' t :
  acyclic (backward_entry st) → operands_closed (backward_entry st) →
  delay_index out_index in_index st = Some st' →
  users (backward_entry st) t = [] →
  (t < length (instructions (backward_entry st)))%nat →
  users (backward_entry st') t = [].
Proof.
  intros [rank Hr] Hc H Ht HtL. unfold delay_index in H.
  apply bind_Some in H as (m & Hm & H).
  destruct m as [[[add_ins ar] u]|]; [| by injection H as <-].
  apply bind_Some in H as (c1 & Hc1 & H).
  destruct (matched_detach _ _ _ _ _ _ _ Hr Hc Hm Hc1)
    as (rank1 & ai & _ & _ & _ & Har1 & _ & _ & Hone & _ & _ & _ & _ & Hrne & _).
  destruct (matched_detach_userless _ _ _ _ _ _ _ t Hr Hm Hc1 Ht HtL)
    as (Ht1 & Hne2 & Hne3 & Hlen1).
  case_decide.
  - apply bind_Some in H as ([c2 rm] & Hre & H). injection H as <-. simpl.
    eapply feeds_from_userless;
      [by eapply reinsert_feeds | done | | lia].
    intros [-> | [-> | []%elem_of_nil]%elem_of_cons]%elem_of_cons; done.
  - unfold relocate in H. simpl in H. inv_bind H. injection H as <-. simpl.
    by apply userless_set_metadata_op_name.
Qed.

Lemma delay_loop_userless pairs st st' t :
  acyclic (backward_entry st) → operands_closed (backward_entry st) →
  delay_loop pairs st = Some st' →
  users (backward_entry st) t = [] →
  (t < length (instructions (backward_entry st)))%nat →
  users (backward_entry st') t = [] ∧
  ∃ more, to_remove st' = to_remove st ++ more.
Proof.
  revert st. induction pairs as [| [o i] rest IH]; intros st Ha Hc H Ht HtL;
    simpl in H.
  { injection H as <-. split; [done |]. exists []. by rewrite app_nil_r. }
  apply bind_Some in H as (st1 & H1 & H).
  destruct (delay_index_extends _ _ _ _ H1) as (Hext & _ & _).
  destruct (IH st1) as (Hu & more & Hmore); try done.
  - by eapply delay_index_producer_acyclic.
  - by apply Hext.
  - by eapply delay_index_userless.
  - destruct Hext as ((_ & _ & Hlen & _) & _). lia.
  - split; [done |].
    assert (∃ more1, to_remove st1 = to_remove st ++ more1) as [more1 Hmore1].
    { clear -H1. unfold delay_index in H1.
      apply bind_Some in H1 as (m & Hm & H).
      destruct m as [[[add_ins ar] u]|];
        [| injection H as <-; exists []; by rewrite app_nil_r].
      apply bind_Some in H as (c1 & Hc1 & H). case_decide.
      - apply bind_Some in H as ([c2 rm] & Hre & H). injection H as <-. simpl.
        destruct (reinsert_scheduled _ _ _ _ _ _ _ Hre) as [-> | ->];
          [exists []; by rewrite app_nil_r | eauto].
      - unfold relocate in H. simpl in H. inv_bind H. injection H as <-.
        simpl. eauto. }
    exists (more1 ++ more). by rewrite Hmore, Hmore1, app_assoc.
Qed.

(** X15.  A relocation takes the collective out of the producer module.
    Let the producer's entry computation be closed and acyclic, let the
    first pair of the run match (output [out_index] is an Add whose
    operand 1 resolves to the collective [ar], which has one user and one
    operand) and name a consumer parameter ([in_index] is not -1).  When
    [GradAccCommDelay::RunOnModuleGroup] returns, whatever the later
    pairs did, [ar] is no longer in the producer module and no
    instruction of the producer module reads it. *)
Theorem relocated_collective_leaves_producer
    out_index in_index outs ins backward applygrad add_ins ar u
    changed backward' applygrad' :
  operands_closed (entry_computation backward) →
  acyclic (entry_computation backward) →
  match_index (entry_computation backward) out_index
    = Some (Some (add_ins, ar, u)) →
  in_index ≠ -1 →
  RunOnModuleGroup (mkContext true (out_index :: outs) (in_index :: ins))
                   (backward, applygrad)
    = Some (changed, (backward', applygrad')) →
  instr (entry_computation backward') ar = None ∧
  ∀ n ins', instr (entry_computation backward') n = Some ins' →
            ar ∉ operands ins'.
Proof.
  intros Hc [rank Hr] Hm Hin H. unfold RunOnModuleGroup in H.
  cbn [negb rewrite_for_grad_acc rewrite_indices rewrite_applygrad_indices] in H.
  case_decide as Hlen; [done |]. apply bind_Some in H as (st & Hloop & H).
  injection H as <- <- <-. cbn [entry_computation].
  cbn [zip zip_with delay_loop] in Hloop.
  apply bind_Some in Hloop as (st1 & H1 & Hloop).
  match type of H1 with delay_index _ _ ?s = _ => set (st0 := s) in * end.
  assert (acyclic (backward_entry st0)) as Ha0 by (by exists rank).
  assert (operands_closed (backward_entry st0)) as Hc0 by done.
  pose proof (delay_index_extends _ _ _ _ H1) as ((_ & Hc1' & _) & _ & _).
  pose proof (delay_index_producer_acyclic _ _ _ _ Ha0 Hc0 H1) as Ha1.
  unfold delay_index, st0 in H1. cbn [backward_entry] in H1. rewrite Hm in H1.
  cbn [mbind option_bind] in H1.
  apply bind_Some in H1 as (c1 & Hd & H1).
  rewrite decide_False in H1 by done.
  destruct (matched_detach _ _ _ _ _ _ _ Hr Hc Hm Hd)
    as (rank1 & ai & Hr1 & Hcl1 & Hu1 & Har1 & _ & _ & _ & _ & _ & _ & Hroot1
        & Hrne & _).
  unfold relocate in H1. cbn [backward_entry applygrad_entry next_channel_id
                              to_remove] in H1.
  inv_bind H1. injection H1 as <-.
  set (b1 := set_metadata_op_name ar kDelayedAllReduce c1) in *.
  destruct (delay_loop_userless _ _ _ ar Ha1 (Hc1' Hc0) Hloop)
    as (Hu & more & Hmore).
  { by apply userless_set_metadata_op_name. }
  { cbn [backward_entry]. unfold b1. rewrite length_set_metadata_op_name.
    by eapply instr_lt. }
  cbn [to_remove app] in Hmore.
  destruct (delay_loop_keeps _ _ _ Hloop) as ((Hroot & _) & _).
  cbn [backward_entry] in Hroot.
  assert (ar ≠ root_instruction (backward_entry st)) as Hnr.
  { rewrite Hroot. unfold b1, set_metadata_op_name.
    rewrite root_update_instr. by intros ->. }
  rewrite Hmore. unfold remove_all. cbn [fold_left].
  fold (remove_all more (RemoveInstruction ar (backward_entry st))). split.
  - destruct (remove_all_effect more (RemoveInstruction ar (backward_entry st)))
      as (_ & _ & Hn).
    destruct (Hn ar) as [-> | [-> _]]; [| done].
    rewrite instr_RemoveInstruction_dead by done. by rewrite decide_True.
  - intros k ins' Hins' Ho. rewrite users_nil_edge in Hu. apply (Hu k).
    eapply edge_RemoveInstruction, edge_remove_all. by exists ins'.
Qed.

Lemma relocated_collective_leaves_producer_witness :
  instr (entry_computation two_relocations_after.1) 2 = None ∧
  ∀ n ins', instr (entry_computation two_relocations_after.1) n = Some ins' →
            2%nat ∉ operands ins'.
Proof.
  apply (relocated_collective_leaves_producer 0 1 [1] [0] producer_two
           consumer_unit 3 2 3 true two_relocations_after.1
           two_relocations_after.2).
  - apply closedb_operands_closed. reflexivity.
  - apply topological_acyclic. reflexivity.
  - reflexivity.
  - lia.
  - vm_compute. reflexivity.
Defined.

(** ** The two-module pass runs to its end *)

Lemma relocate_into_succeeds old add_shape in_index next a p param :
  vector_at (param_instructions a) in_index = Some p →
  instr a p = Some param → IsArray (shape param) = true →
  SameElementType add_shape (shape param) = true →
  is_Some (relocate_into old add_shape in_index next a).
Proof.
  intros Hp Hparam Harr Ht. unfold relocate_into. rewrite Hp. run_step.
  rewrite Hparam. run_step. rewrite Ht. cbn [negb].
  unfold MaybeReshapeConvertTuple.
  assert (IsTuple (shape param) = false) as -> by (by destruct (shape param)).
  rewrite Harr. simpl.
  rewrite (MaybeReshapeConvert_compatible _ _ _ _ Hparam (Compatible_refl _)).
  pose proof (instr_lt _ _ _ Hparam) as HpL.
  assert (∀ (channel : option Z) (next' : Z),
    is_Some
      (a4 ← rewire_users p (length (instructions a)) (users a p)
              (set_metadata_op_name (length (instructions a))
                 (metadata_op_name old)
                 (push_instruction
                    (CreateAllReduce (shape param) [p] (replica_groups old)
                       (constrain_layout old) channel
                       (use_global_device_ids old)) a));
       Some (length (instructions a), next', a4))) as Hrest.
  { intros channel next'.
    match goal with |- is_Some (rewire_users _ _ _ ?a3 ≫= _) =>
      set (c3 := a3) end.
    assert (∀ n, (n < length (instructions a))%nat → instr c3 n = instr a n)
      as Hold3.
    { intros n Hn. unfold c3, set_metadata_op_name.
      rewrite instr_update_instr, decide_False by lia.
      by rewrite instr_push_instruction, decide_False by lia. }
    destruct (rewire_users_exact p (length (instructions a)) (shape param)
                (users a p) c3) as (c' & -> & _).
    - exists param. split; [| done]. by rewrite Hold3.
    - unfold c3, set_metadata_op_name.
      rewrite instr_update_instr, decide_True by done.
      rewrite instr_push_instruction, decide_True by done.
      eexists. split; [done |]. simpl. apply Compatible_refl.
    - unfold users. apply NoDup_filter, NoDup_seq.
    - intros u Hu. pose proof (users_lt _ _ _ Hu).
      apply users_spec in Hu as (ui & Hui & _). rewrite Hold3 by done. eauto.
    - simpl. eauto. }
  run_step. unfold AddInstruction. destruct (channel_id old); apply Hrest.
Qed.

Lemma relocatable_extends b a b' a' j :
  extends b b' → extends a a' → relocatable b a j → relocatable b' a' j.
Proof.
  intros ((_ & _ & _ & _ & Hbb) & _ & Hbn) ((_ & Hparams & _ & Hak & _) & _)
         [-> | (p & param & Hp & Hparam & Harr & Hadd)]; [by left | right].
  destruct (Hak _ _ Hparam) as (param' & Hparam' & _ & Hsh & _).
  exists p, param'. rewrite Hparams, Hsh. split; [done |].
  split; [done |]. split; [done |]. intros n ins Hins Hop.
  destruct (decide (n < length (instructions b))%nat) as [Hlt | Hge].
  - destruct (Hbb _ _ Hlt Hins) as (ins0 & Hins0 & Hop0 & Hsh0 & _).
    rewrite Hsh0. eapply Hadd; [done | congruence].
  - destruct (Hbn n ins) as [Hcase _]; [lia | done |].
    rewrite Hop in Hcase. naive_solver.
Qed.

Lemma delay_index_succeeds out_index in_index st :
  well_formed (backward_entry st) →
  in_root_range (backward_entry st) out_index →
  relocatable (backward_entry st) (applygrad_entry st) in_index →
  ∃ st', delay_index out_index in_index st = Some st'.
Proof.
  intros Hwf Hi Hrel.
  destruct (decide (in_index = -1)) as [-> | Hin].
  { rewrite delay_index_local.
    destruct (rewrite_index_succeeds out_index
                (backward_entry st, to_remove st) Hwf Hi) as ([c rm] & -> & _).
    run_step. eauto. }
  destruct Hrel as [? | (p & param & Hp & Hparam & Harr & Hsame)]; [done |].
  destruct (match_index_succeeds _ _ Hwf Hi) as [m Hm].
  unfold delay_index. rewrite Hm. run_step.
  destruct m as [[[add_ins ar] u]|]; [| eauto].
  destruct Hwf as (Hc & Ha & Harity & Hlive & Hadd & Har).
  destruct (match_index_inv _ _ _ _ _ Hm)
    as (root & add & x & ai & Hroot & _ & Haddi & Hopadd & _ & _ & Husers
        & Hai & _ & Hone).
  assert (u ∈ users (backward_entry st) ar) as Hu by (rewrite Husers; by left).
  apply users_spec in Hu as (ui & Hui & _).
  destruct (detach_succeeds ar u _ ui ai Hc Hui Hai Hone)
    as (c1 & Hd & Hc1 & (_ & _ & _ & Hk & _)).
  rewrite Hd. run_step. rewrite decide_False by done.
  unfold relocate. cbn [backward_entry applygrad_entry next_channel_id to_remove].
  destruct (keeps_set_metadata_op_name ar kDelayedAllReduce c1)
    as (_ & _ & _ & Hk' & _).
  destruct (Hk _ _ Haddi) as (add1 & Hadd1 & _ & Hsh1 & _).
  destruct (Hk' _ _ Hadd1) as (add2 & Hadd2 & _ & Hsh2 & _).
  destruct (Hk _ _ Hai) as (ai1 & Hai1 & _).
  destruct (Hk' _ _ Hai1) as (ai2 & Hai2 & _).
  rewrite Hadd2. run_step. rewrite Hai2. run_step.
  destruct (relocate_into_succeeds ai2 (shape add2) in_index (next_channel_id st)
              (applygrad_entry st) p param) as [[[new next'] a'] ->];
    try done.
  { rewrite Hsh2, Hsh1. by eapply Hsame. }
  run_step. eauto.
Qed.

Lemma delay_loop_succeeds pairs st :
  well_formed (backward_entry st) →
  (∀ o j, (o, j) ∈ pairs →
          in_root_range (backward_entry st) o ∧
          relocatable (backward_entry st) (applygrad_entry st) j) →
  ∃ st', delay_loop pairs st = Some st' ∧ well_formed (backward_entry st').
Proof.
  revert st. induction pairs as [| [o j] rest IH]; intros st Hwf Hin.
  { exists st. done. }
  destruct (Hin o j) as [Ho Hj]; [by left |].
  destruct (delay_index_succeeds o j st Hwf Ho Hj) as [st1 H1].
  destruct (delay_index_extends _ _ _ _ H1) as (Hb & Ha & _).
  assert (well_formed (backward_entry st1)) as Hwf1.
  { apply (well_formed_extends _ _ Hb); [| done].
    destruct Hwf as (Hc & Hacyc & _). by eapply delay_index_producer_acyclic. }
  destruct (IH st1 Hwf1) as (st' & H & Hwf').
  { intros o' j' Hin'. destruct (Hin o' j') as [Ho' Hj']; [by right |]. split.
    - destruct Ho' as (root & Hroot & Hrange).
      destruct Hb as ((Hr & _ & _ & Hk & _) & _).
      destruct (Hk _ _ Hroot) as (root' & Hroot' & _ & _ & Hl & _).
      exists root'. rewrite Hr, Hl. done.
    - by eapply relocatable_extends. }
  exists st'. simpl. rewrite H1. done.
Qed.

(** X16.  [GradAccCommDelay::RunOnModuleGroup] runs to its end when the
    producer's entry computation is well-formed, the two index lists
    have one length, every output index lies inside the producer root's
    operand list, and every consumer index is -1 or names a parameter of
    the consumer module that is present, has an array shape and has the
    element type of the producer's Adds.  It returns the toggle's value,
    and the producer module it returns is well-formed again. *)
Theorem RunOnModuleGroup_completes ctx backward applygrad :
  well_formed (entry_computation backward) →
  length (rewrite_indices ctx) = length (rewrite_applygrad_indices ctx) →
  (∀ i, i ∈ rewrite_indices ctx →
        in_root_range (entry_computation backward) i) →
  (∀ j, j ∈ rewrite_applygrad_indices ctx →
        relocatable (entry_computation backward)
                    (entry_computation applygrad) j) →
  ∃ backward' applygrad',
    RunOnModuleGroup ctx (backward, applygrad)
    = Some (rewrite_for_grad_acc ctx, (backward', applygrad')) ∧
    well_formed (entry_computation backward').
Proof.
  intros Hwf Hlen Hout Hin. unfold RunOnModuleGroup.
  destruct (rewrite_for_grad_acc ctx); cbn [negb]; [| eauto].
  rewrite decide_False by (intros Hn; by apply Hn).
  destruct (delay_loop_succeeds
              (zip (rewrite_indices ctx) (rewrite_applygrad_indices ctx))
              (mkDelay (entry_computation backward)
                       (entry_computation applygrad)
                       (int64_wrap (NextChannelId applygrad)) []))
    as (st & H & Hwf').
  { done. }
  { intros o j Hoj. cbn [backward_entry applygrad_entry].
    apply elem_of_zip_l in Hoj as Ho. apply elem_of_zip_r in Hoj as Hj. auto. }
  rewrite H. run_step. eexists _, _. split; [done |].
  by apply well_formed_remove_all.
Qed.

Lemma RunOnModuleGroup_completes_witness :
  ∃ backward' applygrad',
    RunOnModuleGroup (mkContext true [0; 1] [1; -1]) (producer_two, consumer_unit)
    = Some (true, (backward', applygrad')) ∧
    well_formed (entry_computation backward').
Proof.
  apply (RunOnModuleGroup_completes (mkContext true [0; 1] [1; -1])
           producer_two consumer_unit).
  - apply well_formedb_well_formed. reflexivity.
  - reflexivity.
  - intros i Hi. eexists. split; [reflexivity |]. simpl.
    apply elem_of_cons in Hi as [-> | Hi]; [lia |].
    apply list_elem_of_singleton in Hi as ->. lia.
  - intros j Hj. apply elem_of_cons in Hj as [-> | Hj].
    + right. exists 1%nat, (plain kParameter f32_4 []).
      split; [reflexivity |]. split; [reflexivity |]. split; [reflexivity |].
      intros n ins Hins Hop.
      assert (n < 8)%nat as Hn by (apply instr_lt in Hins; exact Hins).
      do 8 (destruct n as [| n];
            [vm_compute in Hins; injection Hins as <-;
             first [discriminate Hop | reflexivity] |]).
      lia.
    + apply list_elem_of_singleton in Hj as ->. by left.
Defined.
